(** * borc: the CBOR decoder's value-tree builder (src/decoder.js)

    A shallow embedding of the [Decoder] class: the stack of open
    containers ([_parents]), the pending map key ([_tmpKey]), the callbacks
    the byte scanner invokes, and the public [decodeFirst] / [decodeAll].

    - Numbers are IEEE-754 binary64 values, with the arithmetic of the
      Standard Library's [SpecFloat] (signed zeros and infinities); a NaN
      keeps its sign bit, which the runtime shows when the number is
      written to a buffer.
    - Arrays, plain objects, [Map]s, [ArrayBuffer]s and [Bignumber]s are
      objects with identity: they live in a store ([objects]) and values
      hold their address, so that a container referenced both from its
      parent and from its frame is one shared object.
    - The byte scanner ([decoder.asm]) is a collaborator: it is a parameter
      of [_decode], giving the callbacks it makes and its status code. *)

From Stdlib Require Import ZArith List Bool Lia Ascii String.
From Stdlib Require Import Strings.Byte.
From Stdlib Require Import SpecFloat.
From stdpp Require Import base list.

Local Open Scope Z_scope.

(** ** Numbers *)

Definition prec : Z := 53.
Definition emax : Z := 1024.

(** The arithmetic of binary64 is the Standard Library's, whose values
    have one NaN. *)
Definition f_of_int (z : Z) : spec_float := binary_normalize prec emax z 0 false.
Definition f_add : spec_float -> spec_float -> spec_float := SFadd prec emax.
Definition f_sub : spec_float -> spec_float -> spec_float := SFsub prec emax.
Definition f_mul : spec_float -> spec_float -> spec_float := SFmul prec emax.
Definition f_neg : spec_float -> spec_float := SFopp.
Definition f_lt : spec_float -> spec_float -> bool := SFltb.
Definition f_eq : spec_float -> spec_float -> bool := SFeqb.

(** The integer part of a value's magnitude, with its sign; it is the
    value itself when the value is an integer. *)
Definition f_to_int (n : spec_float) : Z :=
  match n with
  | S754_finite s m e =>
      let a := match e with
               | Zneg k => Z.shiftr (Zpos m) (Zpos k)
               | _ => Z.shiftl (Zpos m) e
               end in
      if s then - a else a
  | _ => 0
  end.

(** A number of the language: a binary64.  A NaN has a sign bit like every
    other binary64; no operation of the language tells two NaNs apart, but
    the runtime keeps the bit, and it shows when the number is written to
    a buffer. *)
Inductive number :=
| N_zero (s : bool)
| N_infinity (s : bool)
| N_nan (s : bool)
| N_finite (s : bool) (m : positive) (e : Z).

Definition to_float (n : number) : spec_float :=
  match n with
  | N_zero s => S754_zero s
  | N_infinity s => S754_infinity s
  | N_nan _ => S754_nan
  | N_finite s m e => S754_finite s m e
  end.

(** The NaN an invalid operation makes (the sign the processor gives it is
    not modelled; the decoder performs no such operation). *)
Definition of_float (x : spec_float) : number :=
  match x with
  | S754_zero s => N_zero s
  | S754_infinity s => N_infinity s
  | S754_nan => N_nan false
  | S754_finite s m e => N_finite s m e
  end.

(** The number an integer denotes (rounded to nearest, ties to even, when
    it has more than 53 significant bits). *)
Definition of_int (z : Z) : number := of_float (f_of_int z).

(** The literals [NaN] and [Infinity]. *)
Definition NaN : number := N_nan false.
Definition Infinity : number := N_infinity false.

(** A binary operation: a NaN operand is the result. *)
Definition arith2 (f : spec_float -> spec_float -> spec_float) (a b : number)
  : number :=
  match a, b with
  | N_nan s, _ => N_nan s
  | _, N_nan s => N_nan s
  | _, _ => of_float (f (to_float a) (to_float b))
  end.

Definition num_add : number -> number -> number := arith2 f_add.
Definition num_sub : number -> number -> number := arith2 f_sub.
Definition num_mul : number -> number -> number := arith2 f_mul.

(** Unary minus changes the sign bit, that of a NaN too. *)
Definition num_neg (n : number) : number :=
  match n with
  | N_zero s => N_zero (negb s)
  | N_infinity s => N_infinity (negb s)
  | N_nan s => N_nan (negb s)
  | N_finite s m e => N_finite (negb s) m e
  end.

Definition num_lt (a b : number) : bool := f_lt (to_float a) (to_float b).
(** [===] on numbers. *)
Definition num_eq (a b : number) : bool := f_eq (to_float a) (to_float b).

Definition to_int (n : number) : Z := f_to_int (to_float n).


Definition is_NaN (n : number) : bool :=
  match n with N_nan _ => true | _ => false end.

(** ** Strings and bytes *)

(** A string is its sequence of UTF-16 code units. *)
Definition jsstring := list Z.

Definition js (s : string) : jsstring :=
  map (fun c => Z.of_N (N_of_ascii c)) (list_ascii_of_string s).

Definition jsstring_eqb (a b : jsstring) : bool :=
  (Nat.eqb (List.length a) (List.length b))
  && forallb (fun p => Z.eqb (fst p) (snd p)) (combine a b).

Definition byte_val (b : byte) : Z := Z.of_N (Byte.to_N b).

Definition byte_of (z : Z) : byte :=
  match Byte.of_N (Z.to_N (z mod 256)) with
  | Some b => b
  | None => x00
  end.

(** ** Values and the object store

    Objects are named by their index in the store. *)

Inductive value :=
| VUndefined
| VNull
| VBool (b : bool)
| VNum (n : number)
| VStr (s : jsstring)
| VRef (a : nat).

(** Objects with identity.  An array element [None] is a hole.  A plain
    object keeps its own properties in the order it lists them: the array
    indices first, in ascending order, then the other keys in the order of
    their creation. *)
Inductive hobj :=
| HArray (elems : list (option value))
| HObject (props : list (jsstring * value))
| HMap (entries : list (value * value))
| HArrayBuffer (bytes : list byte)
| HBignumber (z : Z).

(** Truthiness, as [if (v)] tests it. *)
Definition ToBoolean (v : value) : bool :=
  match v with
  | VUndefined | VNull => false
  | VBool b => b
  | VNum (N_zero _) | VNum (N_nan _) => false
  | VNum _ => true
  | VStr s => match s with [] => false | _ => true end
  | VRef _ => true
  end.

(** [typeof v === 'string'] *)
Definition is_string (v : value) : bool :=
  match v with VStr _ => true | _ => false end.

(** Key equality of [Map] (SameValueZero). *)
Definition SameValueZero (x y : value) : bool :=
  match x, y with
  | VUndefined, VUndefined => true
  | VNull, VNull => true
  | VBool a, VBool b => Bool.eqb a b
  | VNum (N_nan _), VNum (N_nan _) => true
  | VNum a, VNum b => num_eq a b
  | VStr a, VStr b => jsstring_eqb a b
  | VRef a, VRef b => Nat.eqb a b
  | _, _ => false
  end.

(** [map.set(k, v)]: an existing key keeps its place; a key [-0] is kept
    as [+0]. *)
Fixpoint map_upsert (k v : value) (es : list (value * value)) : list (value * value) :=
  match es with
  | [] => [(k, v)]
  | (k', v') :: es' =>
      if SameValueZero k' k then (k', v) :: es' else (k', v') :: map_upsert k v es'
  end.

Definition Map_set (k v : value) (es : list (value * value)) : list (value * value) :=
  let k := match k with VNum (N_zero _) => VNum (N_zero false) | _ => k end in
  map_upsert k v es.

(** An array index: the canonical decimal string of an integer from 0 to
    2^32 - 2. *)
Definition digit (c : Z) : bool := (48 <=? c) && (c <=? 57).

Definition decimal (k : jsstring) : Z :=
  fold_left (fun acc c => acc * 10 + (c - 48)) k 0.

Definition array_index (k : jsstring) : option Z :=
  match k with
  | [] => None
  | c :: rest =>
      if forallb digit k
         && (negb (c =? 48) || match rest with [] => true | _ => false end)
         && (decimal k <? 2 ^ 32 - 1)
      then Some (decimal k)
      else None
  end.

(** The own properties of a plain object, in the order the object lists
    them: the array indices first, in ascending order, then the other keys
    in the order of their creation. *)
Fixpoint props_mem (k : jsstring) (ps : list (jsstring * value)) : bool :=
  match ps with
  | [] => false
  | (k', _) :: ps' => jsstring_eqb k' k || props_mem k ps'
  end.

Fixpoint props_replace (k : jsstring) (v : value) (ps : list (jsstring * value))
  : list (jsstring * value) :=
  match ps with
  | [] => []
  | (k', v') :: ps' =>
      if jsstring_eqb k' k then (k', v) :: ps' else (k', v') :: props_replace k v ps'
  end.

Fixpoint props_insert_index (n : Z) (k : jsstring) (v : value)
  (ps : list (jsstring * value)) : list (jsstring * value) :=
  match ps with
  | [] => [(k, v)]
  | (k', v') :: ps' =>
      match array_index k' with
      | Some n' =>
          if n' <? n then (k', v') :: props_insert_index n k v ps'
          else (k, v) :: ps
      | None => (k, v) :: ps
      end
  end.

(** An existing property keeps its place and takes the value; a new one
    takes the place its key gives it. *)
Definition props_upsert (k : jsstring) (v : value) (ps : list (jsstring * value))
  : list (jsstring * value) :=
  if props_mem k ps then props_replace k v ps
  else
    match array_index k with
    | Some n => props_insert_index n k v ps
    | None => ps ++ [(k, v)]
    end.

(** [obj[k] = v] on an object created by [{}] that still has its first
    prototype.  The key [__proto__] reaches the accessor the object
    inherits: its setter ignores a value that is neither an object nor
    [null], and creates no own property; with an object or [null] it gives
    the object another prototype, which is not modelled ([None]). *)
Definition Object_set (k : jsstring) (v : value) (ps : list (jsstring * value))
  : option (list (jsstring * value)) :=
  if jsstring_eqb k (js "__proto__") then
    match v with
    | VNull | VRef _ => None
    | _ => Some ps
    end
  else Some (props_upsert k v ps).

(** ** The decoder's state *)

Definition PARENT_ARRAY : Z := 0.
Definition PARENT_OBJECT : Z := 1.
Definition PARENT_MAP : Z := 2.
Definition PARENT_TAG : Z := 3.

Definition MAX_SAFE_HIGH : number := of_int 0x1fffff.
Definition NEG_ONE : Z := -1.

(** An entry of [_parents].  The source writes the expected child count
    under [len] (the root, in [_reset]) and under [left] (in
    [_createParent]), and reads and decrements it under [length] (in
    [_dec]); the three are distinct properties of the frame object, absent
    ([None]) until assigned. *)
Record parent := mkParent {
  p_type : Z;
  p_len : option number;
  p_left : option value;
  p_length : option number;
  p_ref : nat
}.

Record Decoder := mkDecoder {
  _heap : list byte;
  objects : list hobj;
  _res : nat;
  _tmpKey : value;
  _parents : list parent
}.

(** ** Outcomes

    A call returns a result, raises an exception, or reaches a step that
    is not modelled here: an operation on an object of the wrong kind (the
    decoder never builds a store that holds one where the operation
    looks), the conversion of a pending key that is not a string into a
    property name, which the runtime does through the key's [toString], or
    the assignment of an object or of [null] under the key [__proto__],
    which gives the object another prototype. *)

Inductive exn :=
| Error (msg : string)
| TypeError
| RangeError.

Inductive outcome (A : Type) :=
| Ok (a : A)
| Throw (e : exn)
| Unmodelled.

Arguments Ok {A} a.
Arguments Throw {A} e.
Arguments Unmodelled {A}.

Definition M (A : Type) : Type := Decoder -> outcome (A * Decoder).

Definition ret {A} (a : A) : M A := fun d => Ok (a, d).

Definition bind {A B} (m : M A) (k : A -> M B) : M B :=
  fun d =>
    match m d with
    | Ok (a, d') => k a d'
    | Throw e => Throw e
    | Unmodelled => Unmodelled
    end.

Definition throw {A} (e : exn) : M A := fun _ => Throw e.
Definition unmodelled {A} : M A := fun _ => Unmodelled.

Declare Scope js_scope.
Delimit Scope js_scope with js.
Notation "x <- m ;; k" := (bind m (fun x => k))
  (at level 100, m at next level, right associativity) : js_scope.
Notation "m ;; k" := (bind m (fun _ => k))
  (at level 100, right associativity) : js_scope.
Local Open Scope js_scope.

Definition get {A} (f : Decoder -> A) : M A := fun d => Ok (f d, d).

Definition set_objects (s : list hobj) : M unit :=
  fun d => Ok (tt, mkDecoder (_heap d) s (_res d) (_tmpKey d) (_parents d)).
Definition set_heap (h : list byte) : M unit :=
  fun d => Ok (tt, mkDecoder h (objects d) (_res d) (_tmpKey d) (_parents d)).
Definition set_res (a : nat) : M unit :=
  fun d => Ok (tt, mkDecoder (_heap d) (objects d) a (_tmpKey d) (_parents d)).
Definition set_tmpKey (v : value) : M unit :=
  fun d => Ok (tt, mkDecoder (_heap d) (objects d) (_res d) v (_parents d)).
Definition set_parents (ps : list parent) : M unit :=
  fun d => Ok (tt, mkDecoder (_heap d) (objects d) (_res d) (_tmpKey d) ps).

(** A fresh object. *)
Definition alloc (o : hobj) : M nat :=
  s <- get objects ;;
  set_objects (s ++ [o]) ;;
  ret (List.length s).

Definition load (a : nat) : M hobj :=
  s <- get objects ;;
  match s !! a with
  | Some o => ret o
  | None => unmodelled
  end.

Definition store_at (a : nat) (o : hobj) : M unit :=
  s <- get objects ;;
  set_objects (<[a := o]> s).

(** ** The missing helpers ([utils], [constants]) *)

(** Modelled from the spec: [constants.SHIFT32] is not under src/; the spec
    gives the 64-bit magnitude as high·2^32 + low. *)
Definition SHIFT32 : number := of_int (2 ^ 32).

(** Modelled from the spec: [utils.buildInt32] is not under src/; the spec
    has it assemble two big-endian 16-bit fragments into a 32-bit unsigned
    integer, here in the language's number arithmetic. *)
Definition buildInt32 (f g : number) : number :=
  num_add (num_mul f (of_int (2 ^ 16))) g.

(** [new Bignumber(n)] for a number holding an integer. *)
Definition Bignumber (n : number) : Z := to_int n.

(** Modelled from the spec: [utils.buildInt64] is not under src/; the spec
    has it assemble four big-endian 16-bit fragments into a 64-bit unsigned
    integer and promote to an arbitrary-precision integer when the high
    word exceeds the safe-integer threshold. *)
Definition buildInt64 (f1 f2 g1 g2 : number) : M value :=
  let f := buildInt32 f1 f2 in
  let g := buildInt32 g1 g2 in
  if num_lt MAX_SAFE_HIGH f then
    a <- alloc (HBignumber (Bignumber f * Bignumber SHIFT32 + Bignumber g)) ;;
    ret (VRef a)
  else
    ret (VNum (num_add (num_mul f SHIFT32) g)).

(** Modelled from the spec: [utils.buildMap] is not under src/; the spec
    has the string-keyed contents migrated into a general mapping with no
    loss of entries. *)
Definition buildMap (obj : nat) : M nat :=
  o <- load obj ;;
  match o with
  | HObject ps => alloc (HMap (map (fun kv => (VStr (fst kv), snd kv)) ps))
  | _ => unmodelled
  end.

(** ** The tree builder *)

(** The getters [_depth], [_currentParent], [_ref] (decoder.js 59-69). *)
Definition _depth : M nat := ps <- get _parents ;; ret (List.length ps).

Definition _currentParent : M parent :=
  ps <- get _parents ;;
  n <- _depth ;;
  match ps !! (n - 1)%nat with
  | Some p => ret p
  | None => throw TypeError
  end.

(** An assignment to a property of the current frame object. *)
Definition assign_currentParent (p : parent) : M unit :=
  ps <- get _parents ;;
  n <- _depth ;;
  set_parents (<[(n - 1)%nat := p]> ps).

Definition _ref : M nat := p <- _currentParent ;; ret (p_ref p).

(** [_closeParent] (decoder.js 72-74): [this._parents.pop()]. *)
Definition _closeParent : M unit :=
  ps <- get _parents ;;
  set_parents (removelast ps).

(** A property read as a number: an absent one is [undefined], which
    converts to [NaN]. *)
Definition ToNumber (o : option number) : number :=
  match o with
  | Some n => n
  | None => NaN
  end.

(** [_dec] (decoder.js 77-91): it reads [p.length]. *)
Definition _dec : M unit :=
  p <- _currentParent ;;
  if num_lt (ToNumber (p_length p)) (of_int 0) then ret tt
  else
    let l := num_sub (ToNumber (p_length p)) (of_int 1) in
    assign_currentParent
      (mkParent (p_type p) (p_len p) (p_left p) (Some l) (p_ref p)) ;;
    if num_eq l (of_int 0) then _closeParent else ret tt.

(** [this._ref.push(val)].  The runtime refuses, with a RangeError, a
    push onto an array that has 2^32 - 1 elements; that limit is not part
    of the model, which appends. *)
Definition Array_push (r : nat) (val : value) : M unit :=
  o <- load r ;;
  match o with
  | HArray es => store_at r (HArray (es ++ [Some val]))
  | _ => unmodelled
  end.

(** [this._ref[this._tmpKey] = val] *)
Definition Object_assign (r : nat) (key val : value) : M unit :=
  o <- load r ;;
  match o, key with
  | HObject ps, VStr k =>
      match Object_set k val ps with
      | Some ps' => store_at r (HObject ps')
      | None => unmodelled
      end
  | _, _ => unmodelled
  end.

(** [this._ref.set(this._tmpKey, val)] *)
Definition Map_assign (r : nat) (key val : value) : M unit :=
  o <- load r ;;
  match o with
  | HMap es => store_at r (HMap (Map_set key val es))
  | _ => unmodelled
  end.

(** [_push] (decoder.js 94-131). *)
Definition _push (val : value) : M unit :=
  p <- _currentParent ;;
  if p_type p =? PARENT_ARRAY then
    r <- _ref ;;
    Array_push r val ;;
    _dec
  else if p_type p =? PARENT_OBJECT then
    k <- get _tmpKey ;;
    if ToBoolean k then
      r <- _ref ;;
      Object_assign r k val ;;
      set_tmpKey VNull ;;
      _dec
    else
      set_tmpKey val ;;
      if negb (is_string val) then
        m <- buildMap (p_ref p) ;;
        assign_currentParent
          (mkParent PARENT_MAP (p_len p) (p_left p) (p_length p) m)
      else ret tt
  else if p_type p =? PARENT_MAP then
    k <- get _tmpKey ;;
    if ToBoolean k then
      r <- _ref ;;
      Map_assign r k val ;;
      set_tmpKey VNull ;;
      _dec
    else
      set_tmpKey val
  else if p_type p =? PARENT_TAG then
    ret tt
  else
    throw (Error "Unkwon parent type").

(** [_createParent] (decoder.js 134-141): the new frame is
    [{type: type, left: len, ref: obj}]. *)
Definition _createParent (obj : nat) (type : Z) (len : value) : M unit :=
  _push (VRef obj) ;;
  ps <- get _parents ;;
  set_parents (ps ++ [mkParent type None (Some len) None obj]).

(** [_reset] (decoder.js 144-152): the root frame is
    [{type: PARENT_ARRAY, len: -1, ref: this._res}]. *)
Definition _reset : M unit :=
  r <- alloc (HArray []) ;;
  set_res r ;;
  set_tmpKey VNull ;;
  set_parents [mkParent PARENT_ARRAY (Some (of_int (-1))) None None r].

(** ** The runtime's constructors and conversions the callbacks use *)

(** [new Array(len)]: a number must be an array length (an integer in
    [0, 2^32)), and gives that many holes; any other value becomes the
    single element. *)
Definition new_Array (len : value) : M nat :=
  match len with
  | VNum n =>
      let z := to_int n in
      if (0 <=? z) && (z <? 2 ^ 32) && num_eq (of_int z) n
      then alloc (HArray (repeat None (Z.to_nat z)))
      else throw RangeError
  | _ => alloc (HArray [Some len])
  end.

(** [buf.slice(start, stop)] on an [ArrayBuffer]. *)
Definition ArrayBuffer_slice (buf : list byte) (start stop : Z) : list byte :=
  let len := Z.of_nat (List.length buf) in
  let first := if start <? 0 then Z.max (len + start) 0 else Z.min start len in
  let final := if stop <? 0 then Z.max (len + stop) 0 else Z.min stop len in
  firstn (Z.to_nat (final - first)) (skipn (Z.to_nat first) buf).

(** [Buffer.prototype.toString('utf8')]: the runtime's decoder.  It never
    raises: every ill-formed sequence (a maximal subpart of it) is replaced
    by U+FFFD. *)
Inductive utf8_state :=
| U_start
| U_cont (cp : Z) (needed : nat) (lower upper : Z).

Definition utf8_lead (b : Z) : list Z * utf8_state :=
  if b <=? 0x7F then ([b], U_start)
  else if (0xC2 <=? b) && (b <=? 0xDF) then
    ([], U_cont (Z.land b 0x1F) 1 0x80 0xBF)
  else if (0xE0 <=? b) && (b <=? 0xEF) then
    ([], U_cont (Z.land b 0xF) 2
           (if b =? 0xE0 then 0xA0 else 0x80) (if b =? 0xED then 0x9F else 0xBF))
  else if (0xF0 <=? b) && (b <=? 0xF4) then
    ([], U_cont (Z.land b 0x7) 3
           (if b =? 0xF0 then 0x90 else 0x80) (if b =? 0xF4 then 0x8F else 0xBF))
  else ([0xFFFD], U_start).

Fixpoint utf8_code_points (st : utf8_state) (bs : list Z) : list Z :=
  match bs with
  | [] => match st with U_start => [] | U_cont _ _ _ _ => [0xFFFD] end
  | b :: bs' =>
      match st with
      | U_start =>
          let '(out, st') := utf8_lead b in out ++ utf8_code_points st' bs'
      | U_cont cp needed lower upper =>
          if (lower <=? b) && (b <=? upper) then
            let cp' := Z.lor (Z.shiftl cp 6) (Z.land b 0x3F) in
            match needed with
            | S (S n) => utf8_code_points (U_cont cp' (S n) 0x80 0xBF) bs'
            | _ => cp' :: utf8_code_points U_start bs'
            end
          else
            let '(out, st') := utf8_lead b in
            0xFFFD :: out ++ utf8_code_points st' bs'
      end
  end.

Definition code_units (cp : Z) : list Z :=
  if cp <? 0x10000 then [cp]
  else
    let c := cp - 0x10000 in
    [0xD800 + Z.shiftr c 10; 0xDC00 + Z.land c 0x3FF].

Definition toString_utf8 (bs : list byte) : jsstring :=
  flat_map code_units (utf8_code_points U_start (map byte_val bs)).

(** Well-formed UTF-8 (RFC 3629), to say which byte ranges are not. *)
Definition utf8_tail (lower upper b : Z) : bool := (lower <=? b) && (b <=? upper).

Fixpoint well_formed_utf8 (bs : list Z) : bool :=
  match bs with
  | [] => true
  | b0 :: r0 =>
      if b0 <=? 0x7F then well_formed_utf8 r0
      else if (0xC2 <=? b0) && (b0 <=? 0xDF) then
        match r0 with
        | b1 :: r1 => utf8_tail 0x80 0xBF b1 && well_formed_utf8 r1
        | _ => false
        end
      else if (0xE0 <=? b0) && (b0 <=? 0xEF) then
        match r0 with
        | b1 :: b2 :: r2 =>
            utf8_tail (if b0 =? 0xE0 then 0xA0 else 0x80)
                      (if b0 =? 0xED then 0x9F else 0xBF) b1
            && utf8_tail 0x80 0xBF b2 && well_formed_utf8 r2
        | _ => false
        end
      else if (0xF0 <=? b0) && (b0 <=? 0xF4) then
        match r0 with
        | b1 :: b2 :: b3 :: r3 =>
            utf8_tail (if b0 =? 0xF0 then 0x90 else 0x80)
                      (if b0 =? 0xF4 then 0x8F else 0xBF) b1
            && utf8_tail 0x80 0xBF b2 && utf8_tail 0x80 0xBF b3
            && well_formed_utf8 r3
        | _ => false
        end
      else false
  end.

Definition valid_utf8 (bs : list byte) : bool := well_formed_utf8 (map byte_val bs).

(** [ieee754.read(buffer, 0, false, mLen, nBytes)] of the [ieee754]
    package, on big-endian bytes (each in [0, 255]): the value of the
    IEEE-754 pattern, as a number. *)
Definition ieee754_read (buffer : list Z) (mLen nBytes : Z) : number :=
  let bits := fold_left (fun acc b => acc * 256 + b) buffer 0 in
  let eLen := nBytes * 8 - mLen - 1 in
  let eMax := 2 ^ eLen - 1 in
  let eBias := Z.shiftr eMax 1 in
  let s := Z.testbit bits (nBytes * 8 - 1) in
  let e := Z.land (Z.shiftr bits mLen) eMax in
  let m := Z.land bits (2 ^ mLen - 1) in
  if e =? eMax then (if m =? 0 then N_infinity s else NaN)
  else
    let '(m, e) := if e =? 0 then (m, 1 - eBias) else (m + 2 ^ mLen, e - eBias) in
    of_float (binary_normalize prec emax (if s then - m else m) (e - mLen) s).

(** ** Interface to customize decoding behaviour: the callbacks

    The scanner passes integers (fragments, lengths, offsets, bytes) and, to
    [pushFloat], a number. *)

(** [_createObjectStartFixed], [_createArrayStartFixed] (decoder.js
    271-277). *)
Definition _createObjectStartFixed (len : value) : M unit :=
  obj <- alloc (HObject []) ;;
  _createParent obj PARENT_OBJECT len.

Definition _createArrayStartFixed (len : value) : M unit :=
  obj <- new_Array len ;;
  _createParent obj PARENT_ARRAY len.

Definition pushInt (val : Z) : M unit := _push (VNum (of_int val)).

Definition pushInt32 (f g : Z) : M unit :=
  _push (VNum (buildInt32 (of_int f) (of_int g))).

Definition pushInt64 (f1 f2 g1 g2 : Z) : M unit :=
  v <- buildInt64 (of_int f1) (of_int f2) (of_int g1) (of_int g2) ;;
  _push v.

Definition pushFloat (val : number) : M unit := _push (VNum val).

Definition pushFloatSingle (a b c d : Z) : M unit :=
  _push (VNum (ieee754_read [a; b; c; d] 23 4)).

Definition pushFloatDouble (a b c d e f g h : Z) : M unit :=
  _push (VNum (ieee754_read [a; b; c; d; e; f; g; h] 52 8)).

Definition pushInt32Neg (f g : Z) : M unit :=
  _push (VNum (num_sub (of_int (-1)) (buildInt32 (of_int f) (of_int g)))).

(** [x.sub(y)] on a [Bignumber].  The class of bignumber.js 9, the
    version package.json asks for, has the method [minus] and none named
    [sub]: calling the absent method raises a TypeError, once the argument
    is evaluated. *)
Definition Bignumber_sub (x y : Z) : M nat := throw TypeError.

(** [pushInt64Neg] (decoder.js 188-199). *)
Definition pushInt64Neg (f1 f2 g1 g2 : Z) : M unit :=
  let f := buildInt32 (of_int f1) (of_int f2) in
  let g := buildInt32 (of_int g1) (of_int g2) in
  if num_lt MAX_SAFE_HIGH f then
    b <- Bignumber_sub NEG_ONE
           (Bignumber f * Bignumber SHIFT32 + Bignumber g) ;;
    _push (VRef b)
  else
    _push (VNum (num_sub (of_int (-1)) (num_add (num_mul f SHIFT32) g))).

Definition pushTrue : M unit := _push (VBool true).
Definition pushFalse : M unit := _push (VBool false).
Definition pushNull : M unit := _push VNull.
Definition pushUndefined : M unit := _push VUndefined.
Definition pushInfinity : M unit := _push (VNum Infinity).
Definition pushInfinityNeg : M unit := _push (VNum (num_neg Infinity)).
Definition pushNaN : M unit := _push (VNum NaN).
Definition pushNaNNeg : M unit := _push (VNum (num_neg NaN)).

Definition pushArrayStartFixed (len : Z) : M unit :=
  _createArrayStartFixed (VNum (of_int len)).

Definition pushArrayStartFixed32 (len1 len2 : Z) : M unit :=
  let len := buildInt32 (of_int len1) (of_int len2) in
  _createArrayStartFixed (VNum len).

Definition pushArrayStartFixed64 (len1 len2 len3 len4 : Z) : M unit :=
  len <- buildInt64 (of_int len1) (of_int len2) (of_int len3) (of_int len4) ;;
  _createArrayStartFixed len.

Definition pushObjectStartFixed (len : Z) : M unit :=
  _createObjectStartFixed (VNum (of_int len)).

Definition pushObjectStartFixed32 (len1 len2 : Z) : M unit :=
  let len := buildInt32 (of_int len1) (of_int len2) in
  _createObjectStartFixed (VNum len).

Definition pushObjectStartFixed64 (len1 len2 len3 len4 : Z) : M unit :=
  len <- buildInt64 (of_int len1) (of_int len2) (of_int len3) (of_int len4) ;;
  _createObjectStartFixed len.

Definition pushByteString (start stop : Z) : M unit :=
  h <- get _heap ;;
  b <- alloc (HArrayBuffer (ArrayBuffer_slice h start (stop + 1))) ;;
  _push (VRef b).

Definition pushUtf8String (start stop : Z) : M unit :=
  h <- get _heap ;;
  _push (VStr (toString_utf8 (ArrayBuffer_slice h start (stop + 1)))).

(** ** The scanner boundary *)

(** One call of a callback of the table given to the scanner. *)
Inductive event :=
| EpushInt (val : Z)
| EpushInt32 (f g : Z)
| EpushInt32Neg (f g : Z)
| EpushInt64 (f1 f2 g1 g2 : Z)
| EpushInt64Neg (f1 f2 g1 g2 : Z)
| EpushFloat (val : number)
| EpushFloatSingle (a b c d : Z)
| EpushFloatDouble (a b c d e f g h : Z)
| EpushTrue
| EpushFalse
| EpushUndefined
| EpushNull
| EpushInfinity
| EpushInfinityNeg
| EpushNaN
| EpushNaNNeg
| EpushArrayStartFixed (len : Z)
| EpushArrayStartFixed32 (len1 len2 : Z)
| EpushArrayStartFixed64 (len1 len2 len3 len4 : Z)
| EpushObjectStartFixed (len : Z)
| EpushObjectStartFixed32 (len1 len2 : Z)
| EpushObjectStartFixed64 (len1 len2 len3 len4 : Z)
| EpushByteString (start stop : Z)
| EpushUtf8String (start stop : Z).

Definition callback (ev : event) : M unit :=
  match ev with
  | EpushInt val => pushInt val
  | EpushInt32 f g => pushInt32 f g
  | EpushInt32Neg f g => pushInt32Neg f g
  | EpushInt64 f1 f2 g1 g2 => pushInt64 f1 f2 g1 g2
  | EpushInt64Neg f1 f2 g1 g2 => pushInt64Neg f1 f2 g1 g2
  | EpushFloat val => pushFloat val
  | EpushFloatSingle a b c d => pushFloatSingle a b c d
  | EpushFloatDouble a b c d e f g h => pushFloatDouble a b c d e f g h
  | EpushTrue => pushTrue
  | EpushFalse => pushFalse
  | EpushUndefined => pushUndefined
  | EpushNull => pushNull
  | EpushInfinity => pushInfinity
  | EpushInfinityNeg => pushInfinityNeg
  | EpushNaN => pushNaN
  | EpushNaNNeg => pushNaNNeg
  | EpushArrayStartFixed len => pushArrayStartFixed len
  | EpushArrayStartFixed32 len1 len2 => pushArrayStartFixed32 len1 len2
  | EpushArrayStartFixed64 l1 l2 l3 l4 => pushArrayStartFixed64 l1 l2 l3 l4
  | EpushObjectStartFixed len => pushObjectStartFixed len
  | EpushObjectStartFixed32 len1 len2 => pushObjectStartFixed32 len1 len2
  | EpushObjectStartFixed64 l1 l2 l3 l4 => pushObjectStartFixed64 l1 l2 l3 l4
  | EpushByteString start stop => pushByteString start stop
  | EpushUtf8String start stop => pushUtf8String start stop
  end.

Fixpoint callbacks (evs : list event) : M unit :=
  match evs with
  | [] => ret tt
  | ev :: evs' => callback ev ;; callbacks evs'
  end.

(** [parser.parse(byteLength)]: the scanner reads the shared heap and the
    input's length, makes its callbacks in order, and returns a status
    code.  A callback that raises ends the scan with that exception. *)
Definition scanner := list byte -> Z -> list event * Z.

(** [this._heap8.set(input)] *)
Definition Uint8Array_set (input : list byte) : M unit :=
  h <- get _heap ;;
  if (List.length h <? List.length input)%nat then throw RangeError
  else set_heap (input ++ skipn (List.length input) h).

(** [_decode] (decoder.js 279-287): the only test after the scan is
    [code > 0]. *)
Definition _decode (parser : scanner) (input : list byte) : M unit :=
  _reset ;;
  Uint8Array_set input ;;
  h <- get _heap ;;
  let '(evs, code) := parser h (Z.of_nat (List.length input)) in
  callbacks evs ;;
  if 0 <? code then throw (Error "Failed to parse") else ret tt.

(** ** Public interface *)

(** [this._res[0]] *)
Definition first_of (es : list (option value)) : value :=
  match es with
  | Some v :: _ => v
  | _ => VUndefined
  end.

(** [decodeFirst], [decodeAll] (decoder.js 291-301). *)
Definition decodeFirst (parser : scanner) (input : list byte) : M value :=
  _decode parser input ;;
  r <- get _res ;;
  o <- load r ;;
  match o with
  | HArray es => ret (first_of es)
  | _ => unmodelled
  end.

Definition decodeAll (parser : scanner) (input : list byte) : M value :=
  _decode parser input ;;
  r <- get _res ;;
  ret (VRef r).

(** The object before its constructor ran. *)
Definition blank : Decoder := mkDecoder [] [] 0%nat VUndefined [].

(** [new ArrayBuffer(size)]: zeroed bytes.  A length above 2^53 - 1 is
    refused with a RangeError.  Below it, a runtime refuses what it cannot
    allocate: up to 2^31 - 1 bytes the runtimes the package names allocate
    the buffer, memory permitting; above, it depends on the runtime, which
    is not modelled. *)
Definition new_ArrayBuffer (size : Z) : M unit :=
  if size <=? 2 ^ 31 - 1 then set_heap (repeat x00 (Z.to_nat size))
  else if size <=? 2 ^ 53 - 1 then unmodelled
  else throw RangeError.

(** [new Decoder(size)] (decoder.js 19-28): a heap of [size] bytes, of
    0x10000 when [size] is absent, zero or smaller; then [_reset]. *)
Definition new_Decoder (size : option Z) : outcome (unit * Decoder) :=
  let size := match size with
              | Some s => if (s =? 0) || (s <? 0x10000) then 0x10000 else s
              | None => 0x10000
              end in
  (new_ArrayBuffer size ;; _reset) blank.

(** The static [Decoder.decode] / [Decoder.decodeFirst] and
    [Decoder.decodeAll], on bytes. *)
Definition Decoder_decode (parser : scanner) (input : list byte) : outcome (value * Decoder) :=
  match new_Decoder None with
  | Ok (_, dec) => decodeFirst parser input dec
  | Throw e => Throw e
  | Unmodelled => Unmodelled
  end.

Definition Decoder_decodeAll (parser : scanner) (input : list byte) : outcome (value * Decoder) :=
  match new_Decoder None with
  | Ok (_, dec) => decodeAll parser input dec
  | Throw e => Throw e
  | Unmodelled => Unmodelled
  end.

(** ** Observing results *)

(** The value tree a value stands for in a store. *)
#[warnings="-register-all"]
Inductive tree :=
| TUndefined
| TNull
| TBool (b : bool)
| TNum (n : number)
| TStr (s : jsstring)
| TArray (elems : list (option tree))
| TObject (props : list (jsstring * tree))
| TMap (entries : list (tree * tree))
| TArrayBuffer (bytes : list byte)
| TBignumber (z : Z).

Fixpoint tree_of (fuel : nat) (s : list hobj) (v : value) : option tree :=
  match fuel with
  | O => None
  | S fuel' =>
      match v with
      | VUndefined => Some TUndefined
      | VNull => Some TNull
      | VBool b => Some (TBool b)
      | VNum n => Some (TNum n)
      | VStr x => Some (TStr x)
      | VRef a =>
          match s !! a with
          | Some (HArray es) =>
              TArray <$> mapM (fun e => match e with
                                        | None => Some None
                                        | Some x => Some <$> tree_of fuel' s x
                                        end) es
          | Some (HObject ps) =>
              TObject <$> mapM (fun kv => pair (fst kv) <$> tree_of fuel' s (snd kv)) ps
          | Some (HMap es) =>
              TMap <$> mapM (fun kv => k ← tree_of fuel' s (fst kv);
                                       x ← tree_of fuel' s (snd kv);
                                       Some (k, x)) es
          | Some (HArrayBuffer bs) => Some (TArrayBuffer bs)
          | Some (HBignumber z) => Some (TBignumber z)
          | None => None
          end
      end
  end.

(** What the caller of a decode function sees: the tree returned, or the
    exception. *)
Definition observe (o : outcome (value * Decoder)) : outcome (option tree) :=
  match o with
  | Ok (v, d) => Ok (tree_of (S (List.length (objects d))) (objects d) v)
  | Throw e => Throw e
  | Unmodelled => Unmodelled
  end.

(** The depth of the frame stack a call leaves. *)
Definition depth_after {A} (o : outcome (A * Decoder)) : option nat :=
  match o with
  | Ok (_, d) => Some (List.length (_parents d))
  | _ => None
  end.

(** The entries a container holds, keys as values. *)
Definition entries_of (o : hobj) : list (value * value) :=
  match o with
  | HObject ps => map (fun kv => (VStr (fst kv), snd kv)) ps
  | HMap es => es
  | _ => []
  end.

(** A scanner that makes the given callbacks and returns the given status,
    whatever the bytes: the scanner's answer for one input. *)
Definition scanned (evs : list event) (code : Z) : scanner := fun _ _ => (evs, code).

(** The state in which the scanner starts: after [_reset] and the copy of
    the input into the shared heap. *)
Definition started (input : list byte) (d : Decoder) : Decoder :=
  mkDecoder (input ++ skipn (List.length input) (_heap d))
            (objects d ++ [HArray []])
            (List.length (objects d))
            VNull
            [mkParent PARENT_ARRAY (Some (of_int (-1))) None None (List.length (objects d))].

(** The number of a non-zero integer of at most 53 bits, sign [s] and
    magnitude [q]: the mantissa is [q] moved up to 53 bits. *)
Definition canon (s : bool) (q : positive) : spec_float :=
  S754_finite s (Z.to_pos (Zpos q * 2 ^ (53 - Zpos (digits2_pos q))))
    (Zpos (digits2_pos q) - 53).

(** A frame whose [length] was never given a count: absent, or the [NaN]
    a decrement of the absent property leaves. *)
Definition unknown_length (p : parent) : Prop :=
  p_length p = None \/ p_length p = Some NaN.

(** The callbacks that open a container. *)
Definition opens (ev : event) : bool :=
  match ev with
  | EpushArrayStartFixed _ | EpushArrayStartFixed32 _ _
  | EpushArrayStartFixed64 _ _ _ _
  | EpushObjectStartFixed _ | EpushObjectStartFixed32 _ _
  | EpushObjectStartFixed64 _ _ _ _ => true
  | _ => false
  end.

(** The frame the builder pushes into. *)
Definition current (d : Decoder) (p : parent) : Prop :=
  _parents d !! (List.length (_parents d) - 1)%nat = Some p.

Definition with_tmpKey (d : Decoder) (val : value) : Decoder :=
  mkDecoder (_heap d) (objects d) (_res d) val (_parents d).

(** A frame after [_dec] went over it without a count. *)
Definition counted (p : parent) : parent :=
  mkParent (p_type p) (p_len p) (p_left p) (Some NaN) (p_ref p).

(** The state after one leaf was pushed at top level from the start. *)
Definition first_pushed (input : list byte) (d : Decoder) (val : value) : Decoder :=
  mkDecoder (input ++ skipn (List.length input) (_heap d))
            (objects d ++ [HArray [Some val]])
            (List.length (objects d))
            VNull
            [mkParent PARENT_ARRAY (Some (of_int (-1))) None (Some NaN)
                      (List.length (objects d))].

(** The containers that hold keyed entries. *)
Definition is_keyed (o : hobj) : bool :=
  match o with
  | HObject _ | HMap _ => true
  | _ => false
  end.

(** No callback assigns [_res], and an array of the store stays an array:
    objects are only added to the store or updated in their kind. *)
Definition keeps_arrays (d d' : Decoder) : Prop :=
  _res d' = _res d
  /\ forall a es, objects d !! a = Some (HArray es) ->
       exists es', objects d' !! a = Some (HArray es').

(** ** Further notions used to state how the code behaves *)

(** The value a leaf callback pushes, for the callbacks that make no new
    object; [h] is the shared heap the string callbacks read. *)
Definition leaf (h : list byte) (ev : event) : option value :=
  match ev with
  | EpushInt val => Some (VNum (of_int val))
  | EpushInt32 f g => Some (VNum (buildInt32 (of_int f) (of_int g)))
  | EpushInt32Neg f g =>
      Some (VNum (num_sub (of_int (-1)) (buildInt32 (of_int f) (of_int g))))
  | EpushFloat val => Some (VNum val)
  | EpushFloatSingle a b c d => Some (VNum (ieee754_read [a; b; c; d] 23 4))
  | EpushFloatDouble a b c d e f g h' =>
      Some (VNum (ieee754_read [a; b; c; d; e; f; g; h'] 52 8))
  | EpushTrue => Some (VBool true)
  | EpushFalse => Some (VBool false)
  | EpushUndefined => Some VUndefined
  | EpushNull => Some VNull
  | EpushInfinity => Some (VNum Infinity)
  | EpushInfinityNeg => Some (VNum (num_neg Infinity))
  | EpushNaN => Some (VNum NaN)
  | EpushNaNNeg => Some (VNum (num_neg NaN))
  | EpushUtf8String start stop =>
      Some (VStr (toString_utf8 (ArrayBuffer_slice h start (stop + 1))))
  | _ => None
  end.

(** A frame as the decoder makes them: one of the three kinds it creates,
    with no count under [length]. *)
Definition made_frame (p : parent) : Prop :=
  (p_type p = PARENT_ARRAY \/ p_type p = PARENT_OBJECT \/ p_type p = PARENT_MAP)
  /\ unknown_length p.

Definition made_stack (d : Decoder) : Prop :=
  _parents d <> [] /\ Forall made_frame (_parents d).

(** The objects below address [n] are those of [old], and every frame
    fills an object at or above [n]. *)
Definition apart_from (n : nat) (old : list hobj) (d : Decoder) : Prop :=
  firstn n (objects d) = old
  /\ (n <= List.length (objects d))%nat
  /\ Forall (fun p => (n <= p_ref p)%nat) (_parents d).

(** The pairs of a string-keyed map as the scanner gives them: the offsets
    of the key and the callback of the value. *)
Definition pair_events (kvs : list (Z * Z * event)) : list event :=
  flat_map (fun kv => [EpushUtf8String (fst (fst kv)) (snd (fst kv)); snd kv]) kvs.

(** The properties that result from assigning the pairs in order. *)
Fixpoint assign_all (kvs : list (jsstring * value)) (ps : list (jsstring * value))
  : option (list (jsstring * value)) :=
  match kvs with
  | [] => Some ps
  | (k, v) :: kvs' =>
      match Object_set k v ps with
      | Some ps' => assign_all kvs' ps'
      | None => None
      end
  end.

(** A pair of a string-keyed map, as the scanner gives it and as it is
    assigned: the key is the text string at the offsets and is not empty,
    the value is what a leaf callback pushes, and the key [__proto__] does
    not come with [null]. *)
Definition keyed_pair (h : list byte) (kv : Z * Z * event) (r : jsstring * value)
  : Prop :=
  fst r = toString_utf8 (ArrayBuffer_slice h (fst (fst kv)) (snd (fst kv) + 1))
  /\ fst r <> []
  /\ leaf h (snd kv) = Some (snd r)
  /\ (fst r = js "__proto__" -> snd r <> VNull).

(** The state after [pushArrayStartFixed n] at the start of a scan. *)
Definition array_opened (input : list byte) (d : Decoder) (n : nat) : Decoder :=
  mkDecoder (input ++ skipn (List.length input) (_heap d))
            (objects d ++ [HArray [Some (VRef (S (List.length (objects d))))]]
                       ++ [HArray (repeat None n)])
            (List.length (objects d))
            VNull
            [mkParent PARENT_ARRAY (Some (of_int (-1))) None (Some NaN)
                      (List.length (objects d));
             mkParent PARENT_ARRAY None (Some (VNum (of_int (Z.of_nat n)))) None
                      (S (List.length (objects d)))].

(** The state after [pushObjectStartFixed len] at the start of a scan. *)
Definition object_opened (input : list byte) (d : Decoder) (len : Z) : Decoder :=
  mkDecoder (input ++ skipn (List.length input) (_heap d))
            (objects d ++ [HArray [Some (VRef (S (List.length (objects d))))]]
                       ++ [HObject []])
            (List.length (objects d))
            VNull
            [mkParent PARENT_ARRAY (Some (of_int (-1))) None (Some NaN)
                      (List.length (objects d));
             mkParent PARENT_OBJECT None (Some (VNum (of_int len))) None
                      (S (List.length (objects d)))].


(** [obj[k]] read among an object's own properties. *)
Fixpoint own_property (k : jsstring) (ps : list (jsstring * value)) : option value :=
  match ps with
  | [] => None
  | (k', v) :: ps' => if jsstring_eqb k' k then Some v else own_property k ps'
  end.

(** The callbacks of a document made of arrays and of items that are no
    container; an array is opened with a length [new Array] accepts, that
    leaves room for [room] more elements below the 2^32 - 1 an array can
    have. *)
Definition array_item (room : Z) (ev : event) : bool :=
  match ev with
  | EpushArrayStartFixed len => (0 <=? len) && (len + room <? 2 ^ 32)
  | EpushByteString _ _ => true
  | EpushInt64 _ _ _ _ | EpushInt64Neg _ _ _ _
  | EpushArrayStartFixed32 _ _ | EpushArrayStartFixed64 _ _ _ _
  | EpushObjectStartFixed _ | EpushObjectStartFixed32 _ _
  | EpushObjectStartFixed64 _ _ _ _ => false
  | _ => true
  end.

(** A stack of array frames without a count, each over an array of the
    store. *)
Definition array_frame (d : Decoder) (p : parent) : Prop :=
  p_type p = PARENT_ARRAY /\ unknown_length p
  /\ exists es, objects d !! p_ref p = Some (HArray es).

Definition array_stack (d : Decoder) : Prop :=
  _parents d <> [] /\ Forall (array_frame d) (_parents d).

(** ** Tactics for running the builder *)

Ltac run :=
  unfold _currentParent, assign_currentParent, _ref, _closeParent, _depth,
    Array_push, Object_assign, Map_assign, buildMap, alloc, load, store_at,
    set_objects, set_heap, set_res, set_tmpKey, set_parents,
    bind, get, ret, throw, unmodelled in *;
  cbn [_heap objects _res _tmpKey _parents p_type p_len p_left p_length p_ref
       fst snd] in *.

(** Case analysis on the next test a computation of hypothesis [H] makes. *)
Ltac step H :=
  match type of H with
  | context [match ?x with _ => _ end] =>
      lazymatch x with
      | context [match _ with _ => _ end] => fail
      | _ => destruct x eqn:?; try discriminate H
      end
  | context [if ?x then _ else _] =>
      lazymatch x with
      | context [if _ then _ else _] => fail
      | _ => destruct x eqn:?; try discriminate H
      end
  end.

(** * Number arithmetic on integers below 2^53 is exact *)

Section NumberFacts.

Lemma digits2_pos_size (p : positive) : digits2_pos p = Pos.size p.
Proof. induction p; simpl; congruence. Qed.

Lemma digits2_pos_bounds (p : positive) :
  2 ^ (Zpos (digits2_pos p) - 1) <= Zpos p < 2 ^ Zpos (digits2_pos p).
Proof.
  rewrite digits2_pos_size. split.
  - pose proof (Pos.size_le p) as H.
    assert (Hp : (2 ^ Pos.size p <= p~0)%positive) by exact H.
    apply Pos2Z.pos_le_pos in Hp. rewrite Pos2Z.inj_pow in Hp.
    replace (Zpos (Pos.size p)) with (Z.succ (Zpos (Pos.size p) - 1)) in Hp by lia.
    rewrite Z.pow_succ_r in Hp by lia. lia.
  - pose proof (Pos.size_gt p) as H.
    apply Pos2Z.pos_lt_pos in H. now rewrite Pos2Z.inj_pow in H.
Qed.

Lemma digits2_pos_unique (p : positive) (d : Z) :
  2 ^ (d - 1) <= Zpos p < 2 ^ d -> Zpos (digits2_pos p) = d.
Proof.
  intros [Hlo Hhi]. pose proof (digits2_pos_bounds p) as [Blo Bhi].
  assert (0 < d).
  { destruct (Z_lt_le_dec 0 d) as [|Hd]; [assumption|].
    assert (2 ^ d <= 2 ^ 0) by (destruct (Z_lt_le_dec d 0);
      [rewrite Z.pow_neg_r by lia; simpl; lia | apply Z.pow_le_mono_r; lia]).
    simpl in *. lia. }
  destruct (Z_lt_le_dec (Zpos (digits2_pos p)) d) as [Hlt|Hge].
  - assert (2 ^ Zpos (digits2_pos p) <= 2 ^ (d - 1)) by (apply Z.pow_le_mono_r; lia). lia.
  - destruct (Z_lt_le_dec d (Zpos (digits2_pos p))) as [Hlt|Hle]; [|lia].
    assert (2 ^ d <= 2 ^ (Zpos (digits2_pos p) - 1)) by (apply Z.pow_le_mono_r; lia). lia.
Qed.

Lemma digits2_pos_shift (q : positive) (k : Z) :
  0 <= k ->
  Zpos (digits2_pos (Z.to_pos (Zpos q * 2 ^ k))) = Zpos (digits2_pos q) + k.
Proof.
  intros Hk. apply digits2_pos_unique.
  pose proof (digits2_pos_bounds q) as [Blo Bhi].
  assert (0 < 2 ^ k) by (apply Z.pow_pos_nonneg; lia).
  rewrite Z2Pos.id by nia.
  replace (Zpos (digits2_pos q) + k - 1) with ((Zpos (digits2_pos q) - 1) + k) by lia.
  rewrite !Z.pow_add_r by lia. nia.
Qed.

Lemma Pos_iter_xO (m d : positive) :
  Zpos (Pos.iter xO m d) = Zpos m * 2 ^ Zpos d.
Proof.
  rewrite <- (Z.shiftl_mul_pow2 (Zpos m) (Zpos d)) by lia.
  unfold Z.shiftl.
  apply (Pos.iter_swap_gen _ _ Zpos xO (Z.mul 2)). reflexivity.
Qed.

Lemma iter_pos_nat {A} (f : A -> A) (p : positive) (x : A) :
  SpecFloat.iter_pos f p x = Nat.iter (Pos.to_nat p) f x.
Proof.
  revert x. induction p as [p IH|p IH|]; intros x; simpl SpecFloat.iter_pos.
  - rewrite !IH. rewrite Pos2Nat.inj_xI.
    replace (S (2 * Pos.to_nat p))%nat with (Pos.to_nat p + (Pos.to_nat p + 1))%nat by lia.
    rewrite !Nat.iter_add. reflexivity.
  - rewrite !IH. rewrite Pos2Nat.inj_xO.
    replace (2 * Pos.to_nat p)%nat with (Pos.to_nat p + Pos.to_nat p)%nat by lia.
    rewrite Nat.iter_add. reflexivity.
  - reflexivity.
Qed.

(** Shifting out zero bits loses nothing. *)
Lemma shr_1_exact (n : nat) (a : positive) :
  Nat.iter n shr_1 (Build_shr_record (Zpos a * 2 ^ Z.of_nat n) false false)
  = Build_shr_record (Zpos a) false false.
Proof.
  revert a. induction n as [|n IH]; intros a.
  - simpl. f_equal. lia.
  - rewrite Nat.iter_succ_r.
    replace (Zpos a * 2 ^ Z.of_nat (S n)) with (Zpos (xO (Z.to_pos (Zpos a * 2 ^ Z.of_nat n)))).
    + simpl shr_1. rewrite Z2Pos.id.
      * apply IH.
      * assert (0 < 2 ^ Z.of_nat n) by (apply Z.pow_pos_nonneg; lia). nia.
    + rewrite Pos2Z.inj_xO, Z2Pos.id.
      * rewrite Nat2Z.inj_succ, Z.pow_succ_r by lia. ring.
      * assert (0 < 2 ^ Z.of_nat n) by (apply Z.pow_pos_nonneg; lia). nia.
Qed.

Lemma shr_exact (a : positive) (e c : Z) :
  0 <= c ->
  shr (Build_shr_record (Zpos a * 2 ^ c) false false) e c
  = (Build_shr_record (Zpos a) false false, e + c).
Proof.
  intros Hc. destruct c as [|p|p]; [| |lia].
  - simpl. f_equal; [f_equal|]; lia.
  - unfold shr. rewrite iter_pos_nat.
    rewrite <- (positive_nat_Z p) at 1. now rewrite shr_1_exact.
Qed.

(** A mantissa of 53 bits with an exponent in range is kept as it is. *)
Lemma shr_fexp_canonical (m : positive) (t : Z) :
  Zpos (digits2_pos m) = 53 -> -1074 <= t ->
  shr_fexp prec emax (Zpos m) t loc_Exact
  = (Build_shr_record (Zpos m) false false, t).
Proof.
  intros Hd Ht. unfold shr_fexp. simpl Zdigits2. rewrite Hd.
  replace (fexp prec emax (53 + t) - t) with 0
    by (unfold fexp, emin, prec, emax; lia).
  reflexivity.
Qed.

Lemma binary_round_aux_canonical (s : bool) (m : positive) (t : Z) :
  Zpos (digits2_pos m) = 53 -> -1074 <= t <= 971 ->
  binary_round_aux prec emax s (Zpos m) t loc_Exact = S754_finite s m t.
Proof.
  intros Hd Ht. unfold binary_round_aux.
  rewrite shr_fexp_canonical by lia.
  cbn [shr_m loc_of_shr_record round_nearest_even].
  rewrite shr_fexp_canonical by lia.
  cbn [shr_m]. unfold prec, emax.
  destruct (Z.leb_spec t (1024 - 53)); [reflexivity|lia].
Qed.

Lemma shifted_pos (q : positive) (k : Z) :
  0 <= k -> Zpos (Z.to_pos (Zpos q * 2 ^ k)) = Zpos q * 2 ^ k.
Proof.
  intros Hk. apply Z2Pos.id.
  assert (0 < 2 ^ k) by (apply Z.pow_pos_nonneg; lia). nia.
Qed.

Lemma shr_fexp_exact (q : positive) (k e : Z) :
  let d := Zpos (digits2_pos q) in
  0 <= k -> 53 <= d + k -> d <= 53 -> -1074 <= d + k + e - 53 ->
  shr_fexp prec emax (Zpos q * 2 ^ k) e loc_Exact
  = (Build_shr_record (Zpos (Z.to_pos (Zpos q * 2 ^ (53 - d)))) false false,
     d + k + e - 53).
Proof.
  intros d Hk Hc Hd Ht.
  assert (Hm : Zpos q * 2 ^ k
               = Zpos (Z.to_pos (Zpos q * 2 ^ (53 - d))) * 2 ^ (d + k - 53)).
  { rewrite shifted_pos, <- Z.mul_assoc, <- Z.pow_add_r by lia.
    f_equal. f_equal. lia. }
  assert (Hdig : Zdigits2 (Zpos q * 2 ^ k) = d + k).
  { rewrite <- (shifted_pos q k) by lia. simpl.
    now rewrite digits2_pos_shift. }
  unfold shr_fexp. rewrite Hdig.
  replace (fexp prec emax (d + k + e) - e) with (d + k - 53)
    by (unfold fexp, emin, prec, emax; lia).
  unfold shr_record_of_loc. rewrite Hm, shr_exact by lia.
  f_equal. lia.
Qed.

(** Rounding [q·2^k·2^e], where [q] has at most 53 bits, is exact: it
    only moves the binary point. *)
Lemma binary_round_aux_exact (s : bool) (q : positive) (k e : Z) :
  let d := Zpos (digits2_pos q) in
  0 <= k -> 53 <= d + k -> d <= 53 -> -1074 <= d + k + e - 53 <= 971 ->
  binary_round_aux prec emax s (Zpos q * 2 ^ k) e loc_Exact
  = S754_finite s (Z.to_pos (Zpos q * 2 ^ (53 - d))) (d + k + e - 53).
Proof.
  intros d Hk Hc Hd Ht.
  assert (Hda : Zpos (digits2_pos (Z.to_pos (Zpos q * 2 ^ (53 - d)))) = 53).
  { rewrite digits2_pos_shift by lia. fold d. lia. }
  unfold binary_round_aux.
  rewrite shr_fexp_exact by (fold d; lia). fold d.
  cbn [shr_m loc_of_shr_record round_nearest_even].
  rewrite shr_fexp_canonical by lia.
  cbn [shr_m]. unfold prec, emax.
  destruct (Z.leb_spec (d + k + e - 53) (1024 - 53)); [reflexivity|lia].
Qed.

Lemma binary_round_exact (s : bool) (q : positive) (k e : Z) :
  let d := Zpos (digits2_pos q) in
  0 <= k -> d <= 53 -> -1074 <= d + k + e - 53 <= 971 ->
  binary_round prec emax s (Z.to_pos (Zpos q * 2 ^ k)) e
  = S754_finite s (Z.to_pos (Zpos q * 2 ^ (53 - d))) (d + k + e - 53).
Proof.
  intros d Hk Hd Ht. unfold binary_round.
  rewrite digits2_pos_shift by lia. fold d.
  replace (fexp prec emax (d + k + e)) with (d + k + e - 53)
    by (unfold fexp, emin, prec, emax; lia).
  unfold shl_align.
  destruct (d + k + e - 53 - e) as [|c|c] eqn:Hc.
  - rewrite shifted_pos by lia.
    rewrite binary_round_aux_exact by (fold d; lia). reflexivity.
  - rewrite shifted_pos by lia.
    rewrite binary_round_aux_exact by (fold d; lia). reflexivity.
  - assert (Hmz : Pos.iter xO (Z.to_pos (Zpos q * 2 ^ k)) c
                  = Z.to_pos (Zpos q * 2 ^ (53 - d))).
    { apply Pos2Z.inj. rewrite Pos_iter_xO, !shifted_pos by lia.
      rewrite <- Z.mul_assoc, <- Z.pow_add_r by lia. f_equal. f_equal. lia. }
    rewrite Hmz. apply binary_round_aux_canonical; [|lia].
    rewrite digits2_pos_shift by lia. fold d. lia.
Qed.

(** The number of a non-zero integer of at most 53 bits: the integer
    itself, its mantissa moved up to 53 bits. *)
Lemma f_of_int_pos (q : positive) :
  Zpos (digits2_pos q) <= 53 -> f_of_int (Zpos q) = canon false q.
Proof.
  intros Hd. unfold f_of_int, binary_normalize, canon.
  replace q with (Z.to_pos (Zpos q * 2 ^ 0)) at 1 by (simpl; f_equal; lia).
  rewrite binary_round_exact by lia. f_equal; lia.
Qed.

Lemma f_of_int_neg (q : positive) :
  Zpos (digits2_pos q) <= 53 -> f_of_int (Zneg q) = canon true q.
Proof.
  intros Hd. unfold f_of_int, binary_normalize, canon.
  replace q with (Z.to_pos (Zpos q * 2 ^ 0)) at 1 by (simpl; f_equal; lia).
  rewrite binary_round_exact by lia. f_equal; lia.
Qed.

Lemma digits_le_53 (q : positive) : Zpos q < 2 ^ 53 -> Zpos (digits2_pos q) <= 53.
Proof.
  intros Hq. pose proof (digits2_pos_bounds q) as [Blo _].
  destruct (Z_lt_le_dec 53 (Zpos (digits2_pos q))) as [Hlt|]; [|lia].
  assert (2 ^ 53 <= 2 ^ (Zpos (digits2_pos q) - 1)) by (apply Z.pow_le_mono_r; lia).
  lia.
Qed.

Lemma f_of_int_opp (z : Z) : z <> 0 -> f_of_int (- z) = f_neg (f_of_int z).
Proof.
  intros Hz. destruct z as [|q|q]; [lia| |]; unfold f_of_int; simpl;
    unfold binary_round;
    destruct (shl_align _ _ _) as [mz ez];
    unfold binary_round_aux;
    destruct (shr_fexp _ _ _ _ _) as [mrs' e'];
    destruct (shr_fexp _ _ _ _ _) as [mrs'' e''];
    destruct (shr_m mrs''); try reflexivity;
    destruct (e'' <=? emax - prec); reflexivity.
Qed.

(** Rounding depends only on the value: trailing zero bits may sit in the
    mantissa or in the exponent. *)
Lemma binary_round_shift (s : bool) (q : positive) (j K : Z) :
  let d := Zpos (digits2_pos q) in
  d <= 53 -> 0 <= j -> 0 <= K -> d + j - 53 <= 971 ->
  binary_round prec emax s (Z.to_pos (Zpos q * 2 ^ j * 2 ^ K)) (- K)
  = binary_round prec emax s (Z.to_pos (Zpos q * 2 ^ j)) 0.
Proof.
  intros d Hd Hj HK Ht.
  pose proof (Pos2Z.is_pos (digits2_pos q)).
  rewrite <- Z.mul_assoc, <- Z.pow_add_r by lia.
  rewrite !binary_round_exact by (fold d; lia).
  f_equal. lia.
Qed.

Lemma binary_normalize_shift (z K : Z) :
  Z.abs z <= 2 ^ 53 -> 0 <= K ->
  binary_normalize prec emax (z * 2 ^ K) (- K) false = f_of_int z.
Proof.
  intros Hz HK.
  assert (HpK : 0 < 2 ^ K) by (apply Z.pow_pos_nonneg; lia).
  assert (Hshape : forall (s : bool) (q : positive), Zpos q <= 2 ^ 53 ->
            binary_round prec emax s (Z.to_pos (Zpos q * 2 ^ K)) (- K)
            = binary_round prec emax s q 0).
  { intros s q Hq. destruct (Z.eq_dec (Zpos q) (2 ^ 53)) as [E|E].
    - replace (Zpos q * 2 ^ K) with (Zpos 1 * 2 ^ 53 * 2 ^ K) by (rewrite E; lia).
      rewrite (binary_round_shift s 1 53 K) by (simpl; lia).
      f_equal. apply Pos2Z.inj. rewrite shifted_pos by lia. lia.
    - replace (Zpos q * 2 ^ K) with (Zpos q * 2 ^ 0 * 2 ^ K) by (simpl; lia).
      pose proof (digits_le_53 q ltac:(lia)).
      rewrite (binary_round_shift s q 0 K) by lia.
      f_equal. simpl. lia. }
  unfold f_of_int. destruct z as [|q|q]; simpl Z.mul.
  - reflexivity.
  - unfold binary_normalize.
    destruct (Zpos q * 2 ^ K) as [|p|p] eqn:E; try lia.
    replace p with (Z.to_pos (Zpos q * 2 ^ K)) by (rewrite E; reflexivity).
    apply Hshape. lia.
  - unfold binary_normalize.
    destruct (Zneg q * 2 ^ K) as [|p|p] eqn:E; try lia.
    replace p with (Z.to_pos (Zpos q * 2 ^ K)) by (f_equal; lia).
    apply Hshape. lia.
Qed.

Lemma f_of_int_canon (z : Z) :
  z <> 0 -> Z.abs z < 2 ^ 53 -> f_of_int z = canon (z <? 0) (Z.to_pos (Z.abs z)).
Proof.
  intros Hz Hb. destruct z as [|q|q]; [lia| |]; simpl.
  - apply f_of_int_pos, digits_le_53. lia.
  - apply f_of_int_neg, digits_le_53. lia.
Qed.

Lemma shl_align_fst (m : positive) (e e' : Z) :
  e' <= e -> Zpos (fst (shl_align m e e')) = Zpos m * 2 ^ (e - e').
Proof.
  intros He. unfold shl_align. destruct (e' - e) as [|c|c] eqn:Hc; simpl fst.
  - replace (e - e') with 0 by lia. simpl. lia.
  - lia.
  - rewrite Pos_iter_xO. f_equal. f_equal. lia.
Qed.

(** The aligned, signed mantissa of a canonical number is the integer
    scaled by the common exponent. *)
Lemma canon_aligned (z ez : Z) :
  z <> 0 -> Z.abs z < 2 ^ 53 ->
  let q := Z.to_pos (Z.abs z) in
  let e := Zpos (digits2_pos q) - 53 in
  ez <= e ->
  cond_Zopp (z <? 0)
    (Zpos (fst (shl_align (Z.to_pos (Zpos q * 2 ^ (53 - Zpos (digits2_pos q)))) e ez)))
  = z * 2 ^ (- ez).
Proof.
  intros Hz Hb q e He.
  assert (Hd : Zpos (digits2_pos q) <= 53) by (apply digits_le_53; unfold q; lia).
  rewrite shl_align_fst by lia. rewrite shifted_pos by lia.
  rewrite <- Z.mul_assoc, <- Z.pow_add_r by (unfold e; lia).
  replace (53 - Zpos (digits2_pos q) + (e - ez)) with (- ez) by (unfold e; lia).
  assert (Hq : Zpos q = Z.abs z) by (unfold q; rewrite Z2Pos.id; lia).
  rewrite Hq. unfold cond_Zopp. destruct (Z.ltb_spec z 0); lia.
Qed.

Lemma f_of_int_add (a b : Z) :
  Z.abs a < 2 ^ 53 -> Z.abs b < 2 ^ 53 -> Z.abs (a + b) <= 2 ^ 53 ->
  f_add (f_of_int a) (f_of_int b) = f_of_int (a + b).
Proof.
  intros Ha Hb Hab.
  destruct (Z.eq_dec a 0) as [->|Ha0].
  { rewrite Z.add_0_l. destruct (Z.eq_dec b 0) as [->|Hb0]; [reflexivity|].
    rewrite (f_of_int_canon b) by assumption. reflexivity. }
  destruct (Z.eq_dec b 0) as [->|Hb0].
  { rewrite Z.add_0_r. rewrite (f_of_int_canon a) by assumption. reflexivity. }
  rewrite (f_of_int_canon a), (f_of_int_canon b) by assumption.
  unfold f_add, canon, SFadd. cbv zeta.
  assert (Zpos (digits2_pos (Z.to_pos (Z.abs a))) <= 53)
    by (apply digits_le_53; rewrite Z2Pos.id; lia).
  rewrite (canon_aligned a), (canon_aligned b) by (try assumption; lia).
  rewrite <- Z.mul_add_distr_r.
  match goal with
  | |- binary_normalize _ _ (_ * 2 ^ (- ?ez)) _ _ = _ =>
      replace ez with (- - ez) at 2 by lia
  end.
  apply binary_normalize_shift; [assumption|lia].
Qed.

Lemma f_of_int_sub (a b : Z) :
  Z.abs a < 2 ^ 53 -> Z.abs b < 2 ^ 53 -> Z.abs (a - b) <= 2 ^ 53 ->
  f_sub (f_of_int a) (f_of_int b) = f_of_int (a - b).
Proof.
  intros Ha Hb Hab.
  destruct (Z.eq_dec b 0) as [->|Hb0].
  { rewrite Z.sub_0_r. destruct (Z.eq_dec a 0) as [->|Ha0]; [reflexivity|].
    rewrite (f_of_int_canon a) by assumption. reflexivity. }
  destruct (Z.eq_dec a 0) as [->|Ha0].
  { rewrite Z.sub_0_l. rewrite f_of_int_opp by assumption.
    rewrite (f_of_int_canon b) by assumption. reflexivity. }
  rewrite (f_of_int_canon a), (f_of_int_canon b) by assumption.
  unfold f_sub, canon, SFsub. cbv zeta.
  assert (Zpos (digits2_pos (Z.to_pos (Z.abs a))) <= 53)
    by (apply digits_le_53; rewrite Z2Pos.id; lia).
  rewrite (canon_aligned a), (canon_aligned b) by (try assumption; lia).
  rewrite <- Z.mul_sub_distr_r.
  match goal with
  | |- binary_normalize _ _ (_ * 2 ^ (- ?ez)) _ _ = _ =>
      replace ez with (- - ez) at 2 by lia
  end.
  apply binary_normalize_shift; [assumption|lia].
Qed.

Lemma pow2_lt_inv (x y n : Z) : 0 <= y -> 2 ^ x <= n < 2 ^ y -> x < y.
Proof.
  intros Hy [Hlo Hhi]. destruct (Z_lt_le_dec x y) as [|Hle]; [assumption|].
  assert (2 ^ y <= 2 ^ x) by (apply Z.pow_le_mono_r; lia). lia.
Qed.

Lemma f_of_int_mul (a b : Z) :
  0 <= a < 2 ^ 53 -> 0 <= b < 2 ^ 53 -> a * b < 2 ^ 53 ->
  f_mul (f_of_int a) (f_of_int b) = f_of_int (a * b).
Proof.
  intros Ha Hb Hab.
  destruct (Z.eq_dec a 0) as [->|Ha0].
  { rewrite Z.mul_0_l. destruct (Z.eq_dec b 0) as [->|Hb0]; [reflexivity|].
    rewrite (f_of_int_canon b) by lia.
    destruct (Z.ltb_spec b 0); [lia|reflexivity]. }
  destruct (Z.eq_dec b 0) as [->|Hb0].
  { rewrite Z.mul_0_r. rewrite (f_of_int_canon a) by lia.
    destruct (Z.ltb_spec a 0); [lia|reflexivity]. }
  rewrite (f_of_int_canon a), (f_of_int_canon b), (f_of_int_canon (a * b)) by nia.
  destruct (Z.ltb_spec a 0); [lia|]. destruct (Z.ltb_spec b 0); [lia|].
  destruct (Z.ltb_spec (a * b) 0); [nia|].
  rewrite !Z.abs_eq by nia.
  set (qa := Z.to_pos a). set (qb := Z.to_pos b). set (q := Z.to_pos (a * b)).
  assert (Hqa : Zpos qa = a) by (unfold qa; rewrite Z2Pos.id; lia).
  assert (Hqb : Zpos qb = b) by (unfold qb; rewrite Z2Pos.id; lia).
  assert (Hq : Zpos q = a * b) by (unfold q; rewrite Z2Pos.id; nia).
  pose proof (digits2_pos_bounds qa) as [Alo Ahi].
  pose proof (digits2_pos_bounds qb) as [Blo Bhi].
  pose proof (digits2_pos_bounds q) as [Qlo Qhi].
  pose proof (digits_le_53 qa ltac:(lia)) as Hda.
  pose proof (digits_le_53 qb ltac:(lia)) as Hdb.
  pose proof (digits_le_53 q ltac:(lia)) as Hdq.
  set (da := Zpos (digits2_pos qa)) in *.
  set (db := Zpos (digits2_pos qb)) in *.
  set (dq := Zpos (digits2_pos q)) in *.
  assert (0 < da) by (unfold da; lia). assert (0 < db) by (unfold db; lia).
  assert (0 < dq) by (unfold dq; lia).
  assert (Hdig : da + db - 2 < dq).
  { apply (pow2_lt_inv _ _ (a * b)); [lia|]. split; [|lia].
    replace (da + db - 2) with ((da - 1) + (db - 1)) by lia.
    rewrite Z.pow_add_r by lia.
    rewrite <- Hqa, <- Hqb. apply Z.mul_le_mono_nonneg; try lia;
      apply Z.pow_nonneg; lia. }
  unfold f_mul, canon, SFmul. fold da db dq. simpl xorb.
  rewrite Pos2Z.inj_mul, !shifted_pos by lia.
  replace (Zpos qa * 2 ^ (53 - da) * (Zpos qb * 2 ^ (53 - db)))
    with (Zpos q * 2 ^ (106 - da - db)).
  2:{ rewrite Hq, <- Hqa, <- Hqb.
      replace (106 - da - db) with ((53 - da) + (53 - db)) by lia.
      rewrite Z.pow_add_r by lia. ring. }
  rewrite binary_round_aux_exact by (fold dq; lia).
  fold dq. f_equal. lia.
Qed.

Lemma f_of_int_lt (a b : Z) :
  0 <= a < 2 ^ 53 -> 0 <= b < 2 ^ 53 ->
  f_lt (f_of_int a) (f_of_int b) = (a <? b).
Proof.
  intros Ha Hb.
  destruct (Z.eq_dec a 0) as [->|Ha0]; destruct (Z.eq_dec b 0) as [->|Hb0].
  - reflexivity.
  - rewrite (f_of_int_canon b) by lia.
    destruct (Z.ltb_spec b 0); [lia|]. destruct (Z.ltb_spec 0 b); [reflexivity|lia].
  - rewrite (f_of_int_canon a) by lia.
    destruct (Z.ltb_spec a 0); [lia|]. destruct (Z.ltb_spec a 0); [lia|reflexivity].
  - rewrite (f_of_int_canon a), (f_of_int_canon b) by lia.
    destruct (Z.ltb_spec a 0); [lia|]. destruct (Z.ltb_spec b 0); [lia|].
    rewrite !Z.abs_eq by lia.
    set (qa := Z.to_pos a). set (qb := Z.to_pos b).
    assert (Hqa : Zpos qa = a) by (unfold qa; rewrite Z2Pos.id; lia).
    assert (Hqb : Zpos qb = b) by (unfold qb; rewrite Z2Pos.id; lia).
    pose proof (digits2_pos_bounds qa) as [Alo Ahi].
    pose proof (digits2_pos_bounds qb) as [Blo Bhi].
    pose proof (digits_le_53 qa ltac:(lia)) as Hda.
    pose proof (digits_le_53 qb ltac:(lia)) as Hdb.
    unfold f_lt, SFltb, canon, SFcompare.
    set (da := Zpos (digits2_pos qa)) in *.
    set (db := Zpos (digits2_pos qb)) in *.
    assert (0 < da) by (unfold da; lia). assert (0 < db) by (unfold db; lia).
    destruct (Z.compare_spec (da - 53) (db - 53)) as [E|L|G].
    + change (Pos.compare_cont Eq ?x ?y) with (Pos.compare x y).
      rewrite Pos2Z.inj_compare, !shifted_pos by lia.
      replace db with da by lia.
      assert (0 < 2 ^ (53 - da)) by (apply Z.pow_pos_nonneg; lia).
      destruct (Z.compare_spec (Zpos qa * 2 ^ (53 - da)) (Zpos qb * 2 ^ (53 - da)));
        destruct (Z.ltb_spec a b); try reflexivity; nia.
    + assert (2 ^ da <= 2 ^ (db - 1)) by (apply Z.pow_le_mono_r; lia).
      destruct (Z.ltb_spec a b); [reflexivity|lia].
    + assert (2 ^ db <= 2 ^ (da - 1)) by (apply Z.pow_le_mono_r; lia).
      destruct (Z.ltb_spec a b); [lia|reflexivity].
Qed.

Lemma f_to_int_of_int (z : Z) : Z.abs z <= 2 ^ 53 -> f_to_int (f_of_int z) = z.
Proof.
  intros Hz'. destruct (Z.eq_dec z (2 ^ 53)) as [->|Hhi]; [reflexivity|].
  destruct (Z.eq_dec z (- 2 ^ 53)) as [->|Hlo]; [reflexivity|].
  assert (Hz : Z.abs z < 2 ^ 53) by lia. clear Hz' Hhi Hlo.
  destruct (Z.eq_dec z 0) as [->|Hz0]; [reflexivity|].
  rewrite f_of_int_canon by assumption.
  set (q := Z.to_pos (Z.abs z)).
  assert (Hq : Zpos q = Z.abs z) by (unfold q; rewrite Z2Pos.id; lia).
  pose proof (digits_le_53 q ltac:(lia)) as Hd.
  unfold canon, f_to_int. rewrite shifted_pos by lia.
  set (d := Zpos (digits2_pos q)) in *.
  assert (Hmag : match d - 53 with
                 | Zneg k => Z.shiftr (Zpos q * 2 ^ (53 - d)) (Zpos k)
                 | _ => Z.shiftl (Zpos q * 2 ^ (53 - d)) (d - 53)
                 end = Z.abs z).
  { destruct (d - 53) as [|k|k] eqn:E; [|lia|].
    - replace (53 - d) with 0 by lia. rewrite Z.shiftl_0_r. simpl. lia.
    - rewrite Z.shiftr_div_pow2 by lia.
      replace (53 - d) with (Zpos k) by lia.
      rewrite Z.div_mul; [lia|]. apply Z.pow_nonzero; lia. }
  rewrite Hmag. destruct (Z.ltb_spec z 0); lia.
Qed.

(** ** The same facts on numbers *)

Lemma f_of_int_not_nan (z : Z) : Z.abs z <= 2 ^ 53 -> f_of_int z <> S754_nan.
Proof.
  intros Hz'. destruct (Z.eq_dec z (2 ^ 53)) as [->|Hhi]; [discriminate|].
  destruct (Z.eq_dec z (- 2 ^ 53)) as [->|Hlo]; [discriminate|].
  destruct (Z.eq_dec z 0) as [->|Hz0]; [discriminate|].
  rewrite f_of_int_canon by lia. discriminate.
Qed.

Lemma to_float_of_float (x : spec_float) : to_float (of_float x) = x.
Proof. destruct x; reflexivity. Qed.

Lemma arith2_of_float f (x y : spec_float) :
  x <> S754_nan -> y <> S754_nan ->
  arith2 f (of_float x) (of_float y) = of_float (f x y).
Proof.
  intros Hx Hy. destruct x, y; try contradiction; reflexivity.
Qed.

Lemma of_int_add (a b : Z) :
  Z.abs a < 2 ^ 53 -> Z.abs b < 2 ^ 53 -> Z.abs (a + b) <= 2 ^ 53 ->
  num_add (of_int a) (of_int b) = of_int (a + b).
Proof.
  intros Ha Hb Hab. unfold num_add, of_int.
  rewrite arith2_of_float by (apply f_of_int_not_nan; lia).
  rewrite f_of_int_add by assumption. reflexivity.
Qed.

Lemma of_int_sub (a b : Z) :
  Z.abs a < 2 ^ 53 -> Z.abs b < 2 ^ 53 -> Z.abs (a - b) <= 2 ^ 53 ->
  num_sub (of_int a) (of_int b) = of_int (a - b).
Proof.
  intros Ha Hb Hab. unfold num_sub, of_int.
  rewrite arith2_of_float by (apply f_of_int_not_nan; lia).
  rewrite f_of_int_sub by assumption. reflexivity.
Qed.

Lemma of_int_mul (a b : Z) :
  0 <= a < 2 ^ 53 -> 0 <= b < 2 ^ 53 -> a * b < 2 ^ 53 ->
  num_mul (of_int a) (of_int b) = of_int (a * b).
Proof.
  intros Ha Hb Hab. unfold num_mul, of_int.
  rewrite arith2_of_float by (apply f_of_int_not_nan; lia).
  rewrite f_of_int_mul by assumption. reflexivity.
Qed.

Lemma of_int_lt (a b : Z) :
  0 <= a < 2 ^ 53 -> 0 <= b < 2 ^ 53 ->
  num_lt (of_int a) (of_int b) = (a <? b).
Proof.
  intros Ha Hb. unfold num_lt, of_int. rewrite !to_float_of_float.
  apply f_of_int_lt; assumption.
Qed.

Lemma to_int_of_int (z : Z) : Z.abs z <= 2 ^ 53 -> to_int (of_int z) = z.
Proof.
  intros Hz. unfold to_int, of_int. rewrite to_float_of_float.
  apply f_to_int_of_int. exact Hz.
Qed.

End NumberFacts.

(** * The tree builder *)

Section BuilderFacts.

Implicit Types (d : Decoder) (p : parent) (val : value).

Lemma num_of_unknown p :
  unknown_length p ->
  num_lt (ToNumber (p_length p)) (of_int 0) = false
  /\ num_sub (ToNumber (p_length p)) (of_int 1) = NaN.
Proof. intros [-> | ->]; split; reflexivity. Qed.

(** [_dec] on a frame without a count: the count becomes [NaN] and the
    frame stays. *)
Lemma _dec_unknown d p :
  _parents d !! (List.length (_parents d) - 1)%nat = Some p ->
  unknown_length p ->
  _dec d = Ok (tt, mkDecoder (_heap d) (objects d) (_res d) (_tmpKey d)
                 (<[(List.length (_parents d) - 1)%nat :=
                      mkParent (p_type p) (p_len p) (p_left p) (Some NaN) (p_ref p)]>
                    (_parents d))).
Proof.
  intros Hp Hu. destruct (num_of_unknown p Hu) as [Hlt Hsub].
  unfold _dec. run. rewrite Hp. run. rewrite Hlt, Hsub. reflexivity.
Qed.

(** A push into an array frame appends to the array. *)
Lemma _push_array d p es val :
  current d p -> p_type p = PARENT_ARRAY -> unknown_length p ->
  objects d !! p_ref p = Some (HArray es) ->
  _push val d
  = Ok (tt, mkDecoder (_heap d)
              (<[p_ref p := HArray (es ++ [Some val])]> (objects d))
              (_res d) (_tmpKey d)
              (<[(List.length (_parents d) - 1)%nat := counted p]> (_parents d))).
Proof.
  intros Hp Ht Hu Ho. unfold current in Hp. unfold _push. run.
  rewrite Hp. run. rewrite Ht. cbn [Z.eqb Pos.eqb PARENT_ARRAY PARENT_OBJECT PARENT_MAP PARENT_TAG]. rewrite Hp. run.
  rewrite Ho. run.
  match goal with |- _dec ?d1 = _ => rewrite (_dec_unknown d1 p Hp Hu) end.
  reflexivity.
Qed.

(** With no truthy key pending, a push into an object frame keeps a string
    as the pending key. *)
Lemma _push_key_object d p val :
  current d p -> p_type p = PARENT_OBJECT -> ToBoolean (_tmpKey d) = false ->
  is_string val = true ->
  _push val d = Ok (tt, with_tmpKey d val).
Proof.
  intros Hp Ht Hk Hs. unfold current in Hp. unfold _push. run.
  rewrite Hp. run. rewrite Ht. cbn [Z.eqb Pos.eqb PARENT_ARRAY PARENT_OBJECT PARENT_MAP PARENT_TAG].
  rewrite Hk, Hs. reflexivity.
Qed.

(** ... and a value that is not a string becomes the pending key of the
    frame turned into a map frame, over a new map holding the object's
    entries. *)
Lemma _push_key_promote d p ps val :
  current d p -> p_type p = PARENT_OBJECT -> ToBoolean (_tmpKey d) = false ->
  is_string val = false ->
  objects d !! p_ref p = Some (HObject ps) ->
  _push val d
  = Ok (tt, mkDecoder (_heap d)
              (objects d ++ [HMap (map (fun kv => (VStr (fst kv), snd kv)) ps)])
              (_res d) val
              (<[(List.length (_parents d) - 1)%nat :=
                   mkParent PARENT_MAP (p_len p) (p_left p) (p_length p)
                            (List.length (objects d))]> (_parents d))).
Proof.
  intros Hp Ht Hk Hs Ho. unfold current in Hp. unfold _push. run.
  rewrite Hp. run. rewrite Ht. cbn [Z.eqb Pos.eqb PARENT_ARRAY PARENT_OBJECT PARENT_MAP PARENT_TAG].
  rewrite Hk, Hs. cbn [negb]. run. rewrite Ho. reflexivity.
Qed.

Lemma _push_key_map d p val :
  current d p -> p_type p = PARENT_MAP -> ToBoolean (_tmpKey d) = false ->
  _push val d = Ok (tt, with_tmpKey d val).
Proof.
  intros Hp Ht Hk. unfold current in Hp. unfold _push. run.
  rewrite Hp. run. rewrite Ht. cbn [Z.eqb Pos.eqb PARENT_ARRAY PARENT_OBJECT PARENT_MAP PARENT_TAG].
  rewrite Hk. reflexivity.
Qed.

(** With a truthy key pending, the push stores the pair under that key. *)
Lemma _push_value_object d p ps ps' k val :
  current d p -> p_type p = PARENT_OBJECT -> unknown_length p ->
  _tmpKey d = VStr k -> ToBoolean (VStr k) = true ->
  objects d !! p_ref p = Some (HObject ps) ->
  Object_set k val ps = Some ps' ->
  _push val d
  = Ok (tt, mkDecoder (_heap d)
              (<[p_ref p := HObject ps']> (objects d))
              (_res d) VNull
              (<[(List.length (_parents d) - 1)%nat := counted p]> (_parents d))).
Proof.
  intros Hp Ht Hu Hk Hb Ho Hset. unfold current in Hp. unfold _push. run.
  rewrite Hp. run. rewrite Ht. cbn [Z.eqb Pos.eqb PARENT_ARRAY PARENT_OBJECT PARENT_MAP PARENT_TAG].
  rewrite Hk, Hb, Hp. run. rewrite Ho. run. rewrite Hset. run.
  match goal with |- _dec ?d1 = _ => rewrite (_dec_unknown d1 p Hp Hu) end.
  reflexivity.
Qed.

Lemma _push_value_map d p es val :
  current d p -> p_type p = PARENT_MAP -> unknown_length p ->
  ToBoolean (_tmpKey d) = true ->
  objects d !! p_ref p = Some (HMap es) ->
  _push val d
  = Ok (tt, mkDecoder (_heap d)
              (<[p_ref p := HMap (Map_set (_tmpKey d) val es)]> (objects d))
              (_res d) VNull
              (<[(List.length (_parents d) - 1)%nat := counted p]> (_parents d))).
Proof.
  intros Hp Ht Hu Hb Ho. unfold current in Hp. unfold _push. run.
  rewrite Hp. run. rewrite Ht. cbn [Z.eqb Pos.eqb PARENT_ARRAY PARENT_OBJECT PARENT_MAP PARENT_TAG].
  rewrite Hb, Hp. run. rewrite Ho. run.
  match goal with |- _dec ?d1 = _ => rewrite (_dec_unknown d1 p Hp Hu) end.
  reflexivity.
Qed.

(** ** Frames are never removed

    [_createParent] records the declared count under [left] and [_reset]
    under [len]; [_dec] reads [length].  So every frame has an unknown
    [length], and no push closes a frame. *)

Lemma unknown_counted p : unknown_length (counted p).
Proof. right. reflexivity. Qed.

Lemma _dec_frames d d' :
  Forall unknown_length (_parents d) ->
  _dec d = Ok (tt, d') ->
  List.length (_parents d') = List.length (_parents d)
  /\ Forall unknown_length (_parents d').
Proof.
  intros HF H.
  destruct (_parents d !! (List.length (_parents d) - 1)%nat) as [p|] eqn:Hp.
  - assert (Hu : unknown_length p) by (eapply Forall_lookup_1; eassumption).
    rewrite (_dec_unknown d p Hp Hu) in H. injection H as <-.
    cbn [_parents]. split.
    + apply length_insert.
    + apply Forall_insert; [assumption|apply unknown_counted].
  - unfold _dec in H. run. rewrite Hp in H. discriminate.
Qed.

Lemma _push_frames d val d' :
  Forall unknown_length (_parents d) ->
  _push val d = Ok (tt, d') ->
  List.length (_parents d') = List.length (_parents d)
  /\ Forall unknown_length (_parents d').
Proof.
  intros HF H. unfold _push in H. run.
  destruct (_parents d !! (List.length (_parents d) - 1)%nat) as [p|] eqn:Hp;
    [|discriminate H].
  assert (Hu : unknown_length p) by (eapply Forall_lookup_1; eassumption).
  run. rewrite ?Hp in H. run.
  repeat (step H; run; rewrite ?Hp in H; run);
    try (apply _dec_frames in H; [exact H|exact HF]);
    injection H as <-; cbn [_parents]; try (split; [reflexivity|assumption]).
  split; [apply length_insert|].
  apply Forall_insert; [assumption|]. exact Hu.
Qed.

Lemma _createParent_frames d obj type len d' :
  Forall unknown_length (_parents d) ->
  _createParent obj type len d = Ok (tt, d') ->
  List.length (_parents d') = S (List.length (_parents d))
  /\ Forall unknown_length (_parents d').
Proof.
  intros HF H. unfold _createParent in H. unfold bind at 1 in H.
  destruct (_push (VRef obj) d) as [[[] d1]| |] eqn:Hpush; try discriminate H.
  apply _push_frames in Hpush; [|assumption]. destruct Hpush as [Hlen HF1].
  run. injection H as <-. cbn [_parents]. split.
  - rewrite length_app. cbn. lia.
  - apply Forall_app. split; [assumption|].
    constructor; [|constructor]. left. reflexivity.
Qed.

Lemma callback_frames ev d d' :
  Forall unknown_length (_parents d) ->
  callback ev d = Ok (tt, d') ->
  List.length (_parents d')
  = (List.length (_parents d) + if opens ev then 1 else 0)%nat
  /\ Forall unknown_length (_parents d').
Proof.
  intros HF H.
  assert (Hleaf : forall val d0, _parents d0 = _parents d ->
            _push val d0 = Ok (tt, d') ->
            List.length (_parents d') = (List.length (_parents d) + 0)%nat
            /\ Forall unknown_length (_parents d')).
  { intros val d0 E Hpush. apply _push_frames in Hpush; rewrite E in *;
      [|assumption]. rewrite Nat.add_0_r. exact Hpush. }
  assert (Hopen : forall obj type len d0, _parents d0 = _parents d ->
            _createParent obj type len d0 = Ok (tt, d') ->
            List.length (_parents d') = (List.length (_parents d) + 1)%nat
            /\ Forall unknown_length (_parents d')).
  { intros obj type len d0 E Hc. apply _createParent_frames in Hc; rewrite E in *;
      [|assumption]. rewrite Nat.add_1_r. exact Hc. }
  destruct ev; cbn [callback opens] in *;
    unfold pushInt, pushInt32, pushInt32Neg, pushInt64, pushInt64Neg, pushFloat,
      pushFloatSingle, pushFloatDouble, pushTrue, pushFalse, pushUndefined,
      pushNull, pushInfinity, pushInfinityNeg, pushNaN, pushNaNNeg,
      pushArrayStartFixed, pushArrayStartFixed32, pushArrayStartFixed64,
      pushObjectStartFixed, pushObjectStartFixed32, pushObjectStartFixed64,
      pushByteString, pushUtf8String, _createArrayStartFixed,
      _createObjectStartFixed, buildInt64, new_Array in H;
    run; repeat (step H; run);
    first [ eapply Hleaf; [|exact H]; reflexivity
          | eapply Hopen; [|exact H]; reflexivity ].
Qed.

Lemma callbacks_frames evs d d' :
  Forall unknown_length (_parents d) ->
  callbacks evs d = Ok (tt, d') ->
  List.length (_parents d')
  = (List.length (_parents d) + List.length (List.filter opens evs))%nat
  /\ Forall unknown_length (_parents d').
Proof.
  revert d. induction evs as [|ev evs IH]; intros d HF H.
  - injection H as <-. cbn. split; [lia|assumption].
  - cbn [callbacks] in H. unfold bind in H.
    destruct (callback ev d) as [[[] d1]| |] eqn:Hev; try discriminate H.
    apply callback_frames in Hev; [|assumption]. destruct Hev as [L1 F1].
    apply IH in H; [|assumption]. destruct H as [L2 F2].
    split; [|assumption]. rewrite L2, L1.
    cbn [List.filter]. destruct (opens ev); cbn [List.length]; lia.
Qed.

(** ** A decode call *)

Lemma decode_too_long parser input d :
  (List.length (_heap d) < List.length input)%nat ->
  _decode parser input d = Throw RangeError.
Proof.
  intros Hlong. unfold _decode, _reset, Uint8Array_set. run.
  destruct (Nat.ltb_spec (List.length (_heap d)) (List.length input)); [|lia].
  reflexivity.
Qed.

(** A decode call is the callbacks the scanner makes from the starting
    state, then the test of its status code. *)
Lemma _decode_run parser input d evs code :
  (List.length input <= List.length (_heap d))%nat ->
  parser (_heap (started input d)) (Z.of_nat (List.length input)) = (evs, code) ->
  _decode parser input d
  = match callbacks evs (started input d) with
    | Ok (_, d1) =>
        if 0 <? code then Throw (Error "Failed to parse") else Ok (tt, d1)
    | Throw e => Throw e
    | Unmodelled => Unmodelled
    end.
Proof.
  intros Hfit Hscan. unfold _decode, _reset, Uint8Array_set. run.
  destruct (Nat.ltb_spec (List.length (_heap d)) (List.length input)); [lia|].
  cbn [started _heap] in Hscan. run. rewrite Hscan.
  unfold started.
  destruct (callbacks evs _) as [[[] d1]| |]; try reflexivity.
  destruct (0 <? code); reflexivity.
Qed.

End BuilderFacts.

(** * Decode calls *)

Section DecodeFacts.

Implicit Types (d : Decoder) (p : parent) (val : value).

Lemma bind_raises {A B} (m : M A) (k : A -> M B) d e :
  m d = Throw e -> bind m k d = Throw e.
Proof. unfold bind. intros ->. reflexivity. Qed.

Lemma bind_returns_not {A B} (m : M A) (k : A -> M B) d :
  (forall r, m d <> Ok r) -> forall r, bind m k d <> Ok r.
Proof.
  unfold bind. intros H r. destruct (m d) as [[a d1]| |]; try discriminate.
  exfalso. exact (H (a, d1) eq_refl).
Qed.

Lemma started_frames input d : Forall unknown_length (_parents (started input d)).
Proof. constructor; [left; reflexivity|constructor]. Qed.

(** No decode call ever removes a frame: the stack it leaves has the root
    and one frame for each container the scanner opened. *)
Lemma decode_never_closes parser input d evs code d' :
  (List.length input <= List.length (_heap d))%nat ->
  parser (_heap (started input d)) (Z.of_nat (List.length input)) = (evs, code) ->
  _decode parser input d = Ok (tt, d') ->
  List.length (_parents d') = S (List.length (List.filter opens evs)).
Proof.
  intros Hfit Hscan H. rewrite (_decode_run parser input d evs code Hfit Hscan) in H.
  destruct (callbacks evs (started input d)) as [[[] d1]| |] eqn:Hcb;
    try discriminate H.
  destruct (0 <? code); [discriminate H|]. injection H as <-.
  apply callbacks_frames in Hcb; [|apply started_frames].
  destruct Hcb as [L _]. rewrite L. reflexivity.
Qed.

(** ** The result sequence stays where it is *)

Lemma keeps_arrays_refl d : keeps_arrays d d.
Proof. split; [reflexivity|]. intros a es H. now exists es. Qed.

Lemma keeps_arrays_trans d1 d2 d3 :
  keeps_arrays d1 d2 -> keeps_arrays d2 d3 -> keeps_arrays d1 d3.
Proof.
  intros [R1 A1] [R2 A2]. split; [congruence|].
  intros a es H. destruct (A1 a es H) as [es' H']. exact (A2 a es' H').
Qed.

Lemma keeps_arrays_alloc d h k ps os :
  keeps_arrays d (mkDecoder h (objects d ++ os) (_res d) k ps).
Proof.
  split; [reflexivity|]. intros a es H. exists es. cbn [objects].
  rewrite lookup_app_l by (eapply lookup_lt_Some; eassumption). exact H.
Qed.

Lemma keeps_arrays_update d h k ps r o o' :
  objects d !! r = Some o ->
  (forall es, o = HArray es -> exists es', o' = HArray es') ->
  keeps_arrays d (mkDecoder h (<[r := o']> (objects d)) (_res d) k ps).
Proof.
  intros Hr Hkind. split; [reflexivity|]. intros a es H. cbn [objects].
  destruct (Nat.eq_dec a r) as [->|Hne].
  - rewrite Hr in H. injection H as ->. destruct (Hkind es eq_refl) as [es' ->].
    exists es'. apply list_lookup_insert_eq. eapply lookup_lt_Some; eassumption.
  - exists es. rewrite list_lookup_insert_ne by congruence. exact H.
Qed.

Lemma keeps_arrays_frames d h k ps :
  keeps_arrays d (mkDecoder h (objects d) (_res d) k ps).
Proof. split; [reflexivity|]. intros a es H. now exists es. Qed.

Lemma _dec_keeps_arrays d d' : _dec d = Ok (tt, d') -> keeps_arrays d d'.
Proof.
  intros H. unfold _dec in H. run.
  repeat (step H; run); injection H as <-;
    first [apply keeps_arrays_refl | apply keeps_arrays_frames].
Qed.

Lemma _push_keeps_arrays d val d' : _push val d = Ok (tt, d') -> keeps_arrays d d'.
Proof.
  intros H. unfold _push in H. run.
  destruct (_parents d !! (List.length (_parents d) - 1)%nat) as [p|] eqn:Hp;
    [|discriminate H].
  run. rewrite ?Hp in H. run.
  repeat (step H; run; rewrite ?Hp in H; run);
    try (apply _dec_keeps_arrays in H;
         refine (keeps_arrays_trans _ _ _ _ H);
         eapply keeps_arrays_update; [eassumption|];
         intros es0 E; first [discriminate E | eexists; reflexivity]);
    injection H as <-;
    first [ apply keeps_arrays_refl
          | apply keeps_arrays_frames
          | apply keeps_arrays_alloc ].
Qed.

Lemma _createParent_keeps_arrays d obj type len d' :
  _createParent obj type len d = Ok (tt, d') -> keeps_arrays d d'.
Proof.
  intros H. unfold _createParent in H. unfold bind at 1 in H.
  destruct (_push (VRef obj) d) as [[[] d1]| |] eqn:Hpush; try discriminate H.
  apply _push_keeps_arrays in Hpush. run. injection H as <-.
  refine (keeps_arrays_trans _ _ _ Hpush _). apply keeps_arrays_frames.
Qed.

Lemma callback_keeps_arrays ev d d' :
  callback ev d = Ok (tt, d') -> keeps_arrays d d'.
Proof.
  intros H.
  assert (Hleaf : forall val d0, keeps_arrays d d0 ->
            _push val d0 = Ok (tt, d') -> keeps_arrays d d').
  { intros val d0 K Hpush. apply _push_keeps_arrays in Hpush.
    exact (keeps_arrays_trans _ _ _ K Hpush). }
  assert (Hopen : forall obj type len d0, keeps_arrays d d0 ->
            _createParent obj type len d0 = Ok (tt, d') -> keeps_arrays d d').
  { intros obj type len d0 K Hc. apply _createParent_keeps_arrays in Hc.
    exact (keeps_arrays_trans _ _ _ K Hc). }
  destruct ev; cbn [callback] in *;
    unfold pushInt, pushInt32, pushInt32Neg, pushInt64, pushInt64Neg, pushFloat,
      pushFloatSingle, pushFloatDouble, pushTrue, pushFalse, pushUndefined,
      pushNull, pushInfinity, pushInfinityNeg, pushNaN, pushNaNNeg,
      pushArrayStartFixed, pushArrayStartFixed32, pushArrayStartFixed64,
      pushObjectStartFixed, pushObjectStartFixed32, pushObjectStartFixed64,
      pushByteString, pushUtf8String, _createArrayStartFixed,
      _createObjectStartFixed, buildInt64, new_Array in H;
    run; repeat (step H; run);
    first [ eapply Hleaf; [|exact H] | eapply Hopen; [|exact H] ];
    first [ apply keeps_arrays_refl | apply keeps_arrays_alloc
          | rewrite <- app_assoc; apply keeps_arrays_alloc
          | apply keeps_arrays_frames ].
Qed.

Lemma callbacks_keep_arrays evs d d' :
  callbacks evs d = Ok (tt, d') -> keeps_arrays d d'.
Proof.
  revert d. induction evs as [|ev evs IH]; intros d H.
  - injection H as <-. apply keeps_arrays_refl.
  - cbn [callbacks] in H. unfold bind in H.
    destruct (callback ev d) as [[[] d1]| |] eqn:Hev; try discriminate H.
    apply callback_keeps_arrays in Hev. apply IH in H.
    exact (keeps_arrays_trans _ _ _ Hev H).
Qed.

(** ** One item at top level *)

Lemma insert_last {A} (l : list A) (x y : A) :
  <[List.length l := y]> (l ++ [x]) = l ++ [y].
Proof.
  induction l as [|a l IH]; [reflexivity|].
  change (a :: <[List.length l := y]> (l ++ [x]) = a :: (l ++ [y])).
  now rewrite IH.
Qed.

Lemma lookup_last {A} (l : list A) (x : A) : (l ++ [x]) !! List.length l = Some x.
Proof. induction l as [|a l IH]; [reflexivity|]. exact IH. Qed.

Lemma push_at_start input d val :
  _push val (started input d) = Ok (tt, first_pushed input d val).
Proof.
  rewrite (_push_array (started input d)
             (mkParent PARENT_ARRAY (Some (of_int (-1))) None None
                       (List.length (objects d))) [] val).
  - unfold started, first_pushed. cbn [_heap objects _res _tmpKey _parents p_ref].
    rewrite insert_last. reflexivity.
  - reflexivity.
  - reflexivity.
  - left. reflexivity.
  - apply lookup_last.
Qed.

Lemma decodeFirst_leaf parser input d ev code val :
  (List.length input <= List.length (_heap d))%nat ->
  parser (_heap (started input d)) (Z.of_nat (List.length input)) = ([ev], code) ->
  code <= 0 ->
  callback ev (started input d) = _push val (started input d) ->
  decodeFirst parser input d = Ok (val, first_pushed input d val).
Proof.
  intros Hfit Hscan Hcode Hev.
  assert (H : _decode parser input d = Ok (tt, first_pushed input d val)).
  { rewrite (_decode_run parser input d [ev] code Hfit Hscan).
    cbn [callbacks]. unfold bind. rewrite Hev, push_at_start. unfold ret.
    destruct (Z.ltb_spec 0 code); [lia|reflexivity]. }
  unfold decodeFirst. unfold bind at 1. rewrite H. unfold first_pushed. run.
  rewrite lookup_last. reflexivity.
Qed.

(** A decode call that returns gives the first element of the result
    sequence, whatever the callbacks built. *)
Lemma decodeFirst_returns parser input d evs code d1 :
  (List.length input <= List.length (_heap d))%nat ->
  parser (_heap (started input d)) (Z.of_nat (List.length input)) = (evs, code) ->
  callbacks evs (started input d) = Ok (tt, d1) ->
  code <= 0 ->
  exists es,
    objects d1 !! _res d1 = Some (HArray es)
    /\ decodeFirst parser input d = Ok (first_of es, d1).
Proof.
  intros Hfit Hscan Hcb Hcode.
  destruct (callbacks_keep_arrays _ _ _ Hcb) as [Hres Harr].
  destruct (Harr (_res (started input d)) [] (lookup_last _ _)) as [es Hes].
  rewrite <- Hres in Hes. exists es. split; [exact Hes|].
  assert (H : _decode parser input d = Ok (tt, d1)).
  { rewrite (_decode_run parser input d evs code Hfit Hscan), Hcb.
    destruct (Z.ltb_spec 0 code); [lia|reflexivity]. }
  unfold decodeFirst. unfold bind at 1. rewrite H. run. rewrite Hes. reflexivity.
Qed.

(** ** Fixed-length arrays of integers *)

Lemma num_eq_refl (x : number) : is_NaN x = false -> num_eq x x = true.
Proof.
  intros Hx. destruct x as [s|s|s|s m e]; try reflexivity.
  - destruct s; reflexivity.
  - discriminate Hx.
  - unfold num_eq, f_eq, SFeqb, SFcompare. cbn [to_float].
    rewrite Z.compare_refl, Pos.compare_cont_refl. destruct s; reflexivity.
Qed.

Lemma of_int_not_NaN (z : Z) : Z.abs z < 2 ^ 53 -> is_NaN (of_int z) = false.
Proof.
  intros Hz. unfold of_int.
  pose proof (f_of_int_not_nan z ltac:(lia)) as H.
  destruct (f_of_int z); [reflexivity..|contradiction|reflexivity].
Qed.

Lemma new_Array_holes (n : nat) d :
  Z.of_nat n < 2 ^ 32 ->
  new_Array (VNum (of_int (Z.of_nat n))) d
  = Ok (List.length (objects d),
        mkDecoder (_heap d) (objects d ++ [HArray (repeat None n)])
                  (_res d) (_tmpKey d) (_parents d)).
Proof.
  intros Hn. unfold new_Array.
  rewrite to_int_of_int by lia.
  rewrite num_eq_refl by (apply of_int_not_NaN; lia).
  destruct (Z.leb_spec 0 (Z.of_nat n)); [|lia].
  destruct (Z.ltb_spec (Z.of_nat n) (2 ^ 32)); [|lia].
  cbn [andb]. rewrite Nat2Z.id. reflexivity.
Qed.

(** Integers pushed into an array frame are appended to its array, and
    the frame stays current. *)
Lemma push_ints_into_array (xs : list Z) d p es :
  current d p -> p_type p = PARENT_ARRAY -> unknown_length p ->
  objects d !! p_ref p = Some (HArray es) ->
  exists d',
    callbacks (map EpushInt xs) d = Ok (tt, d')
    /\ objects d'
       = <[p_ref p := HArray (es ++ map (fun x => Some (VNum (of_int x))) xs)]>
           (objects d)
    /\ _res d' = _res d.
Proof.
  revert d p es. induction xs as [|x xs IH]; intros d p es Hp Ht Hu Ho.
  - exists d. split; [reflexivity|]. split; [|reflexivity].
    cbn [map]. rewrite app_nil_r. symmetry. now apply list_insert_id.
  - assert (Hlt : (p_ref p < List.length (objects d))%nat)
      by (eapply lookup_lt_Some; eassumption).
    assert (Hn : (List.length (_parents d) - 1 < List.length (_parents d))%nat)
      by (eapply lookup_lt_Some; exact Hp).
    pose proof (_push_array d p es (VNum (of_int x)) Hp Ht Hu Ho) as Hpush.
    set (d1 := mkDecoder (_heap d)
                 (<[p_ref p := HArray (es ++ [Some (VNum (of_int x))])]> (objects d))
                 (_res d) (_tmpKey d)
                 (<[(List.length (_parents d) - 1)%nat := counted p]> (_parents d)))
      in Hpush.
    destruct (IH d1 (counted p) (es ++ [Some (VNum (of_int x))]))
      as (d' & Hrun & Hobj & Hres).
    + unfold current, d1. cbn [_parents]. rewrite length_insert.
      now apply list_lookup_insert_eq.
    + exact Ht.
    + apply unknown_counted.
    + unfold d1. cbn [objects counted p_ref]. now apply list_lookup_insert_eq.
    + exists d'. split; [|split].
      * cbn [map callbacks callback]. unfold bind, pushInt. rewrite Hpush. exact Hrun.
      * rewrite Hobj. unfold d1. cbn [objects counted p_ref map].
        rewrite list_insert_insert_eq, <- app_assoc. reflexivity.
      * rewrite Hres. reflexivity.
Qed.

(** For every N and every N integers, the array of those integers decodes
    to a sequence of length 2N: N holes, then the integers in order. *)
Lemma decodeFirst_int_array parser input d (xs : list Z) code :
  (List.length input <= List.length (_heap d))%nat ->
  Z.of_nat (List.length xs) < 2 ^ 32 ->
  parser (_heap (started input d)) (Z.of_nat (List.length input))
  = (EpushArrayStartFixed (Z.of_nat (List.length xs)) :: map EpushInt xs, code) ->
  code <= 0 ->
  exists d',
    decodeFirst parser input d = Ok (VRef (S (List.length (objects d))), d')
    /\ objects d' !! S (List.length (objects d))
       = Some (HArray (repeat None (List.length xs)
                       ++ map (fun x => Some (VNum (of_int x))) xs)).
Proof.
  intros Hfit HN Hscan Hcode.
  set (n := List.length (objects d)).
  set (root := mkParent PARENT_ARRAY (Some (of_int (-1))) None None n).
  set (frame := mkParent PARENT_ARRAY None
                  (Some (VNum (of_int (Z.of_nat (List.length xs))))) None (S n)).
  (* the state after the array was opened *)
  set (d1 := mkDecoder (input ++ skipn (List.length input) (_heap d))
               (objects d ++ [HArray [Some (VRef (S n))]]
                          ++ [HArray (repeat None (List.length xs))])
               n VNull [counted root; frame]).
  assert (Hopen : pushArrayStartFixed (Z.of_nat (List.length xs)) (started input d)
                  = Ok (tt, d1)).
  { unfold pushArrayStartFixed, _createArrayStartFixed. unfold bind at 1.
    rewrite new_Array_holes by assumption.
    unfold _createParent. unfold bind at 1.
    unfold started. cbn [objects _heap _res _tmpKey _parents].
    replace (List.length (objects d ++ [HArray []])) with (S n)
      by (rewrite List.length_app; cbn; lia).
    fold n.
    rewrite (_push_array _ root [] (VRef (S n))).
    - run. unfold d1. f_equal. f_equal. f_equal.
      rewrite (insert_app_l _ _ n) by (rewrite List.length_app; cbn; lia).
      unfold n. rewrite insert_last. rewrite <- app_assoc. reflexivity.
    - reflexivity.
    - reflexivity.
    - left. reflexivity.
    - cbn [objects root p_ref]. rewrite lookup_app_l by (rewrite length_app; cbn; lia).
      apply lookup_last. }
  destruct (push_ints_into_array xs d1 frame (repeat None (List.length xs)))
    as (d' & Hrun & Hobj & Hres).
  { reflexivity. }
  { reflexivity. }
  { left. reflexivity. }
  { unfold d1. cbn [objects frame p_ref].
    rewrite lookup_app_r by (fold n; lia).
    replace (S n - List.length (objects d))%nat with 1%nat by (fold n; lia).
    reflexivity. }
  assert (Hdec : _decode parser input d = Ok (tt, d')).
  { rewrite (_decode_run parser input d _ code Hfit Hscan).
    cbn [callbacks callback]. unfold bind at 1. rewrite Hopen, Hrun.
    destruct (Z.ltb_spec 0 code); [lia|reflexivity]. }
  exists d'. split.
  - unfold decodeFirst. unfold bind at 1. rewrite Hdec. run.
    rewrite Hres, Hobj. unfold d1. cbn [_res objects frame p_ref].
    rewrite list_lookup_insert_ne by lia.
    rewrite lookup_app_r by (fold n; lia).
    replace (n - List.length (objects d))%nat with 0%nat by (fold n; lia).
    reflexivity.
  - rewrite Hobj. unfold d1. cbn [objects frame p_ref].
    apply list_lookup_insert_eq. rewrite !List.length_app. cbn. fold n. lia.
Qed.

(** ** Fragments *)

Lemma buildInt32_exact (f g : Z) :
  0 <= f < 2 ^ 16 -> 0 <= g < 2 ^ 16 ->
  buildInt32 (of_int f) (of_int g) = of_int (f * 2 ^ 16 + g).
Proof.
  intros Hf Hg. unfold buildInt32.
  rewrite of_int_mul by lia. rewrite of_int_add by lia. reflexivity.
Qed.

(** ** Pending keys are tested by truthiness *)

(** The keys that are falsy: the empty string, zero, false, null (and
    undefined, NaN). *)
Lemma falsy_keys :
  Forall (fun k => ToBoolean k = false)
    [VStr []; VNum (of_int 0); VNum (num_neg (of_int 0)); VBool false; VNull;
     VUndefined; VNum NaN].
Proof. repeat constructor. Qed.

Lemma _dec_objects d d' : _dec d = Ok (tt, d') -> objects d' = objects d.
Proof.
  intros H. unfold _dec in H. run.
  repeat (step H; run); injection H as <-; reflexivity.
Qed.

(** A push changes an object or a map only in the branch taken when the
    pending key is truthy. *)
Lemma push_inserts_under_truthy_key d val d' a o :
  _push val d = Ok (tt, d') ->
  objects d !! a = Some o -> is_keyed o = true ->
  objects d' !! a <> Some o ->
  ToBoolean (_tmpKey d) = true.
Proof.
  intros H Ha Hk Hne. unfold _push in H. run.
  destruct (_parents d !! (List.length (_parents d) - 1)%nat) as [p|] eqn:Hp;
    [|discriminate H].
  run. rewrite ?Hp in H. run.
  repeat (step H; run; rewrite ?Hp in H; run); try reflexivity; exfalso;
    try (apply _dec_objects in H; cbn [objects] in H);
    try (injection H as <-; cbn [objects] in Hne);
    try (apply Hne; assumption).
  - (* an array frame: the array is another object *)
    rewrite H in Hne. destruct (Nat.eq_dec a (p_ref p)) as [->|Hneq].
    + rewrite Ha in *. by simplify_eq.
    + rewrite list_lookup_insert_ne in Hne by congruence. contradiction.
  - (* the promotion: the new map is a new object *)
    rewrite lookup_app_l in Hne by (eapply lookup_lt_Some; eassumption).
    contradiction.
Qed.

(** ** Negative 64-bit integers *)

(** The branch of the arbitrary-precision integers ends in the call of
    [NEG_ONE.sub], which raises. *)
Lemma pushInt64Neg_big (f1 f2 g1 g2 : Z) d :
  0 <= f1 < 2 ^ 16 -> 0 <= f2 < 2 ^ 16 ->
  2 ^ 21 - 1 < f1 * 2 ^ 16 + f2 ->
  pushInt64Neg f1 f2 g1 g2 d = Throw TypeError.
Proof.
  intros Hf1 Hf2 Hhigh. unfold pushInt64Neg.
  rewrite (buildInt32_exact f1 f2) by assumption. unfold MAX_SAFE_HIGH.
  rewrite of_int_lt by lia.
  destruct (Z.ltb_spec 0x1fffff (f1 * 2 ^ 16 + f2)); [|lia]. reflexivity.
Qed.

(** The branch of the numbers is exact. *)
Lemma pushInt64Neg_native (f1 f2 g1 g2 : Z) :
  0 <= f1 < 2 ^ 16 -> 0 <= f2 < 2 ^ 16 -> 0 <= g1 < 2 ^ 16 -> 0 <= g2 < 2 ^ 16 ->
  let high := f1 * 2 ^ 16 + f2 in
  let low := g1 * 2 ^ 16 + g2 in
  let exact := -1 - (high * 2 ^ 32 + low) in
  high <= 2 ^ 21 - 1 ->
  pushInt64Neg f1 f2 g1 g2 = _push (VNum (of_int exact))
  /\ to_int (of_int exact) = exact.
Proof.
  intros Hf1 Hf2 Hg1 Hg2 high low exact Hhigh.
  unfold pushInt64Neg. rewrite !buildInt32_exact by assumption.
  fold high low. unfold MAX_SAFE_HIGH.
  rewrite of_int_lt by (unfold high; lia).
  destruct (Z.ltb_spec 0x1fffff high); [lia|].
  unfold SHIFT32.
  rewrite of_int_mul by (unfold high; lia).
  rewrite of_int_add by (unfold high, low; lia).
  rewrite of_int_sub by (unfold high, low; lia).
  split; [reflexivity|].
  apply to_int_of_int. unfold exact, high, low. lia.
Qed.

(** ** The key of an inserted entry *)

Lemma jsstring_eqb_eq (a b : jsstring) : jsstring_eqb a b = true <-> a = b.
Proof.
  unfold jsstring_eqb. revert b. induction a as [|x a IH]; intros [|y b]; cbn.
  - tauto.
  - split; discriminate.
  - split; discriminate.
  - rewrite andb_true_iff in *. specialize (IH b).
    rewrite andb_true_iff in IH. rewrite andb_true_iff, Z.eqb_eq.
    cbn [fst snd]. split.
    + intros [Hl [-> Hf]]. f_equal. apply IH. split; assumption.
    + intros E. injection E as -> ->. destruct IH as [_ IH].
      destruct (IH eq_refl) as [Hl Hf]. repeat split; assumption.
Qed.

Lemma jsstring_eqb_refl (k : jsstring) : jsstring_eqb k k = true.
Proof. now apply jsstring_eqb_eq. Qed.

Lemma props_replace_entries k v ps key x :
  In (key, x) (props_replace k v ps) -> In (key, x) ps \/ (x = v /\ key = k).
Proof.
  induction ps as [|[k' v'] ps IH]; cbn [props_replace]; [intros []|].
  destruct (jsstring_eqb k' k) eqn:E; cbn [In].
  - apply jsstring_eqb_eq in E. subst k'. intros [H|H].
    + injection H as <- <-. right. split; reflexivity.
    + left. right. exact H.
  - intros [H|H]; [left; left; exact H|].
    destruct (IH H) as [H'|H']; [left; right; exact H'|right; exact H'].
Qed.

Lemma props_insert_index_entries n k v ps key x :
  In (key, x) (props_insert_index n k v ps) -> In (key, x) ps \/ (x = v /\ key = k).
Proof.
  induction ps as [|[k' v'] ps IH]; cbn [props_insert_index In].
  - intros [H|[]]. injection H as <- <-. right. split; reflexivity.
  - destruct (array_index k') as [n'|]; [destruct (n' <? n)|]; cbn [In].
    + intros [H|H]; [left; left; exact H|].
      destruct (IH H) as [H'|H']; [left; right; exact H'|right; exact H'].
    + intros [H|H]; [injection H as <- <-; right; split; reflexivity|left; exact H].
    + intros [H|H]; [injection H as <- <-; right; split; reflexivity|left; exact H].
Qed.

(** An assignment adds no entry but the one of its key and value. *)
Lemma Object_set_entries k v ps ps' key x :
  Object_set k v ps = Some ps' ->
  In (key, x) ps' -> In (key, x) ps \/ (x = v /\ key = k).
Proof.
  unfold Object_set. destruct (jsstring_eqb k (js "__proto__")).
  - destruct v; intros H; try discriminate H; injection H as <-; now left.
  - intros H. injection H as <-. unfold props_upsert.
    destruct (props_mem k ps); [apply props_replace_entries|].
    destruct (array_index k) as [n|]; [apply props_insert_index_entries|].
    intros Hin. apply in_app_or in Hin. destruct Hin as [Hin|[Hin|[]]].
    + now left.
    + injection Hin as <- <-. right. split; reflexivity.
Qed.

Lemma num_eq_or_NaN (n : number) :
  match n with N_nan _ => true | _ => num_eq n n end = true.
Proof.
  destruct n as [s|s|s|s m e]; [destruct s; reflexivity..|reflexivity|].
  apply (num_eq_refl (N_finite s m e)). reflexivity.
Qed.

Lemma SameValueZero_refl (k : value) : SameValueZero k k = true.
Proof.
  destruct k as [| |b|n|x|a]; cbn [SameValueZero]; try reflexivity.
  - destruct b; reflexivity.
  - pose proof (num_eq_or_NaN n) as H. destruct n; exact H.
  - apply jsstring_eqb_refl.
  - apply Nat.eqb_refl.
Qed.

(** A key equal to a truthy key is truthy. *)
Lemma SameValueZero_truthy (key k : value) :
  SameValueZero key k = true -> ToBoolean k = true -> ToBoolean key = true.
Proof.
  destruct key as [| |b|[s|s|s|s m e]|x|a], k as [| |b'|[s'|s'|s'|s' m' e']|x'|a'];
    cbn [SameValueZero ToBoolean]; intros H1 H2;
    try discriminate H1; try discriminate H2; try reflexivity.
  all: try (destruct b, b'; try reflexivity; discriminate).
  all: try (apply jsstring_eqb_eq in H1; subst; exact H2).
  all: exfalso; revert H1; unfold num_eq, f_eq, SFeqb, SFcompare; cbn [to_float];
    destruct s, s'; discriminate.
Qed.

Lemma map_upsert_entries k v es key x :
  In (key, x) (map_upsert k v es) ->
  In (key, x) es \/ (x = v /\ SameValueZero key k = true).
Proof.
  induction es as [|[k' v'] es IH]; cbn [map_upsert In].
  - intros [H|[]]. injection H as <- <-. right. split; [reflexivity|].
    apply SameValueZero_refl.
  - destruct (SameValueZero k' k) eqn:E; cbn [In].
    + intros [H|H]; [|left; right; exact H].
      injection H as <- <-. right. split; [reflexivity|exact E].
    + intros [H|H]; [left; left; exact H|].
      destruct (IH H) as [H'|H']; [left; right; exact H'|right; exact H'].
Qed.

Lemma Map_set_entries k v es key x :
  ToBoolean k = true ->
  In (key, x) (Map_set k v es) ->
  In (key, x) es \/ (x = v /\ SameValueZero key k = true).
Proof.
  intros Hk. unfold Map_set.
  assert (E : match k with VNum (N_zero _) => VNum (N_zero false) | _ => k end = k).
  { destruct k as [| |b|n|y|a]; try reflexivity.
    destruct n; try reflexivity. discriminate Hk. }
  rewrite E. apply map_upsert_entries.
Qed.

(** A push that changes an object or a map stores there the item under the
    pending key, which is truthy. *)
Lemma push_stores_under_pending_key d val d' a o :
  _push val d = Ok (tt, d') ->
  objects d !! a = Some o -> is_keyed o = true ->
  objects d' !! a <> Some o ->
  (exists k ps ps',
      _tmpKey d = VStr k /\ o = HObject ps /\ Object_set k val ps = Some ps'
      /\ objects d' !! a = Some (HObject ps'))
  \/ (exists es,
         o = HMap es
         /\ objects d' !! a = Some (HMap (Map_set (_tmpKey d) val es))).
Proof.
  intros H Ha Hk Hne. unfold _push in H. run.
  destruct (_parents d !! (List.length (_parents d) - 1)%nat) as [p|] eqn:Hp;
    [|discriminate H].
  run. rewrite ?Hp in H. run.
  repeat (step H; run; rewrite ?Hp in H; run);
    try (apply _dec_objects in H; cbn [objects] in H);
    try (injection H as <-; cbn [objects] in Hne);
    try (exfalso; apply Hne; assumption).
  - (* an array frame: the array is another object *)
    exfalso. rewrite H in Hne. destruct (Nat.eq_dec a (p_ref p)) as [->|Hneq].
    + rewrite Ha in *. by simplify_eq.
    + rewrite list_lookup_insert_ne in Hne by congruence. contradiction.
  - (* an object frame with a truthy key *)
    rewrite H in Hne |- *. destruct (Nat.eq_dec a (p_ref p)) as [->|Hneq].
    + left. rewrite Ha in *. simplify_eq. eexists _, _, _.
      repeat split; [eassumption|].
      apply list_lookup_insert_eq. eapply lookup_lt_Some; eassumption.
    + rewrite list_lookup_insert_ne in Hne by congruence. contradiction.
  - (* the promotion: the new map is a new object *)
    exfalso. rewrite lookup_app_l in Hne by (eapply lookup_lt_Some; eassumption).
    contradiction.
  - (* a map frame with a truthy key *)
    rewrite H in Hne |- *. destruct (Nat.eq_dec a (p_ref p)) as [->|Hneq].
    + right. rewrite Ha in *. simplify_eq. eexists. split; [reflexivity|].
      apply list_lookup_insert_eq. eapply lookup_lt_Some; eassumption.
    + rewrite list_lookup_insert_ne in Hne by congruence. contradiction.
Qed.

End DecodeFacts.

(** * The claims *)

Section Claims.

Implicit Types (d : Decoder) (p : parent) (val : value).

(** C1, at the failing input [81 05] (the array [[5]]): the frame opened
    with declared length 1 keeps that count under [left], untouched by the
    push of its only child; the push decrements the absent [length] to NaN,
    and the frame is still on the stack when the decode call returns. *)
Theorem C1_frame_survives_its_last_child :
  let r := Decoder_decodeAll (scanned [EpushArrayStartFixed 1; EpushInt 5] 0)
                             (map byte_of [0x81; 0x05]) in
  depth_after r = Some 2%nat
  /\ match r with
     | Ok (_, d) =>
         map (fun p => (p_left p, p_length p)) (_parents d)
         = [(None, Some NaN); (Some (VNum (of_int 1)), Some NaN)]
     | _ => False
     end.
Proof. vm_compute. split; reflexivity. Qed.

(** C2, at the failing input [83 01 02 03] (the array [[1, 2, 3]]):
    [decodeFirst] returns a sequence of length 6, three holes followed by
    the three children. *)
Theorem C2_fixed_array_has_leading_holes :
  observe (Decoder_decode
             (scanned [EpushArrayStartFixed 3; EpushInt 1; EpushInt 2; EpushInt 3] 0)
             (map byte_of [0x83; 0x01; 0x02; 0x03]))
  = Ok (Some (TArray [None; None; None;
                      Some (TNum (of_int 1)); Some (TNum (of_int 2));
                      Some (TNum (of_int 3))])).
Proof. vm_compute. reflexivity. Qed.

(** C3, counterexample: on the callbacks of [82 01] (an array declared
    with two items, one present) and status 0, [decodeAll] returns, and
    the frame stack it leaves has depth two. *)
Lemma C3_returns_with_open_frame :
  let r := Decoder_decodeAll (scanned [EpushArrayStartFixed 2; EpushInt 1] 0)
                             (map byte_of [0x82; 0x01]) in
  observe r = Ok (Some (TArray [Some (TArray [None; None; Some (TNum (of_int 1))])]))
  /\ depth_after r = Some 2%nat.
Proof. vm_compute. split; reflexivity. Qed.

(** C3, amended: a decode call starts with the frame stack at depth one;
    it returns ([decodeAll] the result sequence, [decodeFirst] its first
    element) whenever every callback returns and the scanner's status is
    not positive.  The depth of the stack at the end is not examined. *)
Theorem C3_decode_returns_unless_status_positive parser input d evs code d1 :
  (List.length input <= List.length (_heap d))%nat ->
  parser (_heap (started input d)) (Z.of_nat (List.length input)) = (evs, code) ->
  callbacks evs (started input d) = Ok (tt, d1) ->
  code <= 0 ->
  List.length (_parents (started input d)) = 1%nat
  /\ _decode parser input d = Ok (tt, d1)
  /\ decodeAll parser input d = Ok (VRef (_res d1), d1)
  /\ exists es, objects d1 !! _res d1 = Some (HArray es)
                /\ decodeFirst parser input d = Ok (first_of es, d1).
Proof.
  intros Hfit Hscan Hcb Hcode.
  assert (H : _decode parser input d = Ok (tt, d1)).
  { rewrite (_decode_run parser input d evs code Hfit Hscan), Hcb.
    destruct (Z.ltb_spec 0 code); [lia|reflexivity]. }
  split; [reflexivity|]. split; [exact H|]. split.
  - unfold decodeAll, bind. rewrite H. reflexivity.
  - exact (decodeFirst_returns parser input d evs code d1 Hfit Hscan Hcb Hcode).
Qed.

(** The amended C3 at the callbacks of [82 01]. *)
Lemma C3_decode_returns_witness :
  let d := mkDecoder [x00; x00] [] 0%nat VUndefined [] in
  let input := map byte_of [0x82; 0x01] in
  let evs := [EpushArrayStartFixed 2; EpushInt 1] in
  exists d1,
    callbacks evs (started input d) = Ok (tt, d1)
    /\ List.length (_parents (started input d)) = 1%nat
    /\ _decode (scanned evs 0) input d = Ok (tt, d1)
    /\ decodeAll (scanned evs 0) input d = Ok (VRef (_res d1), d1)
    /\ exists es, objects d1 !! _res d1 = Some (HArray es)
                  /\ decodeFirst (scanned evs 0) input d = Ok (first_of es, d1).
Proof.
  intros d input evs.
  destruct (callbacks evs (started input d)) as [[[] d1]| |] eqn:Hcb;
    [|vm_compute in Hcb; discriminate Hcb..].
  exists d1. split; [reflexivity|].
  apply (C3_decode_returns_unless_status_positive (scanned evs 0) input d evs 0 d1);
    [cbn; lia | reflexivity | exact Hcb | lia].
Defined.

(** C4, at the failing input [A2 61 61 01 02 03] (the map with the entries
    "a": 1 and 2: 3): [decodeFirst] returns the string-keyed object, holding
    the first entry only.  The general mapping with both entries exists,
    but only as the container of the frame: the object pushed into the
    parent when the map was opened is the one the caller gets. *)
Theorem C4_promoted_map_is_not_returned :
  let r := Decoder_decode
             (scanned [EpushObjectStartFixed 2; EpushUtf8String 2 2; EpushInt 1;
                       EpushInt 2; EpushInt 3] 0)
             (map byte_of [0xA2; 0x61; 0x61; 0x01; 0x02; 0x03]) in
  observe r = Ok (Some (TObject [(js "a", TNum (of_int 1))]))
  /\ match r with
     | Ok (_, d) =>
         match last (_parents d) with
         | Some p =>
             p_type p = PARENT_MAP
             /\ tree_of 2 (objects d) (VRef (p_ref p))
                = Some (TMap [(TStr (js "a"), TNum (of_int 1));
                              (TNum (of_int 2), TNum (of_int 3))])
         | None => False
         end
     | _ => False
     end.
Proof. vm_compute. repeat split; reflexivity. Qed.

(** A map whose two keys are strings decodes to a string-keyed object with
    both entries. *)
Lemma string_keyed_map_decodes_to_object :
  observe (Decoder_decode
             (scanned [EpushObjectStartFixed 2; EpushUtf8String 2 2; EpushInt 1;
                       EpushUtf8String 5 5; EpushInt 2] 0)
             (map byte_of [0xA2; 0x61; 0x61; 0x01; 0x61; 0x62; 0x02]))
  = Ok (Some (TObject [(js "a", TNum (of_int 1)); (js "b", TNum (of_int 2))])).
Proof. vm_compute. reflexivity. Qed.

(** C5, at the failing input [3B 00 20 00 00 00 00 00 01] (the negative
    integer -1 - (2^53 + 1), whose high word is 2^21): the callback
    pushInt64Neg(0x20, 0, 0, 1) takes the branch of the arbitrary-precision
    integers, where [NEG_ONE.sub] is no method of the Bignumber class the
    package declares.  [decodeFirst] and [decodeAll] raise a TypeError; no
    value is pushed. *)
Theorem C5_big_negative_integer_raises :
  num_lt MAX_SAFE_HIGH (buildInt32 (of_int 0x20) (of_int 0)) = true
  /\ Decoder_decode (scanned [EpushInt64Neg 0x20 0 0 1] 0)
       (map byte_of [0x3B; 0x00; 0x20; 0x00; 0x00; 0x00; 0x00; 0x00; 0x01])
     = Throw TypeError
  /\ Decoder_decodeAll (scanned [EpushInt64Neg 0x20 0 0 1] 0)
       (map byte_of [0x3B; 0x00; 0x20; 0x00; 0x00; 0x00; 0x00; 0x00; 0x01])
     = Throw TypeError.
Proof. vm_compute. repeat split; reflexivity. Qed.

(** C6, counterexample: the text string of [61 FF] has the single byte FF,
    which is not valid UTF-8; [decodeFirst] returns, and the value is the
    string U+FFFD. *)
Lemma C6_invalid_utf8_is_replaced :
  valid_utf8 [byte_of 0xFF] = false
  /\ observe (Decoder_decode (scanned [EpushUtf8String 1 1] 0)
                             (map byte_of [0x61; 0xFF]))
     = Ok (Some (TStr [0xFFFD])).
Proof. vm_compute. split; reflexivity. Qed.

(** C6, amended: a text-string event does not fail on bytes that are not
    valid UTF-8.  Whatever the bytes, the event pushes the string the
    runtime's UTF-8 decoder makes of them, with ill-formed sequences
    replaced by U+FFFD; a decode call whose scan is that one event returns
    that string. *)
Theorem C6_text_string_always_decodes parser input d start stop code :
  (List.length input <= List.length (_heap d))%nat ->
  parser (_heap (started input d)) (Z.of_nat (List.length input))
  = ([EpushUtf8String start stop], code) ->
  code <= 0 ->
  let s := toString_utf8 (ArrayBuffer_slice (_heap (started input d)) start (stop + 1)) in
  (forall d0,
      pushUtf8String start stop d0
      = _push (VStr (toString_utf8 (ArrayBuffer_slice (_heap d0) start (stop + 1)))) d0)
  /\ decodeFirst parser input d = Ok (VStr s, first_pushed input d (VStr s)).
Proof.
  intros Hfit Hscan Hcode s. split; [reflexivity|].
  apply (decodeFirst_leaf parser input d (EpushUtf8String start stop) code);
    [assumption..|reflexivity].
Qed.

(** The amended C6 at the text string of [61 FF]. *)
Lemma C6_text_string_witness :
  let d := mkDecoder [x00; x00] [] 0%nat VUndefined [] in
  let input := map byte_of [0x61; 0xFF] in
  let s := toString_utf8 (ArrayBuffer_slice (_heap (started input d)) 1 (1 + 1)) in
  (forall d0,
      pushUtf8String 1 1 d0
      = _push (VStr (toString_utf8 (ArrayBuffer_slice (_heap d0) 1 (1 + 1)))) d0)
  /\ decodeFirst (scanned [EpushUtf8String 1 1] 0) input d
     = Ok (VStr s, first_pushed input d (VStr s)).
Proof.
  intros d input.
  apply (C6_text_string_always_decodes (scanned [EpushUtf8String 1 1] 0) input d 1 1 0);
    [cbn; lia | reflexivity | lia].
Defined.

(** C7, counterexample: with the negative status -1, [decodeAll] and
    [decodeFirst] return the values built so far. *)
Lemma C7_negative_status_returns :
  observe (Decoder_decodeAll (scanned [EpushInt 1] (-1)) (map byte_of [0x01]))
  = Ok (Some (TArray [Some (TNum (of_int 1))]))
  /\ observe (Decoder_decode (scanned [EpushInt 1] (-1)) (map byte_of [0x01]))
     = Ok (Some (TNum (of_int 1))).
Proof. vm_compute. split; reflexivity. Qed.

(** C7, amended: for every status code greater than zero, [decodeFirst]
    and [decodeAll] return no value: when the callbacks all returned they
    raise the decode failure (and otherwise the call has already ended with
    the callback's exception).  A status that is zero or negative is taken
    as success. *)
Theorem C7_positive_status_fails parser input d evs code :
  (List.length input <= List.length (_heap d))%nat ->
  parser (_heap (started input d)) (Z.of_nat (List.length input)) = (evs, code) ->
  0 < code ->
  (forall r, decodeFirst parser input d <> Ok r)
  /\ (forall r, decodeAll parser input d <> Ok r)
  /\ (forall d1, callbacks evs (started input d) = Ok (tt, d1) ->
        decodeFirst parser input d = Throw (Error "Failed to parse")
        /\ decodeAll parser input d = Throw (Error "Failed to parse")).
Proof.
  intros Hfit Hscan Hcode.
  pose proof (_decode_run parser input d evs code Hfit Hscan) as H.
  destruct (Z.ltb_spec 0 code); [|lia].
  assert (Hnot : forall r, _decode parser input d <> Ok r).
  { intros r. rewrite H.
    destruct (callbacks evs (started input d)) as [[[] d1]| |]; discriminate. }
  split; [apply bind_returns_not, Hnot|].
  split; [apply bind_returns_not, Hnot|].
  intros d1 Hcb. rewrite Hcb in H.
  split; apply bind_raises, H.
Qed.

(** The amended C7 at the status 1. *)
Lemma C7_positive_status_witness :
  let d := mkDecoder [x00] [] 0%nat VUndefined [] in
  let input := map byte_of [0x01] in
  (forall r, decodeFirst (scanned [EpushInt 1] 1) input d <> Ok r)
  /\ (forall r, decodeAll (scanned [EpushInt 1] 1) input d <> Ok r)
  /\ (forall d1, callbacks [EpushInt 1] (started input d) = Ok (tt, d1) ->
        decodeFirst (scanned [EpushInt 1] 1) input d = Throw (Error "Failed to parse")
        /\ decodeAll (scanned [EpushInt 1] 1) input d = Throw (Error "Failed to parse")).
Proof.
  intros d input.
  apply (C7_positive_status_fails (scanned [EpushInt 1] 1) input d [EpushInt 1] 1);
    [cbn; lia | reflexivity | lia].
Defined.

(** C8, counterexample: on the empty input, for which the scanner makes no
    callback and reports success, [decodeFirst] returns [undefined]. *)
Lemma C8_nothing_decodes_to_undefined :
  observe (Decoder_decode (scanned [] 0) []) = Ok (Some TUndefined).
Proof. vm_compute. reflexivity. Qed.

(** C8, amended: when the scan produced no top-level value, [decodeFirst]
    does not fail; it returns [undefined]. *)
Theorem C8_decodeFirst_of_nothing parser input d code :
  (List.length input <= List.length (_heap d))%nat ->
  parser (_heap (started input d)) (Z.of_nat (List.length input)) = ([], code) ->
  code <= 0 ->
  decodeFirst parser input d = Ok (VUndefined, started input d).
Proof.
  intros Hfit Hscan Hcode.
  assert (H : _decode parser input d = Ok (tt, started input d)).
  { rewrite (_decode_run parser input d [] code Hfit Hscan).
    cbn [callbacks]. unfold ret.
    destruct (Z.ltb_spec 0 code); [lia|reflexivity]. }
  unfold decodeFirst. unfold bind at 1. rewrite H. unfold started. run.
  rewrite lookup_last. reflexivity.
Qed.

(** The amended C8 at the empty input. *)
Lemma C8_decodeFirst_of_nothing_witness :
  let d := mkDecoder [] [] 0%nat VUndefined [] in
  decodeFirst (scanned [] 0) [] d = Ok (VUndefined, started [] d).
Proof.
  intros d.
  apply (C8_decodeFirst_of_nothing (scanned [] 0) [] d 0);
    [cbn; lia | reflexivity | lia].
Defined.



(** C10: in an object or map frame that holds no truthy key, a falsy key
    (the empty string, 0, false, null) that is pushed becomes the pending
    key, and the item pushed next takes its place as the pending key: the
    frame's container gets no entry, so no entry with a falsy key is ever
    inserted: whenever a push does change an object or a map, the pending
    key was truthy, and an entry the container has after the push and had
    not before is the item pushed, under a key that is the pending key and
    is truthy. *)
Theorem C10_falsy_key_is_overwritten d p o k val :
  current d p ->
  p_type p = PARENT_OBJECT \/ p_type p = PARENT_MAP ->
  objects d !! p_ref p = Some o ->
  (p_type p = PARENT_OBJECT -> exists ps, o = HObject ps) ->
  ToBoolean (_tmpKey d) = false ->
  ToBoolean k = false ->
  (exists d1 d2 p2 o2,
      _push k d = Ok (tt, d1) /\ _tmpKey d1 = k
      /\ _push val d1 = Ok (tt, d2) /\ _tmpKey d2 = val
      /\ current d2 p2 /\ objects d2 !! p_ref p2 = Some o2
      /\ entries_of o2 = entries_of o
      /\ objects d2 !! p_ref p = Some o)
  /\ (forall d0 v0 d0' a o0,
        _push v0 d0 = Ok (tt, d0') ->
        objects d0 !! a = Some o0 -> is_keyed o0 = true ->
        objects d0' !! a <> Some o0 ->
        ToBoolean (_tmpKey d0) = true
        /\ exists o',
             objects d0' !! a = Some o' /\ is_keyed o' = true
             /\ forall key x,
                  In (key, x) (entries_of o') ->
                  In (key, x) (entries_of o0)
                  \/ (x = v0 /\ SameValueZero key (_tmpKey d0) = true
                      /\ ToBoolean key = true)).
Proof.
  intros Hp Ht Ho Hobj Hk0 Hk.
  split.
  2:{ intros d0 v0 d0' a o0 Hpush Ha Hkeyed Hne.
      pose proof (push_inserts_under_truthy_key d0 v0 d0' a o0 Hpush Ha Hkeyed Hne)
        as Htrue.
      split; [exact Htrue|].
      destruct (push_stores_under_pending_key d0 v0 d0' a o0 Hpush Ha Hkeyed Hne)
        as [(k0 & ps & ps' & Hkey & -> & Hset & Ha')|(es & -> & Ha')].
      - exists (HObject ps'). split; [exact Ha'|]. split; [reflexivity|].
        intros key x Hin. cbn [entries_of] in *.
        apply in_map_iff in Hin. destruct Hin as ([k1 x1] & E & Hin).
        cbn [fst snd] in E. injection E as <- <-.
        destruct (Object_set_entries _ _ _ _ _ _ Hset Hin) as [Hold|[-> ->]].
        + left. apply in_map_iff. exists (k1, x1). split; [reflexivity|exact Hold].
        + right. split; [reflexivity|]. rewrite Hkey in *. split.
          * apply SameValueZero_refl.
          * exact Htrue.
      - exists (HMap (Map_set (_tmpKey d0) v0 es)). split; [exact Ha'|].
        split; [reflexivity|].
        intros key x Hin. cbn [entries_of] in *.
        destruct (Map_set_entries _ _ _ _ _ Htrue Hin) as [Hold|[-> Hsame]].
        + left. exact Hold.
        + right. split; [reflexivity|]. split; [exact Hsame|].
          exact (SameValueZero_truthy _ _ Hsame Htrue). }
  assert (Hlt : (p_ref p < List.length (objects d))%nat)
    by (eapply lookup_lt_Some; eassumption).
  assert (Hn : (List.length (_parents d) - 1 < List.length (_parents d))%nat)
    by (eapply lookup_lt_Some; exact Hp).
  (* the state a promotion of [p] leaves, with pending key [x] *)
  set (promoted := fun ps x =>
         mkDecoder (_heap d)
           (objects d ++ [HMap (map (fun kv => (VStr (fst kv), snd kv)) ps)])
           (_res d) x
           (<[(List.length (_parents d) - 1)%nat :=
                mkParent PARENT_MAP (p_len p) (p_left p) (p_length p)
                         (List.length (objects d))]> (_parents d))).
  assert (Hcur : forall ps x,
            current (promoted ps x)
              (mkParent PARENT_MAP (p_len p) (p_left p) (p_length p)
                        (List.length (objects d)))).
  { intros ps x. unfold current, promoted. cbn [_parents].
    rewrite length_insert. apply list_lookup_insert_eq. exact Hn. }
  destruct Ht as [Ht|Ht].
  - destruct (Hobj Ht) as [ps ->].
    destruct (is_string k) eqn:Hsk.
    + (* the falsy key is the empty string: the frame stays an object frame *)
      pose proof (_push_key_object d p k Hp Ht Hk0 Hsk) as H1.
      destruct (is_string val) eqn:Hsv.
      * exists (with_tmpKey d k), (with_tmpKey d val), p, (HObject ps).
        repeat split; try assumption.
        apply (_push_key_object (with_tmpKey d k) p val); assumption.
      * exists (with_tmpKey d k), (promoted ps val),
          (mkParent PARENT_MAP (p_len p) (p_left p) (p_length p)
                    (List.length (objects d))),
          (HMap (map (fun kv => (VStr (fst kv), snd kv)) ps)).
        repeat split; try assumption.
        -- apply (_push_key_promote (with_tmpKey d k) p ps val); assumption.
        -- apply Hcur.
        -- apply lookup_last.
        -- unfold promoted. cbn [objects]. now rewrite lookup_app_l.
    + (* a falsy key that is not a string promotes the frame at once *)
      pose proof (_push_key_promote d p ps k Hp Ht Hk0 Hsk Ho) as H1.
      exists (promoted ps k), (promoted ps val),
        (mkParent PARENT_MAP (p_len p) (p_left p) (p_length p)
                  (List.length (objects d))),
        (HMap (map (fun kv => (VStr (fst kv), snd kv)) ps)).
      repeat split; try assumption.
      * rewrite (_push_key_map (promoted ps k) _ val (Hcur ps k) eq_refl Hk).
        unfold with_tmpKey, promoted. reflexivity.
      * apply Hcur.
      * apply lookup_last.
      * unfold promoted. cbn [objects]. now rewrite lookup_app_l.
  - pose proof (_push_key_map d p k Hp Ht Hk0) as H1.
    exists (with_tmpKey d k), (with_tmpKey d val), p, o.
    repeat split; try assumption.
    apply (_push_key_map (with_tmpKey d k) p val); assumption.
Qed.

(** C10 at an object frame with no entry: the key is the empty string,
    the next item is 7. *)
Lemma C10_falsy_key_witness :
  let p := mkParent PARENT_OBJECT None (Some (VNum (of_int 1))) None 1%nat in
  let d := mkDecoder [] [HArray [Some (VRef 1%nat)]; HObject []] 0%nat VNull
             [mkParent PARENT_ARRAY (Some (of_int (-1))) None (Some NaN) 0%nat; p] in
  exists d1 d2 p2 o2,
    _push (VStr []) d = Ok (tt, d1) /\ _tmpKey d1 = VStr []
    /\ _push (VNum (of_int 7)) d1 = Ok (tt, d2) /\ _tmpKey d2 = VNum (of_int 7)
    /\ current d2 p2 /\ objects d2 !! p_ref p2 = Some o2
    /\ entries_of o2 = entries_of (HObject [])
    /\ objects d2 !! p_ref p = Some (HObject []).
Proof.
  intros p d.
  apply (C10_falsy_key_is_overwritten d p (HObject []) (VStr []) (VNum (of_int 7)));
    [ reflexivity | left; reflexivity | reflexivity
    | intros _; exists []; reflexivity | reflexivity | reflexivity ].
Defined.

End Claims.

(** * Further properties of the decoder *)

Section Further.

Implicit Types (d : Decoder) (p : parent) (val : value).

Lemma callback_leaf ev d v :
  leaf (_heap d) ev = Some v -> callback ev d = _push v d.
Proof. destruct ev; cbn [leaf]; intros H; try discriminate H; now injection H as <-. Qed.

(** Leaves pushed into an array frame are appended to its array, in
    order, and the frame stays current. *)
Lemma push_leaves_into_array h evs vs :
  Forall2 (fun ev v => leaf h ev = Some v) evs vs ->
  forall d p es,
    _heap d = h ->
    current d p -> p_type p = PARENT_ARRAY -> unknown_length p ->
    objects d !! p_ref p = Some (HArray es) ->
    exists d',
      callbacks evs d = Ok (tt, d')
      /\ objects d' = <[p_ref p := HArray (es ++ map Some vs)]> (objects d)
      /\ _res d' = _res d
      /\ List.length (_parents d') = List.length (_parents d).
Proof.
  induction 1 as [|ev v evs vs Hev HF IH]; intros d p es Hh Hp Ht Hu Ho.
  - exists d. split; [reflexivity|]. split; [|split; reflexivity].
    cbn [map]. rewrite app_nil_r. symmetry. now apply list_insert_id.
  - assert (Hlt : (p_ref p < List.length (objects d))%nat)
      by (eapply lookup_lt_Some; eassumption).
    assert (Hn : (List.length (_parents d) - 1 < List.length (_parents d))%nat)
      by (eapply lookup_lt_Some; exact Hp).
    pose proof (_push_array d p es v Hp Ht Hu Ho) as Hpush.
    set (d1 := mkDecoder (_heap d)
                 (<[p_ref p := HArray (es ++ [Some v])]> (objects d))
                 (_res d) (_tmpKey d)
                 (<[(List.length (_parents d) - 1)%nat := counted p]> (_parents d)))
      in Hpush.
    destruct (IH d1 (counted p) (es ++ [Some v])) as (d' & Hrun & Hobj & Hres & Hlen).
    + exact Hh.
    + unfold current, d1. cbn [_parents]. rewrite length_insert.
      now apply list_lookup_insert_eq.
    + exact Ht.
    + apply unknown_counted.
    + unfold d1. cbn [objects counted p_ref]. now apply list_lookup_insert_eq.
    + exists d'. split; [|split; [|split]].
      * cbn [callbacks]. unfold bind.
        rewrite (callback_leaf ev d v) by (rewrite Hh; exact Hev).
        rewrite Hpush. exact Hrun.
      * rewrite Hobj. unfold d1. cbn [objects counted p_ref map].
        rewrite list_insert_insert_eq, <- app_assoc. reflexivity.
      * rewrite Hres. reflexivity.
      * rewrite Hlen. unfold d1. cbn [_parents]. apply length_insert.
Qed.

(** X1: several items at top level.  When the scanner's callbacks are all
    leaves, [decodeAll] returns the sequence of their values in order and
    [decodeFirst] the first of them ([undefined] when there is none),
    whatever state earlier calls left in the decoder. *)
Theorem X1_top_level_leaves parser input d evs vs code :
  (List.length input <= List.length (_heap d))%nat ->
  parser (_heap (started input d)) (Z.of_nat (List.length input)) = (evs, code) ->
  code <= 0 ->
  Forall2 (fun ev v => leaf (_heap (started input d)) ev = Some v) evs vs ->
  exists d',
    decodeAll parser input d = Ok (VRef (List.length (objects d)), d')
    /\ objects d' !! List.length (objects d) = Some (HArray (map Some vs))
    /\ decodeFirst parser input d = Ok (hd VUndefined vs, d').
Proof.
  intros Hfit Hscan Hcode HF.
  destruct (push_leaves_into_array _ evs vs HF (started input d)
              (mkParent PARENT_ARRAY (Some (of_int (-1))) None None
                        (List.length (objects d))) [])
    as (d' & Hrun & Hobj & Hres & _).
  { reflexivity. }
  { reflexivity. }
  { reflexivity. }
  { left. reflexivity. }
  { apply lookup_last. }
  cbn [p_ref app] in Hobj. cbn [started objects _res] in Hobj, Hres.
  rewrite insert_last in Hobj.
  assert (Hdec : _decode parser input d = Ok (tt, d')).
  { rewrite (_decode_run parser input d evs code Hfit Hscan), Hrun.
    destruct (Z.ltb_spec 0 code); [lia|reflexivity]. }
  assert (Hroot : objects d' !! List.length (objects d) = Some (HArray (map Some vs))).
  { rewrite Hobj. apply lookup_last. }
  exists d'. split; [|split].
  - unfold decodeAll. unfold bind at 1. rewrite Hdec. run. rewrite Hres. reflexivity.
  - exact Hroot.
  - unfold decodeFirst. unfold bind at 1. rewrite Hdec. run.
    rewrite Hres, Hroot. destruct vs; reflexivity.
Qed.

(** X1 at the two items 1 and 2 (the bytes [01 02]). *)
Lemma X1_top_level_leaves_witness :
  let d := mkDecoder [x00; x00] [] 0%nat VUndefined [] in
  let input := map byte_of [0x01; 0x02] in
  let evs := [EpushInt 1; EpushInt 2] in
  let vs := [VNum (of_int 1); VNum (of_int 2)] in
  exists d',
    decodeAll (scanned evs 0) input d = Ok (VRef (List.length (objects d)), d')
    /\ objects d' !! List.length (objects d) = Some (HArray (map Some vs))
    /\ decodeFirst (scanned evs 0) input d = Ok (hd VUndefined vs, d').
Proof.
  intros d input evs vs.
  apply (X1_top_level_leaves (scanned evs 0) input d evs vs 0);
    [cbn; lia | reflexivity | lia | repeat constructor].
Defined.

(** ** Containers opened at top level *)

Lemma lookup_second {A} (l : list A) (x y : A) :
  (l ++ [x] ++ [y]) !! S (List.length l) = Some y.
Proof.
  rewrite lookup_app_r by lia.
  replace (S (List.length l) - List.length l)%nat with 1%nat by lia. reflexivity.
Qed.

Lemma lookup_first {A} (l : list A) (x y : A) :
  (l ++ [x] ++ [y]) !! List.length l = Some x.
Proof.
  rewrite lookup_app_r by lia. rewrite Nat.sub_diag. reflexivity.
Qed.

Lemma open_array_at_start input d n :
  Z.of_nat n < 2 ^ 32 ->
  pushArrayStartFixed (Z.of_nat n) (started input d) = Ok (tt, array_opened input d n).
Proof.
  intros Hn. set (k := List.length (objects d)).
  unfold pushArrayStartFixed, _createArrayStartFixed. unfold bind at 1.
  rewrite new_Array_holes by assumption.
  unfold _createParent. unfold bind at 1.
  unfold started. cbn [objects _heap _res _tmpKey _parents].
  replace (List.length (objects d ++ [HArray []])) with (S k)
    by (rewrite List.length_app; cbn; lia).
  fold k.
  rewrite (_push_array _ (mkParent PARENT_ARRAY (Some (of_int (-1))) None None k)
             [] (VRef (S k))).
  - run. unfold array_opened. fold k. f_equal. f_equal. f_equal.
    rewrite (insert_app_l _ _ k) by (rewrite List.length_app; cbn; lia).
    unfold k. rewrite insert_last. rewrite <- app_assoc. reflexivity.
  - reflexivity.
  - reflexivity.
  - left. reflexivity.
  - cbn [objects p_ref]. rewrite lookup_app_l by (rewrite List.length_app; cbn; lia).
    apply lookup_last.
Qed.

Lemma open_object_at_start input d len :
  pushObjectStartFixed len (started input d) = Ok (tt, object_opened input d len).
Proof.
  set (k := List.length (objects d)).
  unfold pushObjectStartFixed, _createObjectStartFixed. unfold bind at 1.
  unfold alloc at 1. run.
  unfold _createParent. unfold bind at 1.
  unfold started. cbn [objects _heap _res _tmpKey _parents].
  replace (List.length (objects d ++ [HArray []])) with (S k)
    by (rewrite List.length_app; cbn; lia).
  fold k.
  rewrite (_push_array _ (mkParent PARENT_ARRAY (Some (of_int (-1))) None None k)
             [] (VRef (S k))).
  - run. unfold object_opened. fold k.
    f_equal. f_equal. f_equal.
    rewrite (insert_app_l _ _ k) by (rewrite List.length_app; cbn; lia).
    unfold k. rewrite insert_last. rewrite <- app_assoc. reflexivity.
  - reflexivity.
  - reflexivity.
  - left. reflexivity.
  - cbn [objects p_ref]. rewrite lookup_app_l by (rewrite List.length_app; cbn; lia).
    apply lookup_last.
Qed.

(** X2: the declared length of an array only sizes its holes.  After
    [pushArrayStartFixed n], every leaf the scanner pushes, few or many
    (as long as the array stays below its 2^32 elements), is appended
    behind the [n] holes [new Array(n)] made, and the array's frame is
    still open when the call returns. *)
Theorem X2_array_children parser input d n evs vs code :
  (List.length input <= List.length (_heap d))%nat ->
  Z.of_nat n + Z.of_nat (List.length vs) < 2 ^ 32 ->
  parser (_heap (started input d)) (Z.of_nat (List.length input))
  = (EpushArrayStartFixed (Z.of_nat n) :: evs, code) ->
  code <= 0 ->
  Forall2 (fun ev v => leaf (_heap (started input d)) ev = Some v) evs vs ->
  exists d',
    decodeFirst parser input d = Ok (VRef (S (List.length (objects d))), d')
    /\ objects d' !! S (List.length (objects d))
       = Some (HArray (repeat None n ++ map Some vs))
    /\ List.length (_parents d') = 2%nat.
Proof.
  intros Hfit Hroom Hscan Hcode HF.
  assert (Hn : Z.of_nat n < 2 ^ 32) by lia.
  set (k := List.length (objects d)).
  destruct (push_leaves_into_array _ evs vs HF (array_opened input d n)
              (mkParent PARENT_ARRAY None (Some (VNum (of_int (Z.of_nat n)))) None (S k))
              (repeat None n))
    as (d' & Hrun & Hobj & Hres & Hlen).
  { reflexivity. }
  { reflexivity. }
  { reflexivity. }
  { left. reflexivity. }
  { apply lookup_second. }
  cbn [p_ref array_opened objects _res _parents List.length] in Hobj, Hres, Hlen.
  assert (Hdec : _decode parser input d = Ok (tt, d')).
  { rewrite (_decode_run parser input d _ code Hfit Hscan).
    cbn [callbacks callback]. unfold bind at 1.
    rewrite open_array_at_start by assumption. rewrite Hrun.
    destruct (Z.ltb_spec 0 code); [lia|reflexivity]. }
  exists d'. split; [|split].
  - unfold decodeFirst. unfold bind at 1. rewrite Hdec. run.
    rewrite Hres, Hobj. fold k.
    rewrite list_lookup_insert_ne by lia.
    unfold k. rewrite lookup_first. reflexivity.
  - rewrite Hobj. fold k. apply list_lookup_insert_eq.
    rewrite !List.length_app. cbn. lia.
  - exact Hlen.
Qed.

(** X2 at an array declared with one item and given two (the callbacks
    of [81 05 06]). *)
Lemma X2_array_children_witness :
  let d := mkDecoder [x00; x00; x00] [] 0%nat VUndefined [] in
  let input := map byte_of [0x81; 0x05; 0x06] in
  let evs := [EpushInt 5; EpushInt 6] in
  let vs := [VNum (of_int 5); VNum (of_int 6)] in
  let parser := scanned (EpushArrayStartFixed (Z.of_nat 1) :: evs) 0 in
  exists d',
    decodeFirst parser input d = Ok (VRef (S (List.length (objects d))), d')
    /\ objects d' !! S (List.length (objects d))
       = Some (HArray (repeat None 1 ++ map Some vs))
    /\ List.length (_parents d') = 2%nat.
Proof.
  intros d input evs vs parser.
  apply (X2_array_children parser input d 1%nat evs vs 0);
    [cbn; lia | cbn; lia | reflexivity | lia | repeat constructor].
Defined.

(** ** String-keyed maps *)

Lemma props_mem_false k ps : props_mem k ps = false -> ~ In k (map fst ps).
Proof.
  induction ps as [|[k' v'] ps IH]; cbn [props_mem map fst In]; [tauto|].
  intros H. apply orb_false_iff in H. destruct H as [E H]. intros [->|Hin].
  - rewrite jsstring_eqb_refl in E. discriminate E.
  - exact (IH H Hin).
Qed.

Lemma props_mem_new k ps : ~ In k (map fst ps) -> props_mem k ps = false.
Proof.
  induction ps as [|[k' v'] ps IH]; cbn [props_mem map fst In]; [reflexivity|].
  intros H. apply orb_false_iff. split.
  - destruct (jsstring_eqb k' k) eqn:E; [|reflexivity].
    apply jsstring_eqb_eq in E. tauto.
  - apply IH. tauto.
Qed.

Lemma props_upsert_new k v ps :
  ~ In k (map fst ps) -> array_index k = None ->
  props_upsert k v ps = ps ++ [(k, v)].
Proof.
  intros Hk Hi. unfold props_upsert. rewrite props_mem_new by exact Hk.
  rewrite Hi. reflexivity.
Qed.

(** A leaf is no object. *)
Lemma leaf_primitive h ev v a : leaf h ev = Some v -> v <> VRef a.
Proof.
  destruct ev; cbn [leaf]; intros H; try discriminate H;
    injection H as <-; discriminate.
Qed.

Lemma Object_set_primitive k v ps :
  (forall a, v <> VRef a) -> (k = js "__proto__" -> v <> VNull) ->
  exists ps', Object_set k v ps = Some ps'.
Proof.
  intros Hv Hk. unfold Object_set.
  destruct (jsstring_eqb k (js "__proto__")) eqn:E; [|eexists; reflexivity].
  apply jsstring_eqb_eq in E. specialize (Hk E).
  destruct v; try (eexists; reflexivity); [contradiction|].
  exfalso. exact (Hv _ eq_refl).
Qed.

(** Distinct keys, none of them [__proto__] or an array index, are kept in
    order. *)
Lemma assign_all_distinct rs ps :
  NoDup (map fst ps ++ map fst rs) ->
  Forall (fun r => fst r <> js "__proto__" /\ array_index (fst r) = None) rs ->
  assign_all rs ps = Some (ps ++ rs).
Proof.
  revert ps. induction rs as [|[k v] rs IH]; intros ps Hnd Hp.
  - cbn. now rewrite app_nil_r.
  - cbn [assign_all].
    inversion Hp as [|? ? [Hk Hi] Hp']; subst. cbn [fst] in Hk, Hi.
    unfold Object_set. destruct (jsstring_eqb k (js "__proto__")) eqn:E.
    { apply jsstring_eqb_eq in E. contradiction. }
    assert (Hnew : ~ In k (map fst ps)).
    { intros Hin. cbn [map fst] in Hnd. apply NoDup_app in Hnd.
      destruct Hnd as (_ & Hdis & _). apply (Hdis k).
      - apply list_elem_of_In. exact Hin.
      - apply list_elem_of_In. left. reflexivity. }
    rewrite props_upsert_new by assumption.
    rewrite IH.
    + rewrite <- app_assoc. reflexivity.
    + rewrite map_app. cbn [map fst]. rewrite <- app_assoc. exact Hnd.
    + exact Hp'.
Qed.

(** Pairs pushed into an object frame that holds no key: each key, a
    string that is not empty, is held until its value comes and the pair is
    assigned. *)
Lemma push_pairs_into_object h kvs rs :
  Forall2 (keyed_pair h) kvs rs ->
  forall d p ps,
    _heap d = h ->
    current d p -> p_type p = PARENT_OBJECT -> unknown_length p ->
    ToBoolean (_tmpKey d) = false ->
    objects d !! p_ref p = Some (HObject ps) ->
    exists d' ps',
      callbacks (pair_events kvs) d = Ok (tt, d')
      /\ assign_all rs ps = Some ps'
      /\ objects d' = <[p_ref p := HObject ps']> (objects d)
      /\ _res d' = _res d
      /\ ToBoolean (_tmpKey d') = false.
Proof.
  induction 1 as [|[[s e] ev] [k v] kvs rs Hkv HF IH];
    intros d p ps Hh Hp Ht Hu Hk Ho.
  - exists d, ps. split; [reflexivity|]. split; [reflexivity|].
    split; [|split; [reflexivity|exact Hk]].
    symmetry. now apply list_insert_id.
  - unfold keyed_pair in Hkv. cbn [fst snd] in Hkv.
    destruct Hkv as (Hkey & Hne & Hleaf & Hproto).
    assert (Hlt : (p_ref p < List.length (objects d))%nat)
      by (eapply lookup_lt_Some; eassumption).
    assert (Hn : (List.length (_parents d) - 1 < List.length (_parents d))%nat)
      by (eapply lookup_lt_Some; exact Hp).
    assert (Htrue : ToBoolean (VStr k) = true) by (destruct k; [contradiction|reflexivity]).
    destruct (Object_set_primitive k v ps) as [ps1 Hset].
    { intros a. exact (leaf_primitive h ev v a Hleaf). }
    { exact Hproto. }
    pose proof (_push_key_object d p (VStr k) Hp Ht Hk eq_refl) as H1.
    pose proof (_push_value_object (with_tmpKey d (VStr k)) p ps ps1 k v
                  Hp Ht Hu eq_refl Htrue Ho Hset) as H2.
    cbn [with_tmpKey _heap objects _res _parents] in H2.
    set (d2 := mkDecoder (_heap d)
                 (<[p_ref p := HObject ps1]> (objects d))
                 (_res d) VNull
                 (<[(List.length (_parents d) - 1)%nat := counted p]> (_parents d)))
      in H2.
    destruct (IH d2 (counted p) ps1) as (d' & ps' & Hrun & Hall & Hobj & Hres & Hk').
    + exact Hh.
    + unfold current, d2. cbn [_parents]. rewrite length_insert.
      now apply list_lookup_insert_eq.
    + exact Ht.
    + apply unknown_counted.
    + reflexivity.
    + unfold d2. cbn [objects counted p_ref]. now apply list_lookup_insert_eq.
    + exists d', ps'. split; [|split; [|split; [|split]]].
      * cbn [pair_events flat_map fst snd app callbacks].
        fold (pair_events kvs). unfold bind.
        assert (Hcb1 : callback (EpushUtf8String s e) d = _push (VStr k) d).
        { cbn [callback]. unfold pushUtf8String, bind, get. rewrite Hh, <- Hkey.
          reflexivity. }
        rewrite Hcb1, H1.
        rewrite (callback_leaf ev (with_tmpKey d (VStr k)) v)
          by (cbn [with_tmpKey _heap]; rewrite Hh; exact Hleaf).
        rewrite H2. exact Hrun.
      * cbn [assign_all]. rewrite Hset. exact Hall.
      * rewrite Hobj. unfold d2. cbn [objects counted p_ref].
        rewrite list_insert_insert_eq. reflexivity.
      * rewrite Hres. reflexivity.
      * exact Hk'.
Qed.

Lemma decode_string_keyed parser input d len kvs rs code :
  (List.length input <= List.length (_heap d))%nat ->
  parser (_heap (started input d)) (Z.of_nat (List.length input))
  = (EpushObjectStartFixed len :: pair_events kvs, code) ->
  code <= 0 ->
  Forall2 (keyed_pair (_heap (started input d))) kvs rs ->
  exists d' ps,
    decodeFirst parser input d = Ok (VRef (S (List.length (objects d))), d')
    /\ objects d' !! S (List.length (objects d)) = Some (HObject ps)
    /\ assign_all rs [] = Some ps.
Proof.
  intros Hfit Hscan Hcode HF.
  set (k := List.length (objects d)).
  destruct (push_pairs_into_object _ kvs rs HF (object_opened input d len)
              (mkParent PARENT_OBJECT None (Some (VNum (of_int len))) None (S k)) [])
    as (d' & ps & Hrun & Hall & Hobj & Hres & _).
  { reflexivity. }
  { reflexivity. }
  { reflexivity. }
  { left. reflexivity. }
  { reflexivity. }
  { apply lookup_second. }
  cbn [p_ref object_opened objects _res] in Hobj, Hres.
  assert (Hdec : _decode parser input d = Ok (tt, d')).
  { rewrite (_decode_run parser input d _ code Hfit Hscan).
    cbn [callbacks callback]. unfold bind at 1.
    rewrite open_object_at_start. rewrite Hrun.
    destruct (Z.ltb_spec 0 code); [lia|reflexivity]. }
  exists d', ps. split; [|split].
  - unfold decodeFirst. unfold bind at 1. rewrite Hdec. run.
    rewrite Hres, Hobj. fold k.
    rewrite list_lookup_insert_ne by lia.
    unfold k. rewrite lookup_first. reflexivity.
  - rewrite Hobj. fold k. apply list_lookup_insert_eq.
    rewrite !List.length_app. cbn. lia.
  - exact Hall.
Qed.

(** X3: a map whose keys are all strings that are not empty, with leaf
    values (and no [null] under the key [__proto__]), decodes to a plain
    object built by assigning every pair in the order of the encoding; with
    distinct keys, none of them [__proto__] or an array index, the object
    lists exactly the pairs, in that order.  The declared length plays no
    part. *)
Theorem X3_string_keyed_object parser input d len kvs rs code :
  (List.length input <= List.length (_heap d))%nat ->
  parser (_heap (started input d)) (Z.of_nat (List.length input))
  = (EpushObjectStartFixed len :: pair_events kvs, code) ->
  code <= 0 ->
  Forall2 (keyed_pair (_heap (started input d))) kvs rs ->
  exists d' ps,
    decodeFirst parser input d = Ok (VRef (S (List.length (objects d))), d')
    /\ objects d' !! S (List.length (objects d)) = Some (HObject ps)
    /\ assign_all rs [] = Some ps
    /\ (NoDup (map fst rs) ->
        Forall (fun r => fst r <> js "__proto__" /\ array_index (fst r) = None) rs ->
        ps = rs).
Proof.
  intros Hfit Hscan Hcode HF.
  destruct (decode_string_keyed parser input d len kvs rs code Hfit Hscan Hcode HF)
    as (d' & ps & Hret & Hobj & Hall).
  exists d', ps. split; [exact Hret|]. split; [exact Hobj|]. split; [exact Hall|].
  intros Hnd Hp. rewrite (assign_all_distinct rs []) in Hall by assumption.
  injection Hall as <-. reflexivity.
Qed.

(** X3 at the map with the pairs "b": 1 and "a": 2 (the bytes
    [A2 61 62 01 61 61 02]). *)
Lemma X3_string_keyed_object_witness :
  let d := mkDecoder (repeat x00 7) [] 0%nat VUndefined [] in
  let input := map byte_of [0xA2; 0x61; 0x62; 0x01; 0x61; 0x61; 0x02] in
  let kvs := [(2, 2, EpushInt 1); (5, 5, EpushInt 2)] in
  let rs := [(js "b", VNum (of_int 1)); (js "a", VNum (of_int 2))] in
  let parser := scanned (EpushObjectStartFixed 2 :: pair_events kvs) 0 in
  exists d' ps,
    decodeFirst parser input d = Ok (VRef (S (List.length (objects d))), d')
    /\ objects d' !! S (List.length (objects d)) = Some (HObject ps)
    /\ assign_all rs [] = Some ps
    /\ (NoDup (map fst rs) ->
        Forall (fun r => fst r <> js "__proto__" /\ array_index (fst r) = None) rs ->
        ps = rs).
Proof.
  intros d input kvs rs parser.
  apply (X3_string_keyed_object parser input d 2 kvs rs 0);
    [cbn; lia | reflexivity | lia |].
  constructor; [|constructor; [|constructor]];
    (split; [vm_compute; reflexivity|]; split; [discriminate|];
     split; [reflexivity|discriminate]).
Defined.

(** ** The entries of a decoded object *)

Lemma props_mem_none k ps : props_mem k ps = false -> own_property k ps = None.
Proof.
  induction ps as [|[k' v'] ps IH]; cbn [props_mem own_property]; [reflexivity|].
  intros H. apply orb_false_iff in H. destruct H as [-> H]. exact (IH H).
Qed.

Lemma own_property_replace key k v ps :
  props_mem k ps = true ->
  own_property key (props_replace k v ps)
  = if jsstring_eqb k key then Some v else own_property key ps.
Proof.
  induction ps as [|[k' v'] ps IH]; cbn [props_mem props_replace own_property];
    [discriminate|].
  destruct (jsstring_eqb k' k) eqn:E; cbn [orb own_property].
  - intros _. apply jsstring_eqb_eq in E. subst k'.
    destruct (jsstring_eqb k key); reflexivity.
  - intros Hmem. destruct (jsstring_eqb k' key) eqn:E2; [|exact (IH Hmem)].
    apply jsstring_eqb_eq in E2. subst k'.
    destruct (jsstring_eqb k key) eqn:E3; [|reflexivity].
    apply jsstring_eqb_eq in E3. subst k. rewrite jsstring_eqb_refl in E.
    discriminate E.
Qed.

Lemma own_property_insert_index key n k v ps :
  props_mem k ps = false ->
  own_property key (props_insert_index n k v ps)
  = if jsstring_eqb k key then Some v else own_property key ps.
Proof.
  induction ps as [|[k' v'] ps IH]; cbn [props_mem props_insert_index own_property];
    [reflexivity|].
  intros H. apply orb_false_iff in H. destruct H as [E H].
  destruct (array_index k') as [n'|]; [destruct (n' <? n)|]; cbn [own_property];
    try reflexivity.
  destruct (jsstring_eqb k' key) eqn:E2; [|exact (IH H)].
  apply jsstring_eqb_eq in E2. subst k'.
  destruct (jsstring_eqb k key) eqn:E3; [|reflexivity].
  apply jsstring_eqb_eq in E3. subst k. rewrite jsstring_eqb_refl in E.
  discriminate E.
Qed.

Lemma own_property_last key l k v :
  own_property key (l ++ [(k, v)])
  = match own_property key l with
    | Some x => Some x
    | None => if jsstring_eqb k key then Some v else None
    end.
Proof.
  induction l as [|[k' v'] l IH]; cbn [app own_property]; [reflexivity|].
  destruct (jsstring_eqb k' key); [reflexivity|exact IH].
Qed.

Lemma own_property_upsert key k v ps :
  own_property key (props_upsert k v ps)
  = if jsstring_eqb k key then Some v else own_property key ps.
Proof.
  unfold props_upsert. destruct (props_mem k ps) eqn:Hmem.
  - apply own_property_replace. exact Hmem.
  - destruct (array_index k) as [n|].
    + apply own_property_insert_index. exact Hmem.
    + rewrite own_property_last.
      destruct (jsstring_eqb k key) eqn:E.
      * apply jsstring_eqb_eq in E. subst key.
        rewrite (props_mem_none k ps Hmem). reflexivity.
      * destruct (own_property key ps); reflexivity.
Qed.

Lemma own_property_set key k v ps ps' :
  Object_set k v ps = Some ps' ->
  jsstring_eqb key (js "__proto__") = false ->
  own_property key ps'
  = if jsstring_eqb k key then Some v else own_property key ps.
Proof.
  intros Hset Hkey. unfold Object_set in Hset.
  destruct (jsstring_eqb k (js "__proto__")) eqn:E.
  - apply jsstring_eqb_eq in E. subst k.
    assert (ps' = ps) by (destruct v; congruence). subst ps'.
    destruct (jsstring_eqb (js "__proto__") key) eqn:E2; [|reflexivity].
    apply jsstring_eqb_eq in E2. subst key. rewrite jsstring_eqb_refl in Hkey.
    discriminate Hkey.
  - injection Hset as <-. apply own_property_upsert.
Qed.

Lemma own_property_proto k v ps ps' :
  Object_set k v ps = Some ps' ->
  own_property (js "__proto__") ps' = own_property (js "__proto__") ps.
Proof.
  intros Hset. unfold Object_set in Hset.
  destruct (jsstring_eqb k (js "__proto__")) eqn:E.
  - destruct v; congruence.
  - injection Hset as <-. rewrite own_property_upsert, E. reflexivity.
Qed.

(** Reading a key other than [__proto__] gives the value of its last
    assignment. *)
Lemma own_property_assign_all key rs ps ps' :
  assign_all rs ps = Some ps' ->
  jsstring_eqb key (js "__proto__") = false ->
  own_property key ps'
  = match own_property key (rev rs) with
    | Some x => Some x
    | None => own_property key ps
    end.
Proof.
  intros Hall Hkey. revert ps Hall.
  induction rs as [|[k v] rs IH]; intros ps Hall.
  - injection Hall as <-. reflexivity.
  - cbn [assign_all] in Hall.
    destruct (Object_set k v ps) as [ps1|] eqn:Hset; [|discriminate Hall].
    rewrite (IH ps1 Hall). cbn [rev]. rewrite own_property_last.
    destruct (own_property key (rev rs)); [reflexivity|].
    rewrite (own_property_set key k v ps ps1 Hset Hkey).
    destruct (jsstring_eqb k key); reflexivity.
Qed.

Lemma own_property_assign_all_proto rs ps ps' :
  assign_all rs ps = Some ps' ->
  own_property (js "__proto__") ps' = own_property (js "__proto__") ps.
Proof.
  revert ps. induction rs as [|[k v] rs IH]; intros ps Hall.
  - injection Hall as <-. reflexivity.
  - cbn [assign_all] in Hall.
    destruct (Object_set k v ps) as [ps1|] eqn:Hset; [|discriminate Hall].
    rewrite (IH ps1 Hall). exact (own_property_proto k v ps ps1 Hset).
Qed.

Lemma props_replace_keys k v ps : map fst (props_replace k v ps) = map fst ps.
Proof.
  induction ps as [|[k' v'] ps IH]; cbn [props_replace map fst]; [reflexivity|].
  destruct (jsstring_eqb k' k); cbn [map fst]; [reflexivity|]. now rewrite IH.
Qed.

Lemma props_insert_index_keys_in x n k v ps :
  In x (map fst (props_insert_index n k v ps)) -> x = k \/ In x (map fst ps).
Proof.
  induction ps as [|[k' v'] ps IH]; cbn [props_insert_index map fst In].
  - intros [E|[]]. left. symmetry. exact E.
  - destruct (array_index k') as [n'|]; [destruct (n' <? n)|]; cbn [map fst In].
    + intros [E|Hin]; [right; left; exact E|].
      destruct (IH Hin) as [->|H']; [left; reflexivity|right; right; exact H'].
    + intros [E|Hin]; [left; symmetry; exact E|right; exact Hin].
    + intros [E|Hin]; [left; symmetry; exact E|right; exact Hin].
Qed.

Lemma props_insert_index_keys n k v ps :
  props_mem k ps = false ->
  NoDup (map fst ps) -> NoDup (map fst (props_insert_index n k v ps)).
Proof.
  induction ps as [|[k' v'] ps IH]; cbn [props_mem props_insert_index map fst];
    intros Hmem Hnd.
  - constructor; [apply not_elem_of_nil|constructor].
  - apply orb_false_iff in Hmem. destruct Hmem as [E Hmem].
    assert (Hnew : k ∉ k' :: map fst ps).
    { intros Hin. apply list_elem_of_In in Hin. destruct Hin as [->|Hin].
      - rewrite jsstring_eqb_refl in E. discriminate E.
      - exact (props_mem_false k ps Hmem Hin). }
    inversion Hnd as [|? ? Hnot Hnd']; subst.
    destruct (array_index k') as [n'|]; [destruct (n' <? n)|]; cbn [map fst];
      try (constructor; assumption).
    constructor; [|apply IH; assumption].
    intros Hin. apply list_elem_of_In, props_insert_index_keys_in in Hin.
    destruct Hin as [->|Hin].
    + rewrite jsstring_eqb_refl in E. discriminate E.
    + apply Hnot. apply list_elem_of_In. exact Hin.
Qed.

Lemma props_upsert_keys k v ps :
  NoDup (map fst ps) -> NoDup (map fst (props_upsert k v ps)).
Proof.
  intros Hnd. unfold props_upsert. destruct (props_mem k ps) eqn:Hmem.
  - rewrite props_replace_keys. exact Hnd.
  - destruct (array_index k) as [n|].
    + apply props_insert_index_keys; assumption.
    + rewrite map_app. cbn [map fst]. apply NoDup_app. split; [exact Hnd|].
      split; [|constructor; [apply not_elem_of_nil|constructor]].
      intros x Hx Hx'. apply list_elem_of_In in Hx, Hx'. destruct Hx' as [<-|[]].
      exact (props_mem_false k ps Hmem Hx).
Qed.

Lemma assign_all_keys rs ps ps' :
  assign_all rs ps = Some ps' ->
  NoDup (map fst ps) -> NoDup (map fst ps').
Proof.
  revert ps. induction rs as [|[k v] rs IH]; intros ps Hall Hnd.
  - injection Hall as <-. exact Hnd.
  - cbn [assign_all] in Hall.
    destruct (Object_set k v ps) as [ps1|] eqn:Hset; [|discriminate Hall].
    apply (IH ps1 Hall). unfold Object_set in Hset.
    destruct (jsstring_eqb k (js "__proto__")).
    + assert (ps1 = ps) by (destruct v; congruence). subst ps1. exact Hnd.
    + injection Hset as <-. apply props_upsert_keys. exact Hnd.
Qed.

(** X4: the entries of a decoded string-keyed map (keys not empty, leaf
    values, no [null] under the key [__proto__]).  The object [decodeFirst]
    returns has each key once; reading a key gives the value of the last
    pair the encoding has for it; and a pair whose key is [__proto__]
    leaves no property of the object's own. *)
Theorem X4_object_entries parser input d len kvs rs code :
  (List.length input <= List.length (_heap d))%nat ->
  parser (_heap (started input d)) (Z.of_nat (List.length input))
  = (EpushObjectStartFixed len :: pair_events kvs, code) ->
  code <= 0 ->
  Forall2 (keyed_pair (_heap (started input d))) kvs rs ->
  exists d' ps,
    decodeFirst parser input d = Ok (VRef (S (List.length (objects d))), d')
    /\ objects d' !! S (List.length (objects d)) = Some (HObject ps)
    /\ NoDup (map fst ps)
    /\ forall key,
         own_property key ps
         = if jsstring_eqb key (js "__proto__") then None
           else own_property key (rev rs).
Proof.
  intros Hfit Hscan Hcode HF.
  destruct (decode_string_keyed parser input d len kvs rs code Hfit Hscan Hcode HF)
    as (d' & ps & Hret & Hobj & Hall).
  exists d', ps. split; [exact Hret|]. split; [exact Hobj|]. split.
  - apply (assign_all_keys rs [] ps Hall). constructor.
  - intros key. destruct (jsstring_eqb key (js "__proto__")) eqn:E.
    + apply jsstring_eqb_eq in E. subst key.
      apply (own_property_assign_all_proto rs [] ps Hall).
    + rewrite (own_property_assign_all key rs [] ps Hall E).
      destruct (own_property key (rev rs)); reflexivity.
Qed.

(** X4 at the map with the pairs "a": 1, "__proto__": 5 and "a": 2 (the
    bytes [A3 61 61 01 69 5F 5F 70 72 6F 74 6F 5F 5F 05 61 61 02]). *)
Lemma X4_object_entries_witness :
  let d := mkDecoder (repeat x00 18) [] 0%nat VUndefined [] in
  let input := map byte_of [0xA3; 0x61; 0x61; 0x01;
                            0x69; 0x5F; 0x5F; 0x70; 0x72; 0x6F; 0x74; 0x6F; 0x5F; 0x5F;
                            0x05; 0x61; 0x61; 0x02] in
  let kvs := [(2, 2, EpushInt 1); (5, 13, EpushInt 5); (16, 16, EpushInt 2)] in
  let rs := [(js "a", VNum (of_int 1)); (js "__proto__", VNum (of_int 5));
             (js "a", VNum (of_int 2))] in
  let parser := scanned (EpushObjectStartFixed 3 :: pair_events kvs) 0 in
  exists d' ps,
    decodeFirst parser input d = Ok (VRef (S (List.length (objects d))), d')
    /\ objects d' !! S (List.length (objects d)) = Some (HObject ps)
    /\ NoDup (map fst ps)
    /\ forall key,
         own_property key ps
         = if jsstring_eqb key (js "__proto__") then None
           else own_property key (rev rs).
Proof.
  intros d input kvs rs parser.
  apply (X4_object_entries parser input d 3 kvs rs 0);
    [cbn; lia | reflexivity | lia |].
  constructor; [|constructor; [|constructor; [|constructor]]];
    (split; [vm_compute; reflexivity|]; split; [discriminate|];
     split; [reflexivity|discriminate]).
Defined.

(** ** Strings *)

(** Inside the input, a slice of the shared heap is a slice of the input:
    what follows the input in the heap plays no part. *)
Lemma slice_of_input (input tail : list byte) (start stop : Z) :
  0 <= start <= stop -> stop < Z.of_nat (List.length input) ->
  ArrayBuffer_slice (input ++ tail) start (stop + 1)
  = firstn (Z.to_nat (stop - start + 1)) (skipn (Z.to_nat start) input).
Proof.
  intros Hs He. unfold ArrayBuffer_slice.
  rewrite List.length_app, Nat2Z.inj_add.
  destruct (Z.ltb_spec start 0); [lia|].
  destruct (Z.ltb_spec (stop + 1) 0); [lia|].
  rewrite !Z.min_l by lia.
  replace (stop + 1 - start) with (stop - start + 1) by lia.
  rewrite List.skipn_app.
  replace (Z.to_nat start - List.length input)%nat with 0%nat by lia.
  cbn [skipn]. rewrite List.firstn_app.
  replace (Z.to_nat (stop - start + 1) - List.length (skipn (Z.to_nat start) input))%nat
    with 0%nat by (rewrite List.length_skipn; lia).
  cbn [firstn]. apply app_nil_r.
Qed.

(** X5: a byte string decodes to an [ArrayBuffer] holding exactly the bytes
    [start .. stop] (both included) of the input, and a text string to the
    runtime's UTF-8 decoding of exactly those bytes, whatever surrounds
    them in the input and whatever earlier inputs left in the heap. *)
Theorem X5_string_extraction input d start stop :
  (List.length input <= List.length (_heap d))%nat ->
  0 <= start <= stop -> stop < Z.of_nat (List.length input) ->
  let bytes := firstn (Z.to_nat (stop - start + 1)) (skipn (Z.to_nat start) input) in
  (exists d',
      decodeFirst (scanned [EpushByteString start stop] 0) input d
      = Ok (VRef (S (List.length (objects d))), d')
      /\ objects d' !! S (List.length (objects d)) = Some (HArrayBuffer bytes))
  /\ decodeFirst (scanned [EpushUtf8String start stop] 0) input d
     = Ok (VStr (toString_utf8 bytes),
           first_pushed input d (VStr (toString_utf8 bytes))).
Proof.
  intros Hfit Hs He bytes. split.
  - set (k := List.length (objects d)).
    set (d' := mkDecoder (input ++ skipn (List.length input) (_heap d))
                 (objects d ++ [HArray [Some (VRef (S k))]] ++ [HArrayBuffer bytes])
                 k VNull
                 [mkParent PARENT_ARRAY (Some (of_int (-1))) None (Some NaN) k]).
    assert (Hcb : pushByteString start stop (started input d) = Ok (tt, d')).
    { unfold pushByteString. unfold bind at 1. unfold get at 1.
      unfold bind at 1. unfold alloc at 1. run.
      unfold started. cbn [objects _heap _res _tmpKey _parents].
      rewrite slice_of_input by assumption. fold bytes.
      replace (List.length (objects d ++ [HArray []])) with (S k)
        by (rewrite List.length_app; cbn; lia).
      fold k.
      rewrite (_push_array _ (mkParent PARENT_ARRAY (Some (of_int (-1))) None None k)
                 [] (VRef (S k))).
      - run. unfold d'. f_equal. f_equal. f_equal.
        rewrite (insert_app_l _ _ k) by (rewrite List.length_app; cbn; lia).
        unfold k. rewrite insert_last. rewrite <- app_assoc. reflexivity.
      - reflexivity.
      - reflexivity.
      - left. reflexivity.
      - cbn [objects p_ref].
        rewrite lookup_app_l by (rewrite List.length_app; cbn; lia).
        apply lookup_last. }
    assert (Hdec : _decode (scanned [EpushByteString start stop] 0) input d
                   = Ok (tt, d')).
    { rewrite (_decode_run _ input d [EpushByteString start stop] 0 Hfit eq_refl).
      cbn [callbacks callback]. unfold bind at 1. rewrite Hcb. reflexivity. }
    exists d'. split.
    + unfold decodeFirst. unfold bind at 1. rewrite Hdec. run.
      unfold d'. cbn [_res objects]. unfold k. rewrite lookup_first. reflexivity.
    + unfold d'. cbn [objects]. apply lookup_second.
  - apply (decodeFirst_leaf _ input d (EpushUtf8String start stop) 0);
      [assumption | reflexivity | lia |].
    cbn [callback]. unfold pushUtf8String, bind, get.
    unfold started at 1 2. cbn [_heap].
    rewrite slice_of_input by assumption. reflexivity.
Qed.

(** X5 at the two bytes [68 69] behind a one-byte header, in a decoder
    whose heap still holds an earlier input. *)
Lemma X5_string_extraction_witness :
  let d := mkDecoder (map byte_of [0x01; 0x02; 0x03; 0x04; 0x05]) [] 0%nat
             VUndefined [] in
  let input := map byte_of [0x42; 0x68; 0x69] in
  let bytes := firstn (Z.to_nat (2 - 1 + 1)) (skipn (Z.to_nat 1) input) in
  (exists d',
      decodeFirst (scanned [EpushByteString 1 2] 0) input d
      = Ok (VRef (S (List.length (objects d))), d')
      /\ objects d' !! S (List.length (objects d)) = Some (HArrayBuffer bytes))
  /\ decodeFirst (scanned [EpushUtf8String 1 2] 0) input d
     = Ok (VStr (toString_utf8 bytes),
           first_pushed input d (VStr (toString_utf8 bytes))).
Proof.
  intros d input.
  apply (X5_string_extraction input d 1 2); [cbn; lia | lia | cbn; lia].
Defined.

(** ** Capacity *)

(** X6: an input longer than the decoder's heap makes [decodeFirst] and
    [decodeAll] raise a RangeError, the one of the copy into the heap,
    whatever the input encodes and whatever the scanner would answer: it
    does not run. *)
Theorem X6_capacity parser input d :
  (List.length (_heap d) < List.length input)%nat ->
  decodeFirst parser input d = Throw RangeError
  /\ decodeAll parser input d = Throw RangeError.
Proof.
  intros Hlong. pose proof (decode_too_long parser input d Hlong) as H.
  split; apply bind_raises, H.
Qed.

(** X6 at an input of three bytes and a heap of two. *)
Lemma X6_capacity_witness :
  let d := mkDecoder [x00; x00] [] 0%nat VUndefined [] in
  let input := map byte_of [0x82; 0x01; 0x02] in
  let parser := scanned [EpushArrayStartFixed 2; EpushInt 1; EpushInt 2] 0 in
  decodeFirst parser input d = Throw RangeError
  /\ decodeAll parser input d = Throw RangeError.
Proof.
  intros d input parser. apply (X6_capacity parser input d). cbn. lia.
Defined.

(** The decoder made with no size has a heap of 0x10000 bytes. *)
Lemma new_Decoder_default :
  exists dec,
    new_Decoder None = Ok (tt, dec)
    /\ List.length (_heap dec) = Z.to_nat 0x10000.
Proof.
  unfold new_Decoder, new_ArrayBuffer, _reset.
  change (0x10000 <=? 2 ^ 31 - 1) with true. cbv iota. run.
  eexists. split; [reflexivity|]. cbn [_heap]. apply repeat_length.
Qed.

(** X7: the static [Decoder.decode] and [Decoder.decodeAll] make their
    decoder with no size, so an input of more than 0x10000 bytes makes
    them raise a RangeError, whatever it encodes. *)
Theorem X7_static_decode_limit parser input :
  0x10000 < Z.of_nat (List.length input) ->
  Decoder_decode parser input = Throw RangeError
  /\ Decoder_decodeAll parser input = Throw RangeError.
Proof.
  intros Hlong. destruct new_Decoder_default as (dec & E & Hlen).
  assert (H : _decode parser input dec = Throw RangeError).
  { apply decode_too_long. rewrite Hlen. lia. }
  unfold Decoder_decode, Decoder_decodeAll. rewrite E.
  split; apply bind_raises, H.
Qed.

(** X7 at an input of 0x10001 zero bytes. *)
Lemma X7_static_decode_limit_witness :
  let input := repeat x00 (Z.to_nat 0x10001) in
  Decoder_decode (scanned [] 0) input = Throw RangeError
  /\ Decoder_decodeAll (scanned [] 0) input = Throw RangeError.
Proof.
  intros input. apply (X7_static_decode_limit (scanned [] 0) input).
  unfold input. rewrite repeat_length. lia.
Defined.

(** ** Depth *)

(** X10: no frame is ever removed.  When [decodeAll] returns, the frame
    stack holds the root and one frame for every container the scanner
    opened, whatever lengths were declared and however many children
    came. *)
Theorem X10_depth_counts_opened_containers parser input d evs code v d' :
  (List.length input <= List.length (_heap d))%nat ->
  parser (_heap (started input d)) (Z.of_nat (List.length input)) = (evs, code) ->
  decodeAll parser input d = Ok (v, d') ->
  List.length (_parents d') = S (List.length (List.filter opens evs)).
Proof.
  intros Hfit Hscan H. unfold decodeAll in H. unfold bind at 1 in H.
  destruct (_decode parser input d) as [[[] d1]| |] eqn:Hdec; try discriminate H.
  run. injection H as <- <-.
  exact (decode_never_closes parser input d evs code d1 Hfit Hscan Hdec).
Qed.

(** X10 at two arrays, each declared and given one item in full (the
    callbacks of [81 81 05]). *)
Lemma X10_depth_counts_opened_containers_witness :
  let d := mkDecoder [x00; x00; x00] [] 0%nat VUndefined [] in
  let input := map byte_of [0x81; 0x81; 0x05] in
  let evs := [EpushArrayStartFixed 1; EpushArrayStartFixed 1; EpushInt 5] in
  exists v d',
    decodeAll (scanned evs 0) input d = Ok (v, d')
    /\ List.length (_parents d') = S (List.length (List.filter opens evs)).
Proof.
  intros d input evs.
  destruct (decodeAll (scanned evs 0) input d) as [[v d']| |] eqn:H;
    [|vm_compute in H; discriminate H..].
  exists v, d'. split; [reflexivity|].
  apply (X10_depth_counts_opened_containers (scanned evs 0) input d evs 0 v d');
    [cbn; lia | reflexivity | exact H].
Defined.

(** ** Array lengths *)

(** X8: an array opened with a length that is negative, or 2^32 or more,
    makes the decode call raise the RangeError of [new Array(len)]; the
    callbacks after it are not run. *)
Theorem X8_invalid_array_length parser input d len evs code :
  (List.length input <= List.length (_heap d))%nat ->
  parser (_heap (started input d)) (Z.of_nat (List.length input))
  = (EpushArrayStartFixed len :: evs, code) ->
  - 2 ^ 53 < len < 0 \/ 2 ^ 32 <= len < 2 ^ 53 ->
  decodeFirst parser input d = Throw RangeError
  /\ decodeAll parser input d = Throw RangeError.
Proof.
  intros Hfit Hscan Hlen.
  assert (H : _decode parser input d = Throw RangeError).
  { rewrite (_decode_run parser input d _ code Hfit Hscan).
    cbn [callbacks callback]. unfold bind at 1.
    unfold pushArrayStartFixed, _createArrayStartFixed. unfold bind at 1.
    unfold new_Array. rewrite to_int_of_int by lia.
    destruct (Z.leb_spec 0 len); destruct (Z.ltb_spec len (2 ^ 32));
      try lia; reflexivity. }
  split; apply bind_raises, H.
Qed.

(** X8 at an array opened with the length 2^32. *)
Lemma X8_invalid_array_length_witness :
  let d := mkDecoder [x00; x00] [] 0%nat VUndefined [] in
  let input := map byte_of [0x01] in
  let parser := scanned [EpushArrayStartFixed (2 ^ 32); EpushInt 1] 0 in
  decodeFirst parser input d = Throw RangeError
  /\ decodeAll parser input d = Throw RangeError.
Proof.
  intros d input parser.
  apply (X8_invalid_array_length parser input d (2 ^ 32) [EpushInt 1] 0);
    [cbn; lia | reflexivity | lia].
Defined.

(** ** 32-bit integers *)

(** X14: with 16-bit fragments [f] and [g] (and [utils.buildInt32] as the
    spec has it), [pushInt32] pushes the number f * 2^16 + g and
    [pushInt32Neg] the number -1 - (f * 2^16 + g), both exactly. *)
Theorem X14_pushInt32_values (f g : Z) :
  0 <= f < 2 ^ 16 -> 0 <= g < 2 ^ 16 ->
  pushInt32 f g = _push (VNum (of_int (f * 2 ^ 16 + g)))
  /\ pushInt32Neg f g = _push (VNum (of_int (-1 - (f * 2 ^ 16 + g))))
  /\ to_int (of_int (f * 2 ^ 16 + g)) = f * 2 ^ 16 + g
  /\ to_int (of_int (-1 - (f * 2 ^ 16 + g))) = -1 - (f * 2 ^ 16 + g).
Proof.
  intros Hf Hg. unfold pushInt32, pushInt32Neg.
  rewrite !buildInt32_exact by assumption.
  rewrite of_int_sub by lia.
  repeat split; apply to_int_of_int; lia.
Qed.

(** X14 at the largest fragments. *)
Lemma X14_pushInt32_values_witness :
  pushInt32 0xFFFF 0xFFFF = _push (VNum (of_int (0xFFFF * 2 ^ 16 + 0xFFFF)))
  /\ pushInt32Neg 0xFFFF 0xFFFF
     = _push (VNum (of_int (-1 - (0xFFFF * 2 ^ 16 + 0xFFFF))))
  /\ to_int (of_int (0xFFFF * 2 ^ 16 + 0xFFFF)) = 0xFFFF * 2 ^ 16 + 0xFFFF
  /\ to_int (of_int (-1 - (0xFFFF * 2 ^ 16 + 0xFFFF)))
     = -1 - (0xFFFF * 2 ^ 16 + 0xFFFF).
Proof. apply (X14_pushInt32_values 0xFFFF 0xFFFF); lia. Defined.

(** ** The exceptions a decode call can raise *)

Lemma made_current d : made_stack d -> exists p, current d p /\ made_frame p.
Proof.
  intros [Hne HF]. unfold current.
  destruct (_parents d !! (List.length (_parents d) - 1)%nat) as [p|] eqn:Hp.
  - exists p. split; [reflexivity|]. eapply Forall_lookup_1; eassumption.
  - apply lookup_ge_None in Hp. destruct (_parents d); [contradiction|].
    cbn [List.length] in Hp. lia.
Qed.

Lemma made_counted p : made_frame p -> made_frame (counted p).
Proof. intros [Ht _]. split; [exact Ht|apply unknown_counted]. Qed.

Lemma made_insert d q h o r k :
  made_stack d -> made_frame q ->
  made_stack (mkDecoder h o r k
                (<[(List.length (_parents d) - 1)%nat := q]> (_parents d))).
Proof.
  intros [Hne HF] Hq. split; cbn [_parents].
  - intros E. apply (f_equal (@List.length parent)) in E.
    rewrite length_insert in E. destruct (_parents d); [contradiction|discriminate E].
  - apply Forall_insert; assumption.
Qed.

Lemma made_same_parents d h o r k :
  made_stack d -> made_stack (mkDecoder h o r k (_parents d)).
Proof. intros [? ?]. split; assumption. Qed.

Lemma _dec_made d :
  made_stack d ->
  exists d', _dec d = Ok (tt, d') /\ made_stack d'.
Proof.
  intros Hm. destruct (made_current d Hm) as (p & Hp & Ht & Hu).
  rewrite (_dec_unknown d p Hp Hu). eexists. split; [reflexivity|].
  apply (made_insert d); [assumption|]. apply made_counted. split; assumption.
Qed.

(** On a stack of frames the decoder made, a push never raises, and it
    leaves such a stack. *)
Lemma _push_made d val :
  made_stack d ->
  (forall e, _push val d <> Throw e)
  /\ (forall d', _push val d = Ok (tt, d') -> made_stack d').
Proof.
  intros Hm. destruct (made_current d Hm) as (p & Hp & Ht & Hu).
  unfold current in Hp.
  assert (Hdec : forall h o r k,
            exists d', _dec (mkDecoder h o r k (_parents d)) = Ok (tt, d')
                       /\ made_stack d').
  { intros h o r k. apply _dec_made. exact Hm. }
  split.
  - intros e H. unfold _push in H. run. rewrite Hp in H. run.
    repeat (step H; run; rewrite ?Hp in H; run);
      try (match type of H with
           | _dec ?X = Throw _ =>
               match X with
               | mkDecoder ?h ?o ?r ?k _ =>
                   destruct (Hdec h o r k) as (d' & E & _); rewrite E in H;
                   discriminate H
               end
           end).
    all: rewrite ?Z.eqb_neq in *; unfold PARENT_ARRAY, PARENT_OBJECT, PARENT_MAP in *;
      lia.
  - intros d' H. unfold _push in H. run. rewrite Hp in H. run.
    repeat (step H; run; rewrite ?Hp in H; run);
      try (match type of H with
           | _dec ?X = Ok _ =>
               match X with
               | mkDecoder ?h ?o ?r ?k _ =>
                   destruct (Hdec h o r k) as (d'' & E & Hm'); rewrite E in H;
                   injection H as <-; exact Hm'
               end
           end);
      injection H as <-;
      first [ exact Hm
            | apply made_same_parents; exact Hm
            | apply (made_insert d); [exact Hm|]; split; [|exact Hu];
              right; right; reflexivity ].
Qed.

Lemma _createParent_made d obj type len :
  made_stack d -> type = PARENT_ARRAY \/ type = PARENT_OBJECT ->
  (forall e, _createParent obj type len d <> Throw e)
  /\ (forall d', _createParent obj type len d = Ok (tt, d') -> made_stack d').
Proof.
  intros Hm Ht. destruct (_push_made d (VRef obj) Hm) as [Hno Hok].
  unfold _createParent. unfold bind at 1 3.
  destruct (_push (VRef obj) d) as [[[] d1]| |] eqn:Hpush.
  - specialize (Hok d1 eq_refl). destruct Hok as [Hne HF]. run. split.
    + discriminate.
    + intros d' H. injection H as <-. split; cbn [_parents].
      * intros E. apply app_eq_nil in E. destruct E as [_ E]. discriminate E.
      * apply Forall_app. split; [assumption|]. constructor; [|constructor].
        split; [|left; reflexivity]. cbn [p_type]. destruct Ht; tauto.
  - exfalso. exact (Hno e eq_refl).
  - split; discriminate.
Qed.

(** The only exceptions a callback raises are the RangeError of
    [new Array] and the TypeError of [pushInt64Neg] in its branch of the
    arbitrary-precision integers. *)
Lemma callback_made ev d :
  made_stack d ->
  (forall e, callback ev d = Throw e ->
     e = RangeError
     \/ (e = TypeError
         /\ exists f1 f2 g1 g2,
              ev = EpushInt64Neg f1 f2 g1 g2
              /\ num_lt MAX_SAFE_HIGH (buildInt32 (of_int f1) (of_int f2)) = true))
  /\ (forall d', callback ev d = Ok (tt, d') -> made_stack d').
Proof.
  intros Hm.
  assert (Hleaf : forall val h o r k,
            (forall e, _push val (mkDecoder h o r k (_parents d)) <> Throw e)
            /\ (forall d', _push val (mkDecoder h o r k (_parents d)) = Ok (tt, d')
                           -> made_stack d')).
  { intros. apply _push_made, made_same_parents, Hm. }
  assert (Hopen : forall obj type len h o r k,
            type = PARENT_ARRAY \/ type = PARENT_OBJECT ->
            (forall e, _createParent obj type len (mkDecoder h o r k (_parents d))
                       <> Throw e)
            /\ (forall d', _createParent obj type len (mkDecoder h o r k (_parents d))
                           = Ok (tt, d') -> made_stack d')).
  { intros. apply _createParent_made; [apply made_same_parents, Hm|assumption]. }
  assert (Hd : d = mkDecoder (_heap d) (objects d) (_res d) (_tmpKey d) (_parents d))
    by (destruct d; reflexivity).
  split.
  - intros e H. rewrite Hd in H. clear Hd.
    destruct ev; cbn [callback] in *;
      unfold pushInt, pushInt32, pushInt32Neg, pushInt64, pushInt64Neg, pushFloat,
        pushFloatSingle, pushFloatDouble, pushTrue, pushFalse, pushUndefined,
        pushNull, pushInfinity, pushInfinityNeg, pushNaN, pushNaNNeg,
        pushArrayStartFixed, pushArrayStartFixed32, pushArrayStartFixed64,
        pushObjectStartFixed, pushObjectStartFixed32, pushObjectStartFixed64,
        pushByteString, pushUtf8String, _createArrayStartFixed,
        _createObjectStartFixed, buildInt64, new_Array, Bignumber_sub in H;
      run; repeat (step H; run);
      first [ injection H as <-; left; reflexivity
            | injection H as <-; right; split; [reflexivity|];
              eexists _, _, _, _; split; [reflexivity|assumption]
            | exfalso; exact (proj1 (Hleaf _ _ _ _ _) _ H)
            | exfalso;
              exact (proj1 (Hopen _ PARENT_ARRAY _ _ _ _ _ (or_introl eq_refl)) _ H)
            | exfalso;
              exact (proj1 (Hopen _ PARENT_OBJECT _ _ _ _ _ (or_intror eq_refl)) _ H) ].
  - intros d' H. rewrite Hd in H. clear Hd.
    destruct ev; cbn [callback] in *;
      unfold pushInt, pushInt32, pushInt32Neg, pushInt64, pushInt64Neg, pushFloat,
        pushFloatSingle, pushFloatDouble, pushTrue, pushFalse, pushUndefined,
        pushNull, pushInfinity, pushInfinityNeg, pushNaN, pushNaNNeg,
        pushArrayStartFixed, pushArrayStartFixed32, pushArrayStartFixed64,
        pushObjectStartFixed, pushObjectStartFixed32, pushObjectStartFixed64,
        pushByteString, pushUtf8String, _createArrayStartFixed,
        _createObjectStartFixed, buildInt64, new_Array, Bignumber_sub in H;
      run; repeat (step H; run);
      first [ exact (proj2 (Hleaf _ _ _ _ _) _ H)
            | exact (proj2 (Hopen _ PARENT_ARRAY _ _ _ _ _ (or_introl eq_refl)) _ H)
            | exact (proj2 (Hopen _ PARENT_OBJECT _ _ _ _ _ (or_intror eq_refl)) _ H) ].
Qed.

Lemma callbacks_made evs d e :
  made_stack d -> callbacks evs d = Throw e ->
  e = RangeError
  \/ (e = TypeError
      /\ exists f1 f2 g1 g2,
           In (EpushInt64Neg f1 f2 g1 g2) evs
           /\ num_lt MAX_SAFE_HIGH (buildInt32 (of_int f1) (of_int f2)) = true).
Proof.
  revert d. induction evs as [|ev evs IH]; intros d Hm H; [discriminate H|].
  cbn [callbacks] in H. unfold bind in H.
  destruct (callback_made ev d Hm) as [Hraise Hok].
  destruct (callback ev d) as [[[] d1]| |] eqn:Hev; try discriminate H.
  - destruct (IH d1 (Hok d1 eq_refl) H) as [->|(-> & f1 & f2 & g1 & g2 & Hin & Hbig)];
      [left; reflexivity|].
    right. split; [reflexivity|]. exists f1, f2, g1, g2.
    split; [right; exact Hin|exact Hbig].
  - injection H as <-.
    destruct (Hraise e0 eq_refl) as [->|(-> & f1 & f2 & g1 & g2 & -> & Hbig)];
      [left; reflexivity|].
    right. split; [reflexivity|]. exists f1, f2, g1, g2.
    split; [left; reflexivity|exact Hbig].
Qed.

Lemma started_made input d : made_stack (started input d).
Proof.
  split; [discriminate|]. constructor; [|constructor].
  split; [left; reflexivity|left; reflexivity].
Qed.

(** X9: the exceptions of a decode call.  Whatever the input, the
    scanner's callbacks and status, and the state of the decoder, an
    exception [decodeFirst] or [decodeAll] raises is a RangeError (the
    input exceeds the heap, or an array length is invalid), the error
    "Failed to parse" (a positive status), or the TypeError of a negative
    64-bit integer whose high word exceeds 2^21 - 1, when the scanner
    pushed one: the frame stack is never empty, and "Unkwon parent type" is
    never raised.  The statement is about the runs that stay within the
    modelled steps. *)
Theorem X9_exceptions parser input d e :
  decodeFirst parser input d = Throw e \/ decodeAll parser input d = Throw e ->
  e = RangeError
  \/ e = Error "Failed to parse"
  \/ (e = TypeError
      /\ exists f1 f2 g1 g2,
           In (EpushInt64Neg f1 f2 g1 g2)
              (fst (parser (_heap (started input d)) (Z.of_nat (List.length input))))
           /\ num_lt MAX_SAFE_HIGH (buildInt32 (of_int f1) (of_int f2)) = true).
Proof.
  assert (Hdec : forall e0, _decode parser input d = Throw e0 ->
            e0 = RangeError
            \/ e0 = Error "Failed to parse"
            \/ (e0 = TypeError
                /\ exists f1 f2 g1 g2,
                     In (EpushInt64Neg f1 f2 g1 g2)
                        (fst (parser (_heap (started input d))
                                (Z.of_nat (List.length input))))
                     /\ num_lt MAX_SAFE_HIGH (buildInt32 (of_int f1) (of_int f2))
                        = true)).
  { intros e0 H.
    destruct (Nat.le_gt_cases (List.length input) (List.length (_heap d))) as [Hfit|Hlong].
    - destruct (parser (_heap (started input d)) (Z.of_nat (List.length input)))
        as [evs code] eqn:Hscan.
      rewrite (_decode_run parser input d evs code Hfit Hscan) in H.
      destruct (callbacks evs (started input d)) as [[[] d1]| |] eqn:Hcb;
        try discriminate H.
      + destruct (0 <? code); [|discriminate H]. injection H as <-. right. now left.
      + injection H as <-.
        destruct (callbacks_made evs _ _ (started_made input d) Hcb) as [->|Hty];
          [now left|]. right. right. exact Hty.
    - rewrite (decode_too_long parser input d Hlong) in H. injection H as <-. now left. }
  intros [H|H].
  - unfold decodeFirst in H. unfold bind at 1 in H.
    destruct (_decode parser input d) as [[[] d1]| |] eqn:E; try discriminate H.
    + run. repeat (step H; run).
    + injection H as <-. apply Hdec. reflexivity.
  - unfold decodeAll in H. unfold bind at 1 in H.
    destruct (_decode parser input d) as [[[] d1]| |] eqn:E; try discriminate H.
    injection H as <-. apply Hdec. reflexivity.
Qed.

(** X9 at the negative integer -1 - (2^53 + 1) (the bytes
    [3B 00 20 00 00 00 00 00 01]). *)
Lemma X9_exceptions_witness :
  let d := mkDecoder (repeat x00 9) [] 0%nat VUndefined [] in
  let input := map byte_of [0x3B; 0x00; 0x20; 0x00; 0x00; 0x00; 0x00; 0x00; 0x01] in
  let parser := scanned [EpushInt64Neg 0x20 0 0 1] 0 in
  decodeFirst parser input d = Throw TypeError
  /\ (TypeError = RangeError
      \/ TypeError = Error "Failed to parse"
      \/ (TypeError = TypeError
          /\ exists f1 f2 g1 g2,
               In (EpushInt64Neg f1 f2 g1 g2)
                  (fst (parser (_heap (started input d))
                          (Z.of_nat (List.length input))))
               /\ num_lt MAX_SAFE_HIGH (buildInt32 (of_int f1) (of_int f2)) = true)).
Proof.
  intros d input parser. split; [reflexivity|].
  apply (X9_exceptions parser input d TypeError).
  left. reflexivity.
Defined.

(** ** Earlier results *)

Lemma apart_make n old d h o r k ps :
  apart_from n old d ->
  firstn n o = firstn n (objects d) ->
  (List.length (objects d) <= List.length o)%nat ->
  Forall (fun p => (n <= p_ref p)%nat) ps ->
  apart_from n old (mkDecoder h o r k ps).
Proof.
  intros (Hold & Hn & HF) Ho Hl Hps. split; [|split]; cbn [objects _parents].
  - rewrite Ho. exact Hold.
  - lia.
  - exact Hps.
Qed.

Lemma Forall_removelast {A} (P : A -> Prop) (l : list A) :
  Forall P l -> Forall P (removelast l).
Proof.
  induction 1 as [|x l Hx Hl IH]; [constructor|].
  cbn [removelast]. destruct l; [constructor|]. constructor; assumption.
Qed.

Lemma _dec_apart n old d d' :
  apart_from n old d -> _dec d = Ok (tt, d') -> apart_from n old d'.
Proof.
  intros Ha H. pose proof Ha as (Hold & Hn & HF). unfold _dec in H. run.
  destruct (_parents d !! (List.length (_parents d) - 1)%nat) as [p|] eqn:Hp;
    [|discriminate H].
  assert (Hr : (n <= p_ref p)%nat).
  { exact (Forall_lookup_1 _ _ _ _ HF Hp). }
  run. repeat (step H; run); injection H as <-;
    first [ exact Ha
          | apply (apart_make n old d); [exact Ha|reflexivity|lia|];
            first [ apply Forall_removelast, Forall_insert; [exact HF|exact Hr]
                  | apply Forall_insert; [exact HF|exact Hr] ] ].
Qed.

(** A push changes no object below the frames' objects. *)
Lemma _push_apart n old d val d' :
  apart_from n old d -> _push val d = Ok (tt, d') -> apart_from n old d'.
Proof.
  intros Ha H. pose proof Ha as (Hold & Hn & HF). unfold _push in H. run.
  destruct (_parents d !! (List.length (_parents d) - 1)%nat) as [p|] eqn:Hp;
    [|discriminate H].
  assert (Hr : (n <= p_ref p)%nat).
  { exact (Forall_lookup_1 _ _ _ _ HF Hp). }
  run. rewrite ?Hp in H. run.
  repeat (step H; run; rewrite ?Hp in H; run);
    try (apply (_dec_apart n old) in H; [exact H|];
         apply (apart_make n old d);
         [exact Ha | apply take_insert_ge; exact Hr
         | rewrite length_insert; lia | exact HF]);
    injection H as <-;
    first [ exact Ha
          | apply (apart_make n old d); [exact Ha|reflexivity|lia|exact HF]
          | apply (apart_make n old d);
            [ exact Ha | apply take_app_le; exact Hn
            | rewrite List.length_app; lia
            | apply Forall_insert; [exact HF|cbn [p_ref]; lia] ] ].
Qed.

Lemma _createParent_apart n old d obj type len d' :
  apart_from n old d -> (n <= obj)%nat ->
  _createParent obj type len d = Ok (tt, d') -> apart_from n old d'.
Proof.
  intros Ha Hobj H. unfold _createParent in H. unfold bind at 1 in H.
  destruct (_push (VRef obj) d) as [[[] d1]| |] eqn:Hpush; try discriminate H.
  apply (_push_apart n old) in Hpush; [|exact Ha].
  run. injection H as <-. apply (apart_make n old d1); [exact Hpush|reflexivity|lia|].
  destruct Hpush as (_ & _ & HF). apply Forall_app. split; [exact HF|].
  constructor; [exact Hobj|constructor].
Qed.

Lemma apart_alloc n old d h r k os :
  apart_from n old d ->
  apart_from n old (mkDecoder h (objects d ++ os) r k (_parents d)).
Proof.
  intros Ha. pose proof Ha as (Hold & Hn & HF).
  apply (apart_make n old d);
    [exact Ha | apply take_app_le; exact Hn | rewrite List.length_app; lia | exact HF].
Qed.

Lemma apart_same n old d h r k :
  apart_from n old d ->
  apart_from n old (mkDecoder h (objects d) r k (_parents d)).
Proof.
  intros Ha. pose proof Ha as (Hold & Hn & HF).
  apply (apart_make n old d); [exact Ha|reflexivity|lia|exact HF].
Qed.

Lemma callback_apart n old ev d d' :
  apart_from n old d -> callback ev d = Ok (tt, d') -> apart_from n old d'.
Proof.
  intros Ha H. pose proof Ha as (Hold & Hn & HF).
  assert (Hleaf : forall val d0, apart_from n old d0 ->
            _push val d0 = Ok (tt, d') -> apart_from n old d').
  { intros val d0 K Hpush. exact (_push_apart n old d0 val d' K Hpush). }
  assert (Hopen : forall obj type len d0, apart_from n old d0 -> (n <= obj)%nat ->
            _createParent obj type len d0 = Ok (tt, d') -> apart_from n old d').
  { intros obj type len d0 K Ho Hc.
    exact (_createParent_apart n old d0 obj type len d' K Ho Hc). }
  destruct ev; cbn [callback] in *;
    unfold pushInt, pushInt32, pushInt32Neg, pushInt64, pushInt64Neg, pushFloat,
      pushFloatSingle, pushFloatDouble, pushTrue, pushFalse, pushUndefined,
      pushNull, pushInfinity, pushInfinityNeg, pushNaN, pushNaNNeg,
      pushArrayStartFixed, pushArrayStartFixed32, pushArrayStartFixed64,
      pushObjectStartFixed, pushObjectStartFixed32, pushObjectStartFixed64,
      pushByteString, pushUtf8String, _createArrayStartFixed,
      _createObjectStartFixed, buildInt64, new_Array in H;
    run; repeat (step H; run);
    first [ eapply Hleaf; [|exact H]
          | eapply Hopen; [| |exact H]; [|rewrite ?List.length_app; lia] ];
    first [ exact Ha
          | apply apart_same; exact Ha
          | apply apart_alloc; exact Ha
          | rewrite <- app_assoc; apply apart_alloc; exact Ha ].
Qed.

Lemma callbacks_apart n old evs d d' :
  apart_from n old d -> callbacks evs d = Ok (tt, d') -> apart_from n old d'.
Proof.
  revert d. induction evs as [|ev evs IH]; intros d Ha H.
  - injection H as <-. exact Ha.
  - cbn [callbacks] in H. unfold bind in H.
    destruct (callback ev d) as [[[] d1]| |] eqn:Hev; try discriminate H.
    apply (IH d1); [|exact H]. exact (callback_apart n old ev d d1 Ha Hev).
Qed.

Lemma started_apart input d :
  apart_from (List.length (objects d)) (objects d) (started input d).
Proof.
  split; [|split]; cbn [started objects _parents].
  - apply take_app_length.
  - rewrite List.length_app. lia.
  - constructor; [cbn [p_ref]; lia|constructor].
Qed.

Lemma _decode_apart parser input d d' :
  _decode parser input d = Ok (tt, d') ->
  apart_from (List.length (objects d)) (objects d) d'
  /\ _res d' = List.length (objects d).
Proof.
  intros H.
  destruct (Nat.le_gt_cases (List.length input) (List.length (_heap d))) as [Hfit|Hlong].
  - destruct (parser (_heap (started input d)) (Z.of_nat (List.length input)))
      as [evs code] eqn:Hscan.
    rewrite (_decode_run parser input d evs code Hfit Hscan) in H.
    destruct (callbacks evs (started input d)) as [[[] d1]| |] eqn:Hcb;
      try discriminate H.
    destruct (0 <? code); [discriminate H|]. injection H as <-. split.
    + exact (callbacks_apart _ _ evs _ _ (started_apart input d) Hcb).
    + destruct (callbacks_keep_arrays _ _ _ Hcb) as [Hres _]. exact Hres.
  - rewrite (decode_too_long parser input d Hlong) in H. discriminate H.
Qed.

(** A decode call that returns leaves its result sequence an array. *)
Lemma _decode_result parser input d d1 :
  _decode parser input d = Ok (tt, d1) ->
  exists es, objects d1 !! _res d1 = Some (HArray es).
Proof.
  intros H.
  destruct (Nat.le_gt_cases (List.length input) (List.length (_heap d))) as [Hfit|Hlong].
  - destruct (parser (_heap (started input d)) (Z.of_nat (List.length input)))
      as [evs code] eqn:Hscan.
    rewrite (_decode_run parser input d evs code Hfit Hscan) in H.
    destruct (callbacks evs (started input d)) as [[[] d2]| |] eqn:Hcb;
      try discriminate H.
    destruct (0 <? code); [discriminate H|]. injection H as <-.
    destruct (callbacks_keep_arrays _ _ _ Hcb) as [Hres Harr].
    destruct (Harr (_res (started input d)) [] (lookup_last _ _)) as [es Hes].
    rewrite <- Hres in Hes. exists es. exact Hes.
  - rewrite (decode_too_long parser input d Hlong) in H. discriminate H.
Qed.

(** What [decodeFirst] and [decodeAll] return comes from a [_decode] that
    returned. *)
Lemma returned_decode parser input d v d' :
  decodeFirst parser input d = Ok (v, d') \/ decodeAll parser input d = Ok (v, d') ->
  _decode parser input d = Ok (tt, d').
Proof.
  intros [H|H].
  - unfold decodeFirst in H. unfold bind at 1 in H.
    destruct (_decode parser input d) as [[[] d1]| |] eqn:E; try discriminate H.
    run. repeat (step H; run). injection H as _ <-. reflexivity.
  - unfold decodeAll in H. unfold bind at 1 in H.
    destruct (_decode parser input d) as [[[] d1]| |] eqn:E; try discriminate H.
    run. injection H as _ <-. reflexivity.
Qed.

(** X11: results of earlier calls are left alone.  A decode call on a
    decoder that was used before builds its result in new objects only:
    every object that existed before the call (the values earlier calls
    returned among them) is the same after it, and the result sequence is
    a new array, not the one an earlier call returned. *)
Theorem X11_earlier_results_untouched parser input d v d' :
  decodeFirst parser input d = Ok (v, d') \/ decodeAll parser input d = Ok (v, d') ->
  firstn (List.length (objects d)) (objects d') = objects d
  /\ _res d' = List.length (objects d)
  /\ exists es, objects d' !! _res d' = Some (HArray es).
Proof.
  intros H. apply returned_decode in H.
  destruct (_decode_apart parser input d d' H) as [(Hold & _) Hres].
  split; [exact Hold|]. split; [exact Hres|].
  exact (_decode_result parser input d d' H).
Qed.

(** X11 at a decoder whose earlier call returned the array [7], decoding
    the item 5. *)
Lemma X11_earlier_results_untouched_witness :
  let d := mkDecoder [x07; x00] [HArray [Some (VNum (of_int 7))]] 0%nat VNull
             [mkParent PARENT_ARRAY (Some (of_int (-1))) None (Some NaN) 0%nat] in
  let input := map byte_of [0x05] in
  let parser := scanned [EpushInt 5] 0 in
  exists v d',
    decodeAll parser input d = Ok (v, d')
    /\ firstn (List.length (objects d)) (objects d') = objects d
    /\ _res d' = List.length (objects d)
    /\ exists es, objects d' !! _res d' = Some (HArray es).
Proof.
  intros d input parser.
  destruct (decodeAll parser input d) as [[v d']| |] eqn:H;
    [|vm_compute in H; discriminate H..].
  exists v, d'. split; [reflexivity|].
  apply (X11_earlier_results_untouched parser input d v d').
  right. exact H.
Defined.

(** ** The shared heap *)

Lemma _dec_heap d d' : _dec d = Ok (tt, d') -> _heap d' = _heap d.
Proof.
  intros H. unfold _dec in H. run.
  repeat (step H; run); injection H as <-; reflexivity.
Qed.

Lemma _push_heap d val d' : _push val d = Ok (tt, d') -> _heap d' = _heap d.
Proof.
  intros H. unfold _push in H. run.
  repeat (step H; run);
    try (apply _dec_heap in H; exact H);
    injection H as <-; reflexivity.
Qed.

Lemma _createParent_heap d obj type len d' :
  _createParent obj type len d = Ok (tt, d') -> _heap d' = _heap d.
Proof.
  intros H. unfold _createParent in H. unfold bind at 1 in H.
  destruct (_push (VRef obj) d) as [[[] d1]| |] eqn:Hpush; try discriminate H.
  apply _push_heap in Hpush. run. injection H as <-. exact Hpush.
Qed.

(** No callback writes to the heap. *)
Lemma callback_heap ev d d' : callback ev d = Ok (tt, d') -> _heap d' = _heap d.
Proof.
  intros H.
  destruct ev; cbn [callback] in *;
    unfold pushInt, pushInt32, pushInt32Neg, pushInt64, pushInt64Neg, pushFloat,
      pushFloatSingle, pushFloatDouble, pushTrue, pushFalse, pushUndefined,
      pushNull, pushInfinity, pushInfinityNeg, pushNaN, pushNaNNeg,
      pushArrayStartFixed, pushArrayStartFixed32, pushArrayStartFixed64,
      pushObjectStartFixed, pushObjectStartFixed32, pushObjectStartFixed64,
      pushByteString, pushUtf8String, _createArrayStartFixed,
      _createObjectStartFixed, buildInt64, new_Array in H;
    run; repeat (step H; run);
    first [ apply _push_heap in H; exact H
          | apply _createParent_heap in H; exact H ].
Qed.

Lemma callbacks_heap evs d d' : callbacks evs d = Ok (tt, d') -> _heap d' = _heap d.
Proof.
  revert d. induction evs as [|ev evs IH]; intros d H.
  - injection H as <-. reflexivity.
  - cbn [callbacks] in H. unfold bind in H.
    destruct (callback ev d) as [[[] d1]| |] eqn:Hev; try discriminate H.
    apply callback_heap in Hev. apply IH in H. congruence.
Qed.

(** X12: the heap after a decode call.  A call that returns leaves the
    heap with the input at its start and, behind it, the bytes that were
    there before: the heap is written by the copy of the input only, and
    it keeps the size the decoder was made with. *)
Theorem X12_heap_after_decode parser input d v d' :
  decodeFirst parser input d = Ok (v, d') \/ decodeAll parser input d = Ok (v, d') ->
  _heap d' = input ++ skipn (List.length input) (_heap d)
  /\ List.length (_heap d') = List.length (_heap d).
Proof.
  intros H. apply returned_decode in H.
  destruct (Nat.le_gt_cases (List.length input) (List.length (_heap d))) as [Hfit|Hlong].
  - destruct (parser (_heap (started input d)) (Z.of_nat (List.length input)))
      as [evs code] eqn:Hscan.
    rewrite (_decode_run parser input d evs code Hfit Hscan) in H.
    destruct (callbacks evs (started input d)) as [[[] d2]| |] eqn:Hcb;
      try discriminate H.
    destruct (0 <? code); [discriminate H|]. injection H as <-.
    apply callbacks_heap in Hcb. cbn [started _heap] in Hcb.
    split; [exact Hcb|]. rewrite Hcb, List.length_app, List.length_skipn. lia.
  - rewrite (decode_too_long parser input d Hlong) in H. discriminate H.
Qed.

(** X12 at a heap that holds five bytes of an earlier input, decoding one
    byte. *)
Lemma X12_heap_after_decode_witness :
  let d := mkDecoder (map byte_of [0x01; 0x02; 0x03; 0x04; 0x05]) [] 0%nat
             VUndefined [] in
  let input := map byte_of [0x07] in
  let parser := scanned [EpushInt 7] 0 in
  exists v d',
    decodeFirst parser input d = Ok (v, d')
    /\ _heap d' = input ++ skipn (List.length input) (_heap d)
    /\ List.length (_heap d') = List.length (_heap d).
Proof.
  intros d input parser.
  destruct (decodeFirst parser input d) as [[v d']| |] eqn:H;
    [|vm_compute in H; discriminate H..].
  exists v, d'. split; [reflexivity|].
  apply (X12_heap_after_decode parser input d v d').
  left. exact H.
Defined.

(** ** [decodeFirst] and [decodeAll] *)

(** X13: [decodeFirst] is the first element of [decodeAll].  On the same
    input and decoder the two raise the same exceptions, and when
    [decodeAll] returns its sequence, [decodeFirst] returns the element 0
    of that sequence ([undefined] when it is empty or starts with a hole)
    and leaves the same state. *)
Theorem X13_decodeFirst_is_first_of_decodeAll parser input d :
  (forall e, decodeFirst parser input d = Throw e
             <-> decodeAll parser input d = Throw e)
  /\ (forall v d', decodeAll parser input d = Ok (v, d')
        <-> exists es, v = VRef (_res d')
                       /\ objects d' !! _res d' = Some (HArray es)
                       /\ decodeFirst parser input d = Ok (first_of es, d')).
Proof.
  destruct (_decode parser input d) as [[[] d1]| |] eqn:E.
  - destruct (_decode_result parser input d d1 E) as [es Hes].
    assert (HA : decodeAll parser input d = Ok (VRef (_res d1), d1)).
    { unfold decodeAll. unfold bind at 1. rewrite E. reflexivity. }
    assert (HF : decodeFirst parser input d = Ok (first_of es, d1)).
    { unfold decodeFirst. unfold bind at 1. rewrite E. run. rewrite Hes.
      reflexivity. }
    rewrite HA, HF. split.
    + intros e. split; discriminate.
    + intros v d'. split.
      * intros H. injection H as <- <-. exists es. repeat split. exact Hes.
      * intros (es' & -> & _ & H). injection H as _ <-. reflexivity.
  - assert (HA : decodeAll parser input d = Throw e).
    { unfold decodeAll. unfold bind at 1. rewrite E. reflexivity. }
    assert (HF : decodeFirst parser input d = Throw e).
    { unfold decodeFirst. unfold bind at 1. rewrite E. reflexivity. }
    rewrite HA, HF. split.
    + intros e0. tauto.
    + intros v d'. split; [discriminate|]. intros (es & _ & _ & H). discriminate H.
  - assert (HA : decodeAll parser input d = Unmodelled).
    { unfold decodeAll. unfold bind at 1. rewrite E. reflexivity. }
    assert (HF : decodeFirst parser input d = Unmodelled).
    { unfold decodeFirst. unfold bind at 1. rewrite E. reflexivity. }
    rewrite HA, HF. split.
    + intros e0. tauto.
    + intros v d'. split; [discriminate|]. intros (es & _ & _ & H). discriminate H.
Qed.

(** ** Documents of arrays *)

Lemma array_current d :
  array_stack d -> exists p, current d p /\ array_frame d p.
Proof.
  intros [Hne HF]. unfold current.
  destruct (_parents d !! (List.length (_parents d) - 1)%nat) as [p|] eqn:Hp.
  - exists p. split; [reflexivity|]. eapply Forall_lookup_1; eassumption.
  - apply lookup_ge_None in Hp. destruct (_parents d); [contradiction|].
    cbn [List.length] in Hp. lia.
Qed.

Lemma array_frame_alloc d h r k ps os p :
  array_frame d p -> array_frame (mkDecoder h (objects d ++ os) r k ps) p.
Proof.
  intros (Ht & Hu & es & Hes). split; [exact Ht|]. split; [exact Hu|].
  exists es. cbn [objects].
  rewrite lookup_app_l by (eapply lookup_lt_Some; eassumption). exact Hes.
Qed.

Lemma array_stack_alloc d h r k os :
  array_stack d -> array_stack (mkDecoder h (objects d ++ os) r k (_parents d)).
Proof.
  intros [Hne HF]. split; [exact Hne|]. cbn [_parents].
  eapply Forall_impl; [exact HF|]. intros p. apply array_frame_alloc.
Qed.

Lemma array_stack_same d h r k :
  array_stack d -> array_stack (mkDecoder h (objects d) r k (_parents d)).
Proof.
  intros [Hne HF]. split; [exact Hne|]. cbn [_parents].
  eapply Forall_impl; [exact HF|]. intros p (Ht & Hu & es & Hes).
  split; [exact Ht|]. split; [exact Hu|]. exists es. exact Hes.
Qed.

(** On a stack of array frames every push returns, and leaves such a
    stack. *)
Lemma _push_arrays d val :
  array_stack d ->
  exists d', _push val d = Ok (tt, d') /\ array_stack d'.
Proof.
  intros Hs. destruct (array_current d Hs) as (p & Hp & Ht & Hu & es & Hes).
  destruct Hs as [Hne HF].
  rewrite (_push_array d p es val Hp Ht Hu Hes). eexists. split; [reflexivity|].
  assert (Hlt : (p_ref p < List.length (objects d))%nat)
    by (eapply lookup_lt_Some; eassumption).
  assert (Hkeep : forall q, array_frame d q ->
            array_frame (mkDecoder (_heap d)
                           (<[p_ref p := HArray (es ++ [Some val])]> (objects d))
                           (_res d) (_tmpKey d)
                           (<[(List.length (_parents d) - 1)%nat := counted p]>
                              (_parents d))) q).
  { intros q (Hqt & Hqu & es' & Hes'). split; [exact Hqt|]. split; [exact Hqu|].
    cbn [objects]. destruct (Nat.eq_dec (p_ref q) (p_ref p)) as [->|Hne'].
    - eexists. apply list_lookup_insert_eq. exact Hlt.
    - exists es'. rewrite list_lookup_insert_ne by congruence. exact Hes'. }
  split; cbn [_parents].
  - intros E. apply (f_equal (@List.length parent)) in E.
    rewrite length_insert in E. destruct (_parents d); [contradiction|discriminate E].
  - apply Forall_insert.
    + eapply Forall_impl; [exact HF|]. exact Hkeep.
    + split; [exact Ht|]. split; [apply unknown_counted|].
      cbn [objects counted p_ref]. eexists. apply list_lookup_insert_eq. exact Hlt.
Qed.

Lemma _createParent_arrays d obj es len :
  array_stack d -> objects d !! obj = Some (HArray es) ->
  exists d', _createParent obj PARENT_ARRAY len d = Ok (tt, d') /\ array_stack d'.
Proof.
  intros Hs Hobj. destruct (_push_arrays d (VRef obj) Hs) as (d1 & Hpush & [Hne HF]).
  destruct (_push_keeps_arrays d (VRef obj) d1 Hpush) as [_ Harr].
  destruct (Harr obj es Hobj) as [es' Hes'].
  unfold _createParent. unfold bind at 1. rewrite Hpush. run.
  eexists. split; [reflexivity|]. split; cbn [_parents].
  - intros E. apply app_eq_nil in E. destruct E as [_ E]. discriminate E.
  - apply Forall_app. split.
    + eapply Forall_impl; [exact HF|]. intros q (Hqt & Hqu & es0 & Hes0).
      split; [exact Hqt|]. split; [exact Hqu|]. exists es0. exact Hes0.
    + constructor; [|constructor]. split; [reflexivity|]. split; [left; reflexivity|].
      exists es'. exact Hes'.
Qed.

Lemma callback_arrays room ev d :
  0 <= room -> array_item room ev = true -> array_stack d ->
  exists d', callback ev d = Ok (tt, d') /\ array_stack d'.
Proof.
  intros Hroom Hev Hs.
  assert (Hleaf : forall val, exists d', _push val d = Ok (tt, d') /\ array_stack d').
  { intros val. apply _push_arrays. exact Hs. }
  destruct ev; try discriminate Hev; cbn [callback];
    try (unfold pushInt, pushInt32, pushInt32Neg, pushFloat, pushFloatSingle,
           pushFloatDouble, pushTrue, pushFalse, pushUndefined, pushNull,
           pushInfinity, pushInfinityNeg, pushNaN, pushNaNNeg, pushUtf8String;
         apply Hleaf).
  - cbn [array_item] in Hev. apply andb_true_iff in Hev. destruct Hev as [H0 H1].
    apply Z.leb_le in H0. apply Z.ltb_lt in H1.
    unfold pushArrayStartFixed, _createArrayStartFixed. unfold bind at 1.
    rewrite <- (Z2Nat.id len) by exact H0.
    rewrite new_Array_holes by (rewrite Z2Nat.id by exact H0; lia).
    apply (_createParent_arrays _ _ (repeat None (Z.to_nat len))).
    + apply array_stack_alloc. exact Hs.
    + cbn [objects]. apply lookup_last.
  - unfold pushByteString. unfold bind at 1. unfold get at 1.
    unfold bind at 1. unfold alloc at 1. run.
    apply _push_arrays. apply array_stack_alloc. exact Hs.
Qed.

Lemma callbacks_arrays room evs d :
  0 <= room -> forallb (array_item room) evs = true -> array_stack d ->
  exists d', callbacks evs d = Ok (tt, d').
Proof.
  intros Hroom. revert d. induction evs as [|ev evs IH]; intros d Hevs Hs.
  - exists d. reflexivity.
  - cbn [forallb] in Hevs. apply andb_true_iff in Hevs. destruct Hevs as [Hev Hevs].
    destruct (callback_arrays room ev d Hroom Hev Hs) as (d1 & Hcb & Hs1).
    destruct (IH d1 Hevs Hs1) as (d' & Hrun).
    exists d'. cbn [callbacks]. unfold bind. rewrite Hcb. exact Hrun.
Qed.

Lemma started_arrays input d : array_stack (started input d).
Proof.
  split; [discriminate|]. constructor; [|constructor].
  split; [reflexivity|]. split; [left; reflexivity|].
  exists []. apply lookup_last.
Qed.

(** X15: documents of arrays always decode.  When the scanner's callbacks
    open arrays only, nested to any depth, and push items that are no
    containers, when every declared length is at least 0 and leaves room
    for as many elements as there are callbacks below the 2^32 an array
    cannot reach, and the status is not positive, [decodeAll] returns the
    result sequence and [decodeFirst] its first element: no callback
    raises, whether the arrays get fewer or more items than declared. *)
Theorem X15_arrays_always_decode parser input d evs code :
  (List.length input <= List.length (_heap d))%nat ->
  parser (_heap (started input d)) (Z.of_nat (List.length input)) = (evs, code) ->
  code <= 0 ->
  Z.of_nat (List.length evs) < 2 ^ 32 ->
  forallb (array_item (Z.of_nat (List.length evs))) evs = true ->
  exists d' es,
    decodeAll parser input d = Ok (VRef (List.length (objects d)), d')
    /\ objects d' !! List.length (objects d) = Some (HArray es)
    /\ decodeFirst parser input d = Ok (first_of es, d').
Proof.
  intros Hfit Hscan Hcode Hcount Hevs.
  destruct (callbacks_arrays (Z.of_nat (List.length evs)) evs (started input d)
              ltac:(lia) Hevs (started_arrays input d))
    as (d' & Hcb).
  destruct (decodeFirst_returns parser input d evs code d' Hfit Hscan Hcb Hcode)
    as (es & Hes & Hfirst).
  destruct (callbacks_keep_arrays _ _ _ Hcb) as [Hres _].
  cbn [started _res] in Hres.
  assert (Hdec : _decode parser input d = Ok (tt, d')).
  { rewrite (_decode_run parser input d evs code Hfit Hscan), Hcb.
    destruct (Z.ltb_spec 0 code); [lia|reflexivity]. }
  exists d', es. split; [|split].
  - unfold decodeAll. unfold bind at 1. rewrite Hdec. run. rewrite Hres. reflexivity.
  - rewrite <- Hres. exact Hes.
  - exact Hfirst.
Qed.

(** X15 at an array in an array, the inner one given more items than it
    declares (the callbacks of [82 81 01 02 03]). *)
Lemma X15_arrays_always_decode_witness :
  let d := mkDecoder (repeat x00 5) [] 0%nat VUndefined [] in
  let input := map byte_of [0x82; 0x81; 0x01; 0x02; 0x03] in
  let evs := [EpushArrayStartFixed 2; EpushArrayStartFixed 1;
              EpushInt 1; EpushInt 2; EpushInt 3] in
  exists d' es,
    decodeAll (scanned evs 0) input d = Ok (VRef (List.length (objects d)), d')
    /\ objects d' !! List.length (objects d) = Some (HArray es)
    /\ decodeFirst (scanned evs 0) input d = Ok (first_of es, d').
Proof.
  intros d input evs.
  apply (X15_arrays_always_decode (scanned evs 0) input d evs 0);
    [cbn; lia | reflexivity | lia | cbn; lia | reflexivity].
Defined.

End Further.
